(** * beevik/cmd: hierarchical command lookup, shortcuts and autocompletion

    A shallow embedding of [cmd.go] (the generic [prefixtree/v2] revision:
    [Tree], [Command], [AddCommand], [AddSubtree], [AddShortcut], [Lookup],
    [LookupCommand], [Autocomplete], [nextField], [stripLeadingWhitespace])
    together with the properties its specification states about them.

    Go strings are byte strings and are modelled by [string] (one [ascii]
    per byte).  Pointers ([*Tree], [*Command]) are references into a heap,
    so that a command reached through its name and through a shortcut is one
    shared object. *)

From Stdlib Require Import String Ascii List Arith NArith Lia.
From stdpp Require Import base option list strings sorting relations.
From Equations Require Import Equations.

Local Open Scope string_scope.

(** ** Go string primitives *)

Module GoString.

(** [s[i:]] *)
Fixpoint sliceFrom (i : nat) (s : string) : string :=
  match i, s with
  | 0, _ => s
  | S _, "" => ""
  | S i', String _ s' => sliceFrom i' s'
  end.

(** [s[:i]] *)
Fixpoint sliceTo (i : nat) (s : string) : string :=
  match i, s with
  | 0, _ => ""
  | S _, "" => ""
  | S i', String c s' => String c (sliceTo i' s')
  end.

(** [s[i:j]] *)
Definition slice (i j : nat) (s : string) : string :=
  sliceTo (j - i) (sliceFrom i s).

(** The index at which [for i, c := range s { if p(c) { return ... } }]
    leaves the loop, if it does, read byte by byte.  Go ranges over runes;
    the source tests [c] only against space, tab and double quote, and for
    such tests both readings stop at the same byte offset
    ([range_scans_agree]). *)
Fixpoint indexFunc (p : ascii -> bool) (s : string) : option nat :=
  match s with
  | "" => None
  | String c s' => if p c then Some 0 else S <$> indexFunc p s'
  end.

(** [strings.HasPrefix(s, p)] *)
Definition hasPrefix (p s : string) : bool := String.prefix p s.

End GoString.

Import GoString.

(** ** The tokenizer *)

Definition dquote : ascii := "034"%char.
Definition tab : ascii := "009"%char.
Definition space : ascii := " "%char.

(** [c == ' ' || c == '\t'] *)
Definition isBlank (c : ascii) : bool :=
  bool_decide (c = space) || bool_decide (c = tab).

Definition isQuote (c : ascii) : bool := bool_decide (c = dquote).

(** [func stripLeadingWhitespace(s string) string] *)
Definition stripLeadingWhitespace (s : string) : string :=
  match indexFunc (fun c => negb (isBlank c)) s with
  | Some i => sliceFrom i s
  | None => ""
  end.

(** [func nextField(s string) (field, remain string)] *)
Definition nextField (s : string) : string * string :=
  match s with
  | String c s1 =>
      if isQuote c then
        match indexFunc isQuote s1 with
        | Some i => (slice 1 (i + 1) s, stripLeadingWhitespace (sliceFrom (i + 2) s))
        | None => (sliceFrom 1 s, "")
        end
      else
        match indexFunc isBlank s with
        | Some i => (sliceTo i s, stripLeadingWhitespace (sliceFrom i s))
        | None => (s, "")
        end
  | "" => ("", "")
  end.

(** A string made of spaces and tabs only. *)
Fixpoint allBlank (s : string) : bool :=
  match s with
  | "" => true
  | String c s' => isBlank c && allBlank s'
  end.

(** A string without any space or tab. *)
Fixpoint noBlank (s : string) : bool :=
  match s with
  | "" => true
  | String c s' => negb (isBlank c) && noBlank s'
  end.

(** A string without any double quote. *)
Fixpoint noQuote (s : string) : bool :=
  match s with
  | "" => true
  | String c s' => negb (isQuote c) && noQuote s'
  end.

(** A bare word: non-empty, no space or tab, not opening a quoted field. *)
Definition isWord (w : string) : bool :=
  match w with
  | "" => false
  | String c _ => negb (isQuote c) && noBlank w
  end.

(** ** Go standard library: [strings.Fields] *)

Module GoFields.

(** [utf8.DecodeRuneInString]: the rune at the head of [s] and its width in
    bytes.  An invalid or truncated sequence decodes to [RuneError]
    (U+FFFD) of width 1. *)
Definition RuneError : N := 65533%N.

Definition inRange (lo hi b : N) : bool := (lo <=? b)%N && (b <=? hi)%N.

Definition cont (b : N) : bool := inRange 128 191 b.

Definition decodeRune (s : string) : N * nat :=
  match s with
  | "" => (RuneError, 0)
  | String c0 s1 =>
      let b0 := N_of_ascii c0 in
      if (b0 <? 128)%N then (b0, 1)
      else if inRange 194 223 b0 then
        match s1 with
        | String c1 _ =>
            let b1 := N_of_ascii c1 in
            if cont b1 then (((b0 - 192) * 64 + (b1 - 128))%N, 2)
            else (RuneError, 1)
        | _ => (RuneError, 1)
        end
      else if inRange 224 239 b0 then
        match s1 with
        | String c1 (String c2 _) =>
            let b1 := N_of_ascii c1 in
            let b2 := N_of_ascii c2 in
            let lo := if (b0 =? 224)%N then 160%N else 128%N in
            let hi := if (b0 =? 237)%N then 159%N else 191%N in
            if inRange lo hi b1 && cont b2
            then (((b0 - 224) * 4096 + (b1 - 128) * 64 + (b2 - 128))%N, 3)
            else (RuneError, 1)
        | _ => (RuneError, 1)
        end
      else if inRange 240 244 b0 then
        match s1 with
        | String c1 (String c2 (String c3 _)) =>
            let b1 := N_of_ascii c1 in
            let b2 := N_of_ascii c2 in
            let b3 := N_of_ascii c3 in
            let lo := if (b0 =? 240)%N then 144%N else 128%N in
            let hi := if (b0 =? 244)%N then 143%N else 191%N in
            if inRange lo hi b1 && cont b2 && cont b3
            then (((b0 - 240) * 262144 + (b1 - 128) * 4096
                   + (b2 - 128) * 64 + (b3 - 128))%N, 4)
            else (RuneError, 1)
        | _ => (RuneError, 1)
        end
      else (RuneError, 1)
  end.

(** [unicode.IsSpace] *)
Definition IsSpace (r : N) : bool :=
  inRange 9 13 r || (r =? 32)%N || (r =? 133)%N || (r =? 160)%N
  || (r =? 5760)%N || inRange 8192 8202 r || inRange 8232 8233 r
  || (r =? 8239)%N || (r =? 8287)%N || (r =? 12288)%N.

(** [for i, c := range s { if p(c) { return ... i ... } }] read rune by rune:
    the byte offset of the first rune satisfying [p]. *)
Fixpoint rangeLoop (p : N -> bool) (s : string) (skip i : nat) : option nat :=
  match s with
  | "" => None
  | String _ s' =>
      match skip with
      | S k => rangeLoop p s' k (S i)
      | 0 =>
          let '(r, w) := decodeRune s in
          if p r then Some i else rangeLoop p s' (w - 1) (S i)
      end
  end.

Definition rangeIndex (p : N -> bool) (s : string) : option nat :=
  rangeLoop p s 0 0.

(** The first [k] bytes of [s] are not ASCII. *)
Fixpoint highPrefix (k : nat) (s : string) : Prop :=
  match k, s with
  | 0, _ => True
  | S _, "" => False
  | S k', String c s' => (128 <= N_of_ascii c)%N /\ highPrefix k' s'
  end.

(** A test on runes and a test on bytes that agree on ASCII and are the
    constant [q] elsewhere. *)
Definition asciiTest (P : N -> bool) (p : ascii -> bool) (q : bool) : Prop :=
  (forall c, (N_of_ascii c < 128)%N -> p c = P (N_of_ascii c))
  /\ (forall c, (128 <= N_of_ascii c)%N -> p c = q)
  /\ (forall r, (128 <= r)%N -> P r = q).

(** The loop of [strings.FieldsFunc(s, unicode.IsSpace)].  [skip] counts
    the bytes still belonging to the rune decoded last; [cur] is the field
    being collected ([None] between fields). *)
Fixpoint fieldsLoop (s : string) (skip : nat) (cur : option string)
  : list string :=
  match s with
  | "" => option_list cur
  | String c s' =>
      match skip with
      | S k =>
          fieldsLoop s' k ((fun f => f +:+ String c "") <$> cur)
      | 0 =>
          let '(r, w) := decodeRune s in
          if IsSpace r
          then option_list cur ++ fieldsLoop s' (w - 1) None
          else fieldsLoop s' (w - 1)
                 (Some (default "" cur +:+ String c ""))
      end
  end.

(** [strings.Fields(s)]: [s] split around each run of white space, as
    defined by [unicode.IsSpace]; no empty fields. *)
Definition Fields (s : string) : list string := fieldsLoop s 0 None.

End GoFields.

Import GoFields.

(** ** Go standard library: [sort.Search] and [sort.SearchStrings] *)

Module GoSort.

(** [func Search(n int, f func(int) bool) int]: the loop
    [for i < j { h := int(uint(i+j) >> 1); if !f(h) { i = h + 1 } else { j = h } }]
    followed by [return i]. *)
Equations? searchLoop (f : nat -> bool) (i j : nat) : nat by wf (j - i) lt :=
  searchLoop f i j with decide (i < j) := {
    | left _ =>
        let h := (i + j) / 2 in
        if negb (f h) then searchLoop f (h + 1) j else searchLoop f i h
    | right _ => i }.
Proof.
  all: assert (Hh : h = (i + j) / 2) by reflexivity; clearbody h;
    assert (i <= h) by (subst h; apply Nat.div_le_lower_bound; lia);
    assert (h < j) by (subst h; apply Nat.Div0.div_lt_upper_bound; lia);
    lia.
Qed.

Definition Search (n : nat) (f : nat -> bool) : nat := searchLoop f 0 n.

(** Go's [a[i] >= x] on strings: byte-wise lexicographic order. *)
Definition geString (a x : string) : bool := String.leb x a.

(** [func SearchStrings(a []string, x string) int] *)
Definition SearchStrings (a : list string) (x : string) : nat :=
  Search (length a) (fun i => geString (a !!! i) x).

End GoSort.

Import GoSort.

(** ** The prefix index *)

Module prefixtree.

(** [prefixtree.ErrPrefixAmbiguous], [prefixtree.ErrPrefixNotFound] *)
Inductive error := ErrPrefixAmbiguous | ErrPrefixNotFound.

Section Tree.
Context {V : Type}.

(** Modelled from the spec: the package github.com/beevik/prefixtree/v2,
    which cmd.go imports and which is not part of the sources.  A prefix
    index is the collection of its (key, value) entries; the spec leaves
    adding a key twice undefined. *)
Definition Tree := list (string * V).

(** Modelled from the spec: [prefixtree.New], the empty index. *)
Definition New : Tree := [].

(** Modelled from the spec: [add(key, node)] inserts [key -> node]. *)
Definition Add (key : string) (value : V) (pt : Tree) : Tree :=
  (pt ++ [(key, value)])%list.

(** The entry stored under exactly [key]. *)
Fixpoint exact (key : string) (pt : Tree) : option V :=
  match pt with
  | [] => None
  | (k, v) :: pt' => if decide (k = key) then Some v else exact key pt'
  end.

(** The entries whose key has [prefix] as a prefix, in index order. *)
Definition matching (prefix : string) (pt : Tree) : Tree :=
  List.filter (fun kv => hasPrefix prefix kv.1) pt.

(** Modelled from the spec: [find(query)].  An empty query fails with
    not-found; a query equal to a stored key returns that key's value;
    otherwise the query must be a prefix of exactly one stored key, and
    of several it is ambiguous. *)
Definition FindValue (pt : Tree) (query : string) : V + error :=
  if decide (query = "") then inr ErrPrefixNotFound
  else match exact query pt with
       | Some v => inl v
       | None =>
           match matching query pt with
           | [] => inr ErrPrefixNotFound
           | [(_, v)] => inl v
           | _ => inr ErrPrefixAmbiguous
           end
       end.

Definition keyLe (a b : string * V) : Prop := String.le a.1 b.1.

#[global] Instance keyLe_dec : RelDecision keyLe.
Proof. intros a b. unfold keyLe. apply _. Defined.

(** Modelled from the spec: [findCandidates(prefix)] returns every stored
    key of which [prefix] is a prefix (equality included), sorted
    lexicographically by key. *)
Definition FindKeyValues (pt : Tree) (prefix : string) : list (string * V) :=
  merge_sort keyLe (matching prefix pt).

End Tree.

Arguments Tree : clear implicits.

End prefixtree.

(** ** Termination of the tokenizer loops *)

Section TokenizerTermination.

Lemma sliceFrom_length_le i s :
  String.length (sliceFrom i s) <= String.length s.
Proof.
  revert s; induction i as [|i IH]; intros [|c s]; simpl; try lia.
  specialize (IH s). lia.
Qed.

Lemma sliceFrom_length_lt i c s :
  String.length (sliceFrom (S i) (String c s)) < String.length (String c s).
Proof. simpl. pose proof (sliceFrom_length_le i s). lia. Qed.

Lemma stripLeadingWhitespace_cons c s :
  stripLeadingWhitespace (String c s)
  = if isBlank c then stripLeadingWhitespace s else String c s.
Proof.
  unfold stripLeadingWhitespace. simpl.
  destruct (isBlank c); simpl; [|done].
  by destruct (indexFunc _ s).
Qed.

Lemma stripLeadingWhitespace_length_le s :
  String.length (stripLeadingWhitespace s) <= String.length s.
Proof.
  induction s as [|c s IH]; [done|].
  rewrite stripLeadingWhitespace_cons. destruct (isBlank c); simpl in *; lia.
Qed.

(** Every call of [nextField] on a non-empty string consumes input: this
    is what makes the loops of [Lookup] terminate. *)
Lemma nextField_remain_lt s :
  s <> "" -> String.length (nextField s).2 < String.length s.
Proof.
  destruct s as [|c s]; [done|intros _].
  unfold nextField. destruct (isQuote c) eqn:Hq.
  - destruct (indexFunc isQuote s) as [i|]; cbn [snd].
    + replace (i + 2) with (S (i + 1)) by lia.
      pose proof (stripLeadingWhitespace_length_le
                    (sliceFrom (S (i + 1)) (String c s))).
      pose proof (sliceFrom_length_lt (i + 1) c s). lia.
    + simpl; lia.
  - destruct (indexFunc isBlank (String c s)) as [i|] eqn:Hi; cbn [snd].
    + destruct i as [|i].
      * cbn [sliceFrom]. simpl in Hi.
        destruct (isBlank c) eqn:Hb.
        -- rewrite stripLeadingWhitespace_cons, Hb.
           pose proof (stripLeadingWhitespace_length_le s). simpl; lia.
        -- by destruct (indexFunc isBlank s).
      * pose proof (stripLeadingWhitespace_length_le (sliceFrom (S i) (String c s))).
        pose proof (sliceFrom_length_lt i c s). lia.
    + simpl; lia.
Qed.

End TokenizerTermination.

(** ** Data model of package [cmd] *)

(** [type TreeDescriptor struct]; [Data any] may be nil. *)
Module TreeDescriptor.
Record t {A : Type} := mk {
  Name : string;
  Brief : string;
  Description : string;
  Usage : string;
  Data : option A }.
Arguments t : clear implicits.
Definition zero {A} : t A := mk A "" "" "" "" None.
End TreeDescriptor.

(** [type CommandDescriptor struct] *)
Module CommandDescriptor.
Record t {A : Type} := mk {
  Name : string;
  Brief : string;
  Description : string;
  Usage : string;
  Data : option A }.
Arguments t : clear implicits.
Definition zero {A} : t A := mk A "" "" "" "" None.
End CommandDescriptor.

(** Errors returned by the cmd package; the last one is the anonymous
    [errors.New("invalid shortcut")] of [AddShortcut]. *)
Inductive error := ErrAmbiguous | ErrNotFound | ErrInvalidShortcut.

(** [*Command] and [*Tree]: addresses in the heap. *)
Definition CommandRef := nat.
Definition TreeRef := nat.

(** [type Node interface]: a [*Command] or a [*Tree]. *)
Inductive Node := NCommand (c : CommandRef) | NTree (t : TreeRef).

#[global] Instance Node_eq_dec : EqDecision Node.
Proof. solve_decision. Defined.

Section Model.
Context {A : Type}.

(** [type Command struct { CommandDescriptor; shortcuts []string }] *)
Record Command := mkCommand {
  descriptor : CommandDescriptor.t A;
  shortcuts : list string }.

(** [type Tree struct { TreeDescriptor; commands; subtrees; pt }] *)
Record Tree := mkTree {
  treeDescriptor : TreeDescriptor.t A;
  commands : list CommandRef;
  subtrees : list TreeRef;
  pt : prefixtree.Tree Node }.

(** All commands and trees allocated so far; a reference is an index.
    The references the API hands out are in range; [!!!] reads the zero
    value anywhere else. *)
Record Heap := mkHeap {
  cmds : list Command;
  trees : list Tree }.

#[global] Instance Command_inhabited : Inhabited Command :=
  populate (mkCommand CommandDescriptor.zero []).
#[global] Instance Tree_inhabited : Inhabited Tree :=
  populate (mkTree TreeDescriptor.zero [] [] prefixtree.New).

Definition emptyHeap : Heap := mkHeap [] [].

(** [func NewTree(d TreeDescriptor) *Tree] *)
Definition NewTree (s : Heap) (d : TreeDescriptor.t A) : Heap * TreeRef :=
  (mkHeap (cmds s) (trees s ++ [mkTree d [] [] prefixtree.New])%list,
   length (trees s)).

(** [func (t *Tree) AddCommand(d CommandDescriptor) *Command] *)
Definition AddCommand (s : Heap) (t : TreeRef) (d : CommandDescriptor.t A)
  : Heap * CommandRef :=
  let c := length (cmds s) in
  (mkHeap (cmds s ++ [mkCommand d []])%list
     (alter (fun T => mkTree (treeDescriptor T) (commands T ++ [c])%list
                        (subtrees T)
                        (prefixtree.Add (CommandDescriptor.Name d) (NCommand c) (pt T)))
        t (trees s)),
   c).

(** [func (t *Tree) AddSubtree(d TreeDescriptor) *Tree] *)
Definition AddSubtree (s : Heap) (t : TreeRef) (d : TreeDescriptor.t A)
  : Heap * TreeRef :=
  let subtree := length (trees s) in
  (mkHeap (cmds s)
     (alter (fun T => mkTree (treeDescriptor T) (commands T)
                        (subtrees T ++ [subtree])%list
                        (prefixtree.Add (TreeDescriptor.Name d) (NTree subtree) (pt T)))
        t (trees s ++ [mkTree d [] [] prefixtree.New])%list),
   subtree).

(** The descent loop of [Lookup]: it returns early with an error, or
    breaks with the node found and the input still unread. *)
Equations? lookupLoop (s : Heap) (p : prefixtree.Tree Node)
  (field remain : string) : error + (Node * string)
  by wf (String.length remain) lt :=
  lookupLoop s p field remain with prefixtree.FindValue p field := {
    | inr prefixtree.ErrPrefixAmbiguous => inl ErrAmbiguous
    | inr prefixtree.ErrPrefixNotFound => inl ErrNotFound
    | inl (NCommand c) => inr (NCommand c, remain)
    | inl (NTree subtree) with decide (remain = "") := {
        | left _ => inr (NTree subtree, remain)
        | right _ =>
            lookupLoop s (pt (trees s !!! subtree))
              (nextField remain).1 (nextField remain).2 } }.
Proof. by apply nextField_remain_lt. Qed.

(** [for remain != "" { field, remain = nextField(remain); args = append(args, field) }] *)
Equations? argsLoop (remain : string) (args : list string) : list string
  by wf (String.length remain) lt :=
  argsLoop remain args with decide (remain = "") := {
    | left _ => args
    | right _ =>
        argsLoop (nextField remain).2 (args ++ [(nextField remain).1])%list }.
Proof. by apply nextField_remain_lt. Qed.

(** [func (t *Tree) Lookup(line string) (n Node, args []string, err error)] *)
Definition Lookup (s : Heap) (t : TreeRef) (line : string)
  : option Node * list string * option error :=
  let '(field, remain) := nextField (stripLeadingWhitespace line) in
  if decide (field = "") then (None, [], Some ErrNotFound)
  else match lookupLoop s (pt (trees s !!! t)) field remain with
       | inl err => (None, [], Some err)
       | inr (n, remain) => (Some n, argsLoop remain [], None)
       end.

(** [func (t *Tree) LookupCommand(line string) (cmd *Command, args []string, err error)] *)
Definition LookupCommand (s : Heap) (t : TreeRef) (line : string)
  : option CommandRef * list string * option error :=
  match Lookup s t line with
  | (_, _, Some err) => (None, [], Some err)
  | (Some (NCommand cmd), args, None) => (Some cmd, args, None)
  | (_, _, None) => (None, [], Some ErrNotFound)
  end.

(** [func (t *Tree) LookupSubtree(line string) (subtree *Tree, args []string, err error)] *)
Definition LookupSubtree (s : Heap) (t : TreeRef) (line : string)
  : option TreeRef * list string * option error :=
  match Lookup s t line with
  | (_, _, Some err) => (None, [], Some err)
  | (Some (NTree subtree), args, None) => (Some subtree, args, None)
  | (_, _, None) => (None, [], Some ErrNotFound)
  end.

(** [func (c *Command) Shortcuts() []string]: [sort.Slice] with [<] on
    strings leaves the one ascending permutation of the slice, in place. *)
Definition Shortcuts (s : Heap) (c : CommandRef) : Heap * list string :=
  let C := cmds s !!! c in
  let sorted := merge_sort String.le (shortcuts C) in
  (mkHeap (<[c := mkCommand (descriptor C) sorted]> (cmds s)) (trees s),
   sorted).

(** [copy(a[d:], a[s:])] inside one slice [a]. *)
Definition copyWithin (d s : nat) (a : list string) : list string :=
  let n := (length a - d) `min` (length a - s) in
  (take d a ++ take n (drop s a) ++ drop (d + n) a)%list.

(** The four statements of [AddShortcut] that insert [shortcut] into the
    sorted slice [cmd.shortcuts]. *)
Definition insertShortcut (a : list string) (shortcut : string) : list string :=
  let i := SearchStrings a shortcut in
  let a := (a ++ [""])%list in
  let a := copyWithin (i + 1) i a in
  <[i := shortcut]> a.

(** [func (t *Tree) AddShortcut(shortcut, target string) error].  The last
    case, no command and no error, is never returned by [LookupCommand]
    ([LookupCommand_cases]). *)
Definition AddShortcut (s : Heap) (t : TreeRef) (shortcut target : string)
  : Heap * option error :=
  if decide (length (Fields shortcut) <> 1) then (s, Some ErrInvalidShortcut)
  else match LookupCommand s t target with
       | (_, _, Some err) => (s, Some err)
       | (Some cmd, _, None) =>
           let C := cmds s !!! cmd in
           (mkHeap
              (<[cmd := mkCommand (descriptor C) (insertShortcut (shortcuts C) shortcut)]>
                 (cmds s))
              (alter (fun T => mkTree (treeDescriptor T) (commands T) (subtrees T)
                                 (prefixtree.Add shortcut (NCommand cmd) (pt T)))
                 t (trees s)),
            None)
       | (None, _, None) => (s, None)
       end.

(** The loop of [Autocomplete]; [None] when it has not returned within
    [fuel] iterations. *)
Fixpoint autocompleteLoop (fuel : nat) (s : Heap) (p : prefixtree.Tree Node)
  (prefix field remain : string) : option (list string) :=
  match fuel with
  | 0 => None
  | S fuel =>
      let matches := prefixtree.FindKeyValues p field in
      match matches with
      | [] => Some []
      | [match_] =>
          match match_.2 with
          | NCommand _ =>
              if decide (remain <> "") then Some []
              else Some [prefix +:+ match_.1]
          | NTree st =>
              let subtree := trees s !!! st in
              if decide (remain = ""
                         /\ field <> TreeDescriptor.Name (treeDescriptor subtree))
              then Some [prefix +:+ match_.1]
              else autocompleteLoop fuel s (pt subtree)
                     (prefix +:+ match_.1 +:+ " ")
                     (nextField remain).1 (nextField remain).2
          end
      | _ =>
          if decide (remain <> "") then Some []
          else Some ((fun m => prefix +:+ m.1) <$> matches)
      end
  end.

(** [func (t *Tree) Autocomplete(line string) []string], with the number
    of loop iterations bounded by [fuel].  On a heap built through the API
    the loop returns within one iteration per tree ([Autocomplete_total]),
    and more fuel does not change its result ([autocompleteLoop_fuel]). *)
Definition Autocomplete (fuel : nat) (s : Heap) (t : TreeRef) (line : string)
  : option (list string) :=
  let '(field, remain) := nextField (stripLeadingWhitespace line) in
  autocompleteLoop fuel s (pt (trees s !!! t)) "" field remain.

End Model.

Arguments Command : clear implicits.
Arguments Tree : clear implicits.
Arguments Heap : clear implicits.

(** ** The descent of [Lookup] as a step relation *)

Section Descent.
Context {A : Type}.
Implicit Types (s : Heap A) (p : prefixtree.Tree Node).

(** The variables of the loop of [Lookup]: the index searched, the field to
    resolve in it and the input not yet read. *)
Record Cursor := mkCursor {
  cur_pt : prefixtree.Tree Node;
  cur_field : string;
  cur_remain : string }.

(** Where [Lookup] enters its loop on [line]. *)
Definition start s (t : TreeRef) (line : string) : Cursor :=
  mkCursor (pt (trees s !!! t))
    (nextField (stripLeadingWhitespace line)).1
    (nextField (stripLeadingWhitespace line)).2.

(** One turn of the loop that does not leave it: the field resolved to a
    subtree and input remains. *)
Inductive descend s : Cursor -> Cursor -> Prop :=
| descend_subtree p field remain subtree :
    prefixtree.FindValue p field = inl (NTree subtree) ->
    remain <> "" ->
    descend s (mkCursor p field remain)
      (mkCursor (pt (trees s !!! subtree))
         (nextField remain).1 (nextField remain).2).

(** What [Lookup] returns once its loop runs from a given cursor. *)
Definition lookupFrom s (cur : Cursor)
  : option Node * list string * option error :=
  match lookupLoop s (cur_pt cur) (cur_field cur) (cur_remain cur) with
  | inl err => (None, [], Some err)
  | inr (n, remain) => (Some n, argsLoop remain [], None)
  end.

(** The argument list read off the remaining input, first field first. *)
Equations? tokens (remain : string) : list string
  by wf (String.length remain) lt :=
  tokens remain with decide (remain = "") := {
    | left _ => []
    | right _ => (nextField remain).1 :: tokens (nextField remain).2 }.
Proof. by apply nextField_remain_lt. Qed.

End Descent.

Arguments Cursor : clear implicits.

(** ** The loop of [Autocomplete] as a step relation *)

Section AutocompleteModel.
Context {A : Type}.
Implicit Types (s : Heap A) (t : TreeRef).

(** The variables of the loop of [Autocomplete]. *)
Record ACursor := mkACursor {
  ac_pt : prefixtree.Tree Node;
  ac_prefix : string;
  ac_field : string;
  ac_remain : string }.

(** Where [Autocomplete] enters its loop on [line]. *)
Definition acStart s t (line : string) : ACursor :=
  mkACursor (pt (trees s !!! t)) ""
    (nextField (stripLeadingWhitespace line)).1
    (nextField (stripLeadingWhitespace line)).2.

(** One turn of the loop that does not leave it: the only candidate is a
    subtree, and input remains or the field is the subtree's full name. *)
Inductive acDescend s : ACursor -> ACursor -> Prop :=
| acDescend_subtree p prefix field remain key st :
    prefixtree.FindKeyValues p field = [(key, NTree st)] ->
    ~ (remain = ""
       /\ field <> TreeDescriptor.Name (treeDescriptor (trees s !!! st))) ->
    acDescend s (mkACursor p prefix field remain)
      (mkACursor (pt (trees s !!! st)) (prefix +:+ key +:+ " ")
         (nextField remain).1 (nextField remain).2).

(** The loop run from a cursor. *)
Definition acLoop (fuel : nat) s (cur : ACursor) : option (list string) :=
  autocompleteLoop fuel s (ac_pt cur) (ac_prefix cur) (ac_field cur)
    (ac_remain cur).

(** The candidates at a cursor, each behind the path accumulated so far. *)
Definition candidates (cur : ACursor) : list string :=
  (fun m => ac_prefix cur +:+ m.1)
    <$> prefixtree.FindKeyValues (ac_pt cur) (ac_field cur).

End AutocompleteModel.

Arguments ACursor : clear implicits.

(** ** Heaps built through the package's API *)

Section Built.
Context {A : Type}.
Implicit Types (s : Heap A) (t : TreeRef).

(** The heaps a program can build: [NewTree], then [AddCommand],
    [AddSubtree] and [AddShortcut] on trees it holds and [Shortcuts] on
    commands it holds, in any order and whether or not [AddShortcut]
    reports an error. *)
Inductive built : Heap A -> Prop :=
| built_empty : built emptyHeap
| built_NewTree s d : built s -> built (NewTree s d).1
| built_AddCommand s t d :
    built s -> t < length (trees s) -> built (AddCommand s t d).1
| built_AddSubtree s t d :
    built s -> t < length (trees s) -> built (AddSubtree s t d).1
| built_AddShortcut s t shortcut target :
    built s -> t < length (trees s) ->
    built (AddShortcut s t shortcut target).1
| built_Shortcuts s c :
    built s -> c < length (cmds s) -> built (Shortcuts s c).1.

(** Every command's shortcut slice is in ascending order. *)
Definition shortcutsSorted s : Prop :=
  Forall (fun C => StronglySorted String.le (shortcuts C)) (cmds s).

(** Subtrees are allocated after their parent: every subtree an index
    refers to lies above the tree that owns the index. *)
Definition heapOrdered s : Prop :=
  forall t (k : string) (st : TreeRef),
    (k, NTree st) ∈ pt (trees s !!! t) -> t < st /\ st < length (trees s).

End Built.

(** ** The command tree of the package's tests *)

Definition command (name : string) : CommandDescriptor.t string :=
  CommandDescriptor.mk string name "" "" "" (Some name).

Definition tree (name : string) : TreeDescriptor.t string :=
  TreeDescriptor.mk string name "" "" "" None.

(** [buildTree] of the test file, before its shortcuts are added: the root
    (tree 0) holds [quit], [verylongstring] and the subtree [file] (tree 1)
    with [open] (command 2), [close], [read], [write] and [run]. *)
Definition fileTree : Heap string :=
  let s := (NewTree emptyHeap (tree "tree")).1 in
  let s := (AddCommand s 0 (command "quit")).1 in
  let s := (AddCommand s 0 (command "verylongstring")).1 in
  let s := (AddSubtree s 0 (tree "file")).1 in
  let s := (AddCommand s 1 (command "open")).1 in
  let s := (AddCommand s 1 (command "close")).1 in
  let s := (AddCommand s 1 (command "read")).1 in
  let s := (AddCommand s 1 (command "write")).1 in
  let s := (AddCommand s 1 (command "run")).1 in
  s.

(** [buildTree] of the test file. *)
Definition buildTree : Heap string :=
  let s := fileTree in
  let s := (AddShortcut s 0 "zz" "file open").1 in
  let s := (AddShortcut s 0 "xx" "file open").1 in
  let s := (AddShortcut s 0 "yy" "file open").1 in
  let s := (AddShortcut s 0 "dd" "file open").1 in
  s.

(** The tree of [TestAutocomplete]: the root (tree 0) holds [chair], the
    subtree [child] (tree 1) and the shortcut [alice]; [child] holds
    [sally], [steve] and the subtree [grandchild] (tree 2) with [alice]
    and [mike]. *)
Definition acTree : Heap string :=
  let s := (NewTree emptyHeap (tree "root")).1 in
  let s := (AddCommand s 0 (command "chair")).1 in
  let s := (AddSubtree s 0 (tree "child")).1 in
  let s := (AddCommand s 1 (command "sally")).1 in
  let s := (AddCommand s 1 (command "steve")).1 in
  let s := (AddSubtree s 1 (tree "grandchild")).1 in
  let s := (AddCommand s 2 (command "alice")).1 in
  let s := (AddCommand s 2 (command "mike")).1 in
  let s := (AddShortcut s 0 "alice" "child grandchild alice").1 in
  s.

(** ** What a built heap looks like *)

Section HeapShape.
Context {A : Type}.
Implicit Types (s : Heap A) (t : TreeRef).

(** One call of the registration API on an allocated tree or command. *)
Inductive apiCall s : Heap A -> Prop :=
| call_NewTree d : apiCall s (NewTree s d).1
| call_AddCommand t d :
    t < length (trees s) -> apiCall s (AddCommand s t d).1
| call_AddSubtree t d :
    t < length (trees s) -> apiCall s (AddSubtree s t d).1
| call_AddShortcut t shortcut target :
    t < length (trees s) -> apiCall s (AddShortcut s t shortcut target).1
| call_Shortcuts c :
    c < length (cmds s) -> apiCall s (Shortcuts s c).1.

(** No reference dangles and no tree is its own descendant: a command an
    index holds is allocated, a subtree it holds is allocated and lies
    above the tree that owns the index. *)
Definition refsValid s : Prop :=
  forall t (k : string) (n : Node),
    (k, n) ∈ pt (trees s !!! t) ->
    match n with
    | NCommand c => c < length (cmds s)
    | NTree st => t < st /\ st < length (trees s)
    end.

(** What [Commands()] and [Subtrees()] list is in the tree's index under
    its name. *)
Definition listsIndexed s : Prop :=
  forall t,
    (forall c, c ∈ commands (trees s !!! t) ->
       c < length (cmds s)
       /\ (CommandDescriptor.Name (descriptor (cmds s !!! c)), NCommand c)
          ∈ pt (trees s !!! t))
    /\ (forall st, st ∈ subtrees (trees s !!! t) ->
         (TreeDescriptor.Name (treeDescriptor (trees s !!! st)), NTree st)
           ∈ pt (trees s !!! t)).

(** Every key of an index is accounted for: it is the name of a subtree of
    that tree, the name of a command of that tree, or a shortcut of the
    command it is bound to. *)
Definition keysAccounted s : Prop :=
  forall t (k : string) (n : Node),
    (k, n) ∈ pt (trees s !!! t) ->
    match n with
    | NTree st =>
        st ∈ subtrees (trees s !!! t)
        /\ k = TreeDescriptor.Name (treeDescriptor (trees s !!! st))
    | NCommand c =>
        (c ∈ commands (trees s !!! t)
         /\ k = CommandDescriptor.Name (descriptor (cmds s !!! c)))
        \/ k ∈ shortcuts (cmds s !!! c)
    end.

(** Every shortcut a command stores is a key of some tree's index, bound
    to that command. *)
Definition shortcutsIndexed s : Prop :=
  forall (c : CommandRef) (k : string),
    k ∈ shortcuts (cmds s !!! c) ->
    exists t, (k, NCommand c) ∈ pt (trees s !!! t).

Record heapShape s : Prop := mkHeapShape {
  shape_refs : refsValid s;
  shape_lists : listsIndexed s;
  shape_keys : keysAccounted s;
  shape_shortcuts : shortcutsIndexed s }.

End HeapShape.

(** ** Lines of words *)

(** Words laid out on a line: each word followed by its separator. *)
Fixpoint spaced (pairs : list (string * string)) : string :=
  match pairs with
  | [] => ""
  | (w, sep) :: pairs' => w +:+ sep +:+ spaced pairs'
  end.

(** A bare word followed by at least one space or tab. *)
Definition wordThenBlanks (p : string * string) : Prop :=
  isWord p.1 = true /\ allBlank p.2 = true /\ p.2 <> "".

(** ** Go's [int] *)

Module GoInt.

(** [int] is 64 bits wide, two's complement, as on amd64 and arm64. *)
Definition minInt : Z := (- 2 ^ 63)%Z.
Definition maxInt : Z := (2 ^ 63 - 1)%Z.

(** The value an [int] holds after an operation whose exact result is [z]. *)
Definition wrapInt (z : Z) : Z := ((z + 2 ^ 63) mod 2 ^ 64 - 2 ^ 63)%Z.

(** [a + b] on two [int]s. *)
Definition addInt (a b : Z) : Z := wrapInt (a + b).

(** [len(s)]: the number of bytes of [s], an [int]. *)
Definition len (s : string) : Z := Z.of_nat (String.length s).

(** The runtime's [maxAlloc] with 48 address bits, as on 64-bit Linux: a
    request for a larger object panics. *)
Definition maxAlloc : Z := (2 ^ 48)%Z.

End GoInt.

Import GoInt.

(** ** Go standard library: [strings.Repeat], [strings.Join], slices *)

Module GoStrings.

Fixpoint repeatLoop (s : string) (n : nat) : string :=
  match n with
  | 0 => ""
  | S n' => s +:+ repeatLoop s n'
  end.

(** [strings.Repeat(s, count)], for an [int] [count].  It panics ([None])
    on a negative count and when [len(s) * count] overflows an [int]; a
    result larger than [maxAlloc] makes the allocation panic. *)
Definition Repeat (s : string) (count : Z) : option string :=
  if decide (count < 0)%Z then None
  else if decide (maxInt < len s * count)%Z then None
  else if decide (maxAlloc < len s * count)%Z then None
  else Some (repeatLoop s (Z.to_nat count)).

(** [strings.Join(elems, sep)] *)
Fixpoint Join (elems : list string) (sep : string) : string :=
  match elems with
  | [] => ""
  | [e] => e
  | e :: elems' => e +:+ sep +:+ Join elems' sep
  end.

(** The slice expression [a[i:j]] on a slice whose capacity is its length;
    it panics ([None]) unless [i <= j <= len(a)]. *)
Definition sliceList {T} (a : list T) (i j : nat) : option (list T) :=
  if decide (i <= j <= length a) then Some (take (j - i) (drop i a)) else None.

End GoStrings.

Import GoStrings.

(** ** Wrapping help text *)

Definition newline : ascii := "010"%char.

(** The first loop of [indentWrap], over [ss[1:]]: the number of fields on
    each line.  [indent] and [l] are [int]s and their sums wrap around;
    [count] is at most the number of fields. *)
Fixpoint countsLoop (indent : Z) (rest : list string) (counts : list nat)
  (count : nat) (l : Z) : list nat :=
  match rest with
  | [] => (counts ++ [count])%list
  | w :: rest' =>
      if decide (addInt (addInt l 1) (len w) < 80)%Z
      then countsLoop indent rest' counts (S count)
             (addInt l (addInt 1 (len w)))
      else countsLoop indent rest' (counts ++ [count])%list 1
             (addInt indent (len w))
  end.

(** The lines the first loop decides on, as groups of fields: [cur] is the
    line being filled. *)
Fixpoint wrapFrom (indent : Z) (rest cur : list string) (l : Z)
  : list (list string) :=
  match rest with
  | [] => [cur]
  | w :: rest' =>
      if decide (addInt (addInt l 1) (len w) < 80)%Z
      then wrapFrom indent rest' (cur ++ [w])%list
             (addInt l (addInt 1 (len w)))
      else cur :: wrapFrom indent rest' [w] (addInt indent (len w))
  end.

(** The bytes a list of fields takes with one separator after each. *)
Fixpoint weight (ws : list string) : Z :=
  match ws with
  | [] => 0%Z
  | w :: ws' => (len w + 1 + weight ws')%Z
  end.

(** The second loop of [indentWrap]: one line per count. *)
Fixpoint linesLoop (indent : Z) (ss : list string) (counts : list nat)
  (lines : list string) (i : nat) : option (list string) :=
  match counts with
  | [] => Some lines
  | c :: counts' =>
      match Repeat " " indent, sliceList ss i (i + c) with
      | Some pad, Some fields =>
          linesLoop indent ss counts' (lines ++ [pad +:+ Join fields " "])%list
            (i + c)
      | _, _ => None
      end
  end.

(** [func indentWrap(indent int, s string) string], for an [int]
    [indent]; [None] is a panic. *)
Definition indentWrap (indent : Z) (s : string) : option string :=
  let ss := Fields s in
  match ss with
  | [] => Some ""
  | w0 :: rest =>
      let counts := countsLoop indent rest [] 1 (addInt indent (len w0)) in
      match linesLoop indent ss counts [] 0 with
      | Some lines => Some (Join lines (String newline ""))
      | None => None
      end
  end.

(** ** The argument list as the specification words it *)

(** Where a reading of the line from left to right stands: between two
    fields, inside a bare field, or inside a quoted one; [acc] is what the
    field holds so far. *)
Inductive scanState :=
| Between
| InBare (acc : string)
| InQuoted (acc : string).

(** Written after the specification (sections 4.1 and 4.3), not after the
    code: fields are separated by runs of spaces and tabs; a field that
    opens with a double quote runs to the next double quote, keeps the
    spaces and tabs in between and loses its quotes; an unterminated quote
    takes the rest of the line; a bare field runs to the next space or tab;
    the fields come in reading order. *)
Fixpoint specArgsFrom (st : scanState) (s : string) : list string :=
  match s with
  | "" =>
      match st with
      | Between => []
      | InBare acc => [acc]
      | InQuoted acc => [acc]
      end
  | String c s' =>
      match st with
      | Between =>
          if isBlank c then specArgsFrom Between s'
          else if isQuote c then specArgsFrom (InQuoted "") s'
          else specArgsFrom (InBare (String c "")) s'
      | InBare acc =>
          if isBlank c then acc :: specArgsFrom Between s'
          else specArgsFrom (InBare (acc +:+ String c "")) s'
      | InQuoted acc =>
          if isQuote c then acc :: specArgsFrom Between s'
          else specArgsFrom (InQuoted (acc +:+ String c "")) s'
      end
  end.

Definition specArgs (s : string) : list string := specArgsFrom Between s.

(** ** Lines of bare words *)

(** Bare words with one space between them. *)
Inductive wordLine : string -> Prop :=
| wordLine_one w : isWord w = true -> wordLine w
| wordLine_more w line :
    isWord w = true -> wordLine line -> wordLine (w +:+ " " +:+ line).

(** Every key of every index is a bare word. *)
Definition keysWords {A} (s : Heap A) : bool :=
  forallb (fun T => forallb (fun kv => isWord kv.1) (pt T)) (trees s).

(** No index holds a key twice: every name and shortcut was new to its
    tree when it was registered. *)
Definition keysUnique {A} (s : Heap A) : bool :=
  forallb (fun T => bool_decide (NoDup (pt T).*1)) (trees s).

(** The index [p] is where [Lookup] from tree [t] stands once it has read
    the words of [prefix]. *)
Definition reachedBy {A} (s : Heap A) (t : TreeRef)
  (p : prefixtree.Tree Node) (prefix : string) : Prop :=
  forall line, wordLine line ->
    Lookup s t (prefix +:+ line)
    = lookupFrom s (mkCursor p (nextField line).1 (nextField line).2).


(** * Properties *)

(** ** The models at work *)

Example nextField_plain : nextField "foo  bar baz" = ("foo", "bar baz").
Proof. reflexivity. Qed.

Example nextField_leading : nextField "  foo" = ("", "foo").
Proof. reflexivity. Qed.

Example nextField_quoted :
  nextField (String dquote ("a b" +:+ String dquote " c")) = ("a b", "c").
Proof. reflexivity. Qed.

Example Fields_ex1 : Fields "  foo bar  baz   " = ["foo"; "bar"; "baz"].
Proof. reflexivity. Qed.

Example Fields_ex2 : Fields "" = [] /\ Fields (String tab " ") = [].
Proof. split; reflexivity. Qed.

(** U+00A0 (bytes C2 A0) separates fields; a lone C2 does not. *)
Example Fields_ex3 :
  Fields ("a" +:+ String "194" (String "160" "b")) = ["a"; "b"]
  /\ length (Fields ("a" +:+ String "194" "b")) = 1.
Proof. split; reflexivity. Qed.

Example SearchStrings_ex :
  SearchStrings ["dd"; "xx"; "zz"] "yy" = 2
  /\ SearchStrings ["dd"; "xx"; "zz"] "a" = 0
  /\ SearchStrings ["dd"; "xx"; "zz"] "zzz" = 3
  /\ SearchStrings ["dd"; "xx"; "zz"] "xx" = 1.
Proof. repeat split; reflexivity. Qed.

Example FindValue_ex :
  let pt := prefixtree.Add "run" 3 (prefixtree.Add "read" 2
              (prefixtree.Add "open" 1 prefixtree.New)) in
  prefixtree.FindValue pt "o" = inl 1
  /\ prefixtree.FindValue pt "r" = inr prefixtree.ErrPrefixAmbiguous
  /\ prefixtree.FindValue pt "x" = inr prefixtree.ErrPrefixNotFound
  /\ prefixtree.FindValue pt "" = inr prefixtree.ErrPrefixNotFound
  /\ prefixtree.FindValue pt "run" = inl 3
  /\ prefixtree.FindKeyValues pt "r" = [("read", 2); ("run", 3)]
  /\ prefixtree.FindKeyValues pt "" = [("open", 1); ("read", 2); ("run", 3)].
Proof. repeat split; vm_compute; reflexivity. Qed.

Example fileTree_refs :
  (NewTree emptyHeap (tree "tree")).2 = 0
  /\ length (trees fileTree) = 2 /\ length (cmds fileTree) = 7
  /\ prefixtree.exact "file" (pt (trees fileTree !!! 0)) = Some (NTree 1)
  /\ prefixtree.exact "open" (pt (trees fileTree !!! 1)) = Some (NCommand 2).
Proof. repeat split; vm_compute; reflexivity. Qed.

Example buildTree_lookup :
  Lookup buildTree 0 "file open foo 12" = (Some (NCommand 2), ["foo"; "12"], None)
  /\ Lookup buildTree 0 "d 1  2  3 4" = (Some (NCommand 2), ["1"; "2"; "3"; "4"], None)
  /\ Lookup buildTree 0 "file r" = (None, [], Some ErrAmbiguous)
  /\ Lookup buildTree 0 "fi ro" = (None, [], Some ErrNotFound)
  /\ Lookup buildTree 0 "file" = (Some (NTree 1), [], None)
  /\ shortcuts (cmds buildTree !!! 2) = ["dd"; "xx"; "yy"; "zz"].
Proof. repeat split; vm_compute; reflexivity. Qed.

Example acTree_autocomplete :
  Autocomplete 4 acTree 0 "" = Some ["alice"; "chair"; "child"]
  /\ Autocomplete 4 acTree 0 "c" = Some ["chair"; "child"]
  /\ Autocomplete 4 acTree 0 "child"
     = Some ["child grandchild"; "child sally"; "child steve"]
  /\ Autocomplete 4 acTree 0 "ch s" = Some []
  /\ Autocomplete 4 acTree 0 "chi s" = Some ["child sally"; "child steve"]
  /\ Autocomplete 4 acTree 0 "chi g alice" = Some ["child grandchild alice"]
  /\ Autocomplete 4 acTree 0 "chair foo" = Some [].
Proof. repeat split; vm_compute; reflexivity. Qed.

(** ** Basic facts about slicing and the tokenizer *)

Section TokenizerFacts.

Lemma sliceFrom_empty i : sliceFrom i "" = "".
Proof. by destruct i. Qed.

Lemma sliceFrom_app_length a b : sliceFrom (String.length a) (a +:+ b) = b.
Proof. induction a; simpl; auto. Qed.

Lemma sliceTo_app_length a b : sliceTo (String.length a) (a +:+ b) = a.
Proof. induction a; simpl; [by destruct b | by f_equal]. Qed.

Lemma stripLeadingWhitespace_allBlank ws rest :
  allBlank ws = true ->
  stripLeadingWhitespace (ws +:+ rest) = stripLeadingWhitespace rest.
Proof.
  induction ws as [|c ws IH]; simpl; [done|].
  intros [Hc Hws]%andb_prop.
  change (String c ws +:+ rest) with (String c (ws +:+ rest)).
  rewrite stripLeadingWhitespace_cons, Hc. auto.
Qed.

Lemma stripLeadingWhitespace_blank ws :
  allBlank ws = true -> stripLeadingWhitespace ws = "".
Proof.
  induction ws as [|c ws IH]; simpl; [done|].
  intros [Hc Hws]%andb_prop.
  rewrite stripLeadingWhitespace_cons, Hc. auto.
Qed.

Lemma stripLeadingWhitespace_nonblank c s :
  isBlank c = false -> stripLeadingWhitespace (String c s) = String c s.
Proof. intros H. by rewrite stripLeadingWhitespace_cons, H. Qed.

(** Where the first scan of [nextField] stops inside [w ++ rest]. *)
Lemma indexFunc_app_stop p w c rest :
  (forall x, In x (list_ascii_of_string w) -> p x = false) ->
  p c = true ->
  indexFunc p (w +:+ String c rest) = Some (String.length w).
Proof.
  intros Hw Hc. induction w as [|x w IH]; simpl.
  - by rewrite Hc.
  - change (String x w +:+ String c rest) with (String x (w +:+ String c rest)).
    simpl. rewrite (Hw x) by (simpl; auto).
    rewrite IH; [done|]. intros y Hy. apply Hw. simpl; auto.
Qed.

Lemma indexFunc_none p w :
  (forall x, In x (list_ascii_of_string w) -> p x = false) ->
  indexFunc p w = None.
Proof.
  intros Hw. induction w as [|x w IH]; simpl; [done|].
  rewrite (Hw x) by (simpl; auto).
  rewrite IH; [done|]. intros y Hy. apply Hw. simpl; auto.
Qed.

Lemma noBlank_spec w :
  noBlank w = true -> forall x, In x (list_ascii_of_string w) -> isBlank x = false.
Proof.
  induction w as [|c w IH]; simpl; [tauto|].
  intros [Hc Hw]%andb_prop x [<-|Hx]; [by apply negb_true_iff|auto].
Qed.

Lemma noQuote_spec w :
  noQuote w = true -> forall x, In x (list_ascii_of_string w) -> isQuote x = false.
Proof.
  induction w as [|c w IH]; simpl; [tauto|].
  intros [Hc Hw]%andb_prop x [<-|Hx]; [by apply negb_true_iff|auto].
Qed.

End TokenizerFacts.

(** ** Ranging over runes and over bytes *)

Section RuneFacts.

Lemma inRange_spec lo hi b : inRange lo hi b = true <-> (lo <= b <= hi)%N.
Proof. unfold inRange. rewrite andb_true_iff, !N.leb_le. done. Qed.

Lemma decodeRune_spec c s :
  ((N_of_ascii c < 128)%N -> decodeRune (String c s) = (N_of_ascii c, 1))
  /\ ((128 <= N_of_ascii c)%N -> (128 <= (decodeRune (String c s)).1)%N)
  /\ highPrefix ((decodeRune (String c s)).2 - 1) s.
Proof.
  unfold decodeRune, cont, RuneError.
  destruct (N_of_ascii c <? 128)%N eqn:H0.
  { apply N.ltb_lt in H0. simpl. repeat split; [lia]. }
  apply N.ltb_ge in H0.
  split; [lia|].
  destruct (inRange 194 223 (N_of_ascii c)) eqn:H1.
  { apply inRange_spec in H1.
    destruct s as [|c1 s]; [simpl; split; [lia|done]|].
    destruct (inRange 128 191 (N_of_ascii c1)) eqn:H2; [|simpl; split; [lia|done]].
    apply inRange_spec in H2. simpl. split; [lia|]. split; [lia|done]. }
  destruct (inRange 224 239 (N_of_ascii c)) eqn:H2.
  { apply inRange_spec in H2.
    destruct s as [|c1 [|c2 s]]; try (simpl; split; [lia|done]).
    destruct (_ && _) eqn:H3; [|simpl; split; [lia|done]].
    apply andb_prop in H3 as [H3 H4].
    apply inRange_spec in H3, H4.
    assert (128 <= N_of_ascii c1)%N.
    { destruct (N_of_ascii c =? 224)%N; lia. }
    simpl. split; [|repeat split; lia].
    destruct (N_of_ascii c =? 224)%N eqn:He.
    - apply N.eqb_eq in He. lia.
    - apply N.eqb_neq in He. lia. }
  destruct (inRange 240 244 (N_of_ascii c)) eqn:H3;
    [|simpl; split; [lia|done]].
  apply inRange_spec in H3.
  destruct s as [|c1 [|c2 [|c3 s]]]; try (simpl; split; [lia|done]).
  destruct (_ && _) eqn:H4; [|simpl; split; [lia|done]].
  apply andb_prop in H4 as [H4 H6]. apply andb_prop in H4 as [H4 H5].
  apply inRange_spec in H4, H5, H6.
  assert (128 <= N_of_ascii c1)%N.
  { destruct (N_of_ascii c =? 240)%N; lia. }
  simpl. split; [|repeat split; lia].
  destruct (N_of_ascii c =? 240)%N eqn:He.
  - apply N.eqb_eq in He. lia.
  - apply N.eqb_neq in He. lia.
Qed.

Lemma rangeLoop_bytes P p q : asciiTest P p q ->
  forall s skip i,
    highPrefix skip s -> q = false \/ skip = 0 ->
    rangeLoop P s skip i = (fun j => i + j) <$> indexFunc p s.
Proof.
  intros (Hlow & Hhigh & Hrune).
  induction s as [|c s IH]; intros skip i Hpre Hq; [done|].
  destruct skip as [|k].
  - cbn [rangeLoop indexFunc].
    destruct (decodeRune_spec c s) as (Hd1 & Hd2 & Hd3).
    destruct (N.lt_ge_cases (N_of_ascii c) 128) as [Hc|Hc].
    + rewrite (Hd1 Hc), (Hlow c Hc).
      destruct (P (N_of_ascii c)); simpl; [f_equal; lia|].
      rewrite (IH 0 (S i)) by (simpl; auto).
      destruct (indexFunc p s); simpl; [f_equal; lia|done].
    + specialize (Hd2 Hc). rewrite (Hhigh c Hc).
      destruct (decodeRune (String c s)) as [r w]. simpl in Hd2, Hd3.
      rewrite (Hrune r Hd2).
      destruct q; simpl; [f_equal; lia|].
      rewrite (IH (w - 1) (S i)) by auto.
      destruct (indexFunc p s); simpl; [f_equal; lia|done].
  - destruct Hq as [->|Hq]; [|done].
    simpl in Hpre. destruct Hpre as [Hc Hpre].
    cbn [rangeLoop indexFunc]. rewrite (Hhigh c Hc).
    rewrite (IH k (S i)) by auto.
    destruct (indexFunc p s); simpl; [f_equal; lia|done].
Qed.

Lemma rangeIndex_bytes P p q s :
  asciiTest P p q -> rangeIndex P s = indexFunc p s.
Proof.
  intros H. unfold rangeIndex.
  rewrite (rangeLoop_bytes P p q H s 0 0) by (simpl; auto).
  by destruct (indexFunc p s).
Qed.

Lemma N_of_ascii_eq c (a : ascii) :
  bool_decide (c = a) = (N_of_ascii c =? N_of_ascii a)%N.
Proof.
  destruct (N.eqb_spec (N_of_ascii c) (N_of_ascii a)) as [He|Hne].
  - apply bool_decide_eq_true.
    by rewrite <-(ascii_N_embedding c), He, ascii_N_embedding.
  - apply bool_decide_eq_false. by intros ->.
Qed.

(** The three tests of the source: blank ([c] is a space or a tab), not
    blank, and [c] is a double quote. *)
Lemma isBlank_asciiTest :
  asciiTest (fun r => (r =? 32) || (r =? 9))%N isBlank false.
Proof.
  split; [|split].
  - intros c _. unfold isBlank. by rewrite !N_of_ascii_eq.
  - intros c Hc. unfold isBlank. rewrite !N_of_ascii_eq.
    change (N_of_ascii space) with 32%N. change (N_of_ascii tab) with 9%N.
    apply orb_false_iff. split; apply N.eqb_neq; lia.
  - intros r Hr. apply orb_false_iff. split; apply N.eqb_neq; lia.
Qed.

Lemma notBlank_asciiTest :
  asciiTest (fun r => negb ((r =? 32) || (r =? 9)))%N
    (fun c => negb (isBlank c)) true.
Proof.
  destruct isBlank_asciiTest as (H1 & H2 & H3).
  split; [|split]; intros x Hx.
  - by rewrite (H1 x Hx).
  - by rewrite (H2 x Hx).
  - by rewrite (H3 x Hx).
Qed.

Lemma isQuote_asciiTest : asciiTest (fun r => r =? 34)%N isQuote false.
Proof.
  split; [|split].
  - intros c _. unfold isQuote. by rewrite N_of_ascii_eq.
  - intros c Hc. unfold isQuote. rewrite N_of_ascii_eq.
    change (N_of_ascii dquote) with 34%N. apply N.eqb_neq; lia.
  - intros r Hr. apply N.eqb_neq; lia.
Qed.

(** The scans of [stripLeadingWhitespace] and [nextField] stop at the same
    offset whether the string is read rune by rune or byte by byte. *)
Lemma range_scans_agree (s : string) :
  rangeIndex (fun r => negb ((r =? 32) || (r =? 9)))%N s
  = indexFunc (fun c => negb (isBlank c)) s
  /\ rangeIndex (fun r => (r =? 32) || (r =? 9))%N s = indexFunc isBlank s
  /\ rangeIndex (fun r => r =? 34)%N s = indexFunc isQuote s.
Proof.
  split; [|split].
  - apply (rangeIndex_bytes _ _ true), notBlank_asciiTest.
  - apply (rangeIndex_bytes _ _ false), isBlank_asciiTest.
  - apply (rangeIndex_bytes _ _ false), isQuote_asciiTest.
Qed.

End RuneFacts.

(** ** The loop of [Lookup] *)

Section LookupFacts.
Context {A : Type}.
Implicit Types (s : Heap A) (p : prefixtree.Tree Node).

Lemma lookupLoop_eq s p field remain :
  lookupLoop s p field remain =
  match prefixtree.FindValue p field with
  | inr prefixtree.ErrPrefixAmbiguous => inl ErrAmbiguous
  | inr prefixtree.ErrPrefixNotFound => inl ErrNotFound
  | inl (NCommand c) => inr (NCommand c, remain)
  | inl (NTree subtree) =>
      if decide (remain = "") then inr (NTree subtree, remain)
      else lookupLoop s (pt (trees s !!! subtree))
             (nextField remain).1 (nextField remain).2
  end.
Proof.
  etrans; [apply lookupLoop_unfold_eq|]. unfold lookupLoop_unfold.
  destruct (prefixtree.FindValue p field) as [[c|st]|[|]]; simpl; done.
Qed.

Lemma argsLoop_eq remain args :
  argsLoop remain args =
  if decide (remain = "") then args
  else argsLoop (nextField remain).2 (args ++ [(nextField remain).1])%list.
Proof.
  etrans; [apply argsLoop_unfold_eq|]. unfold argsLoop_unfold.
  by destruct (decide (remain = "")).
Qed.

Lemma tokens_eq remain :
  tokens remain =
  if decide (remain = "") then []
  else (nextField remain).1 :: tokens (nextField remain).2.
Proof.
  etrans; [apply tokens_unfold_eq|]. unfold tokens_unfold.
  by destruct (decide (remain = "")).
Qed.

(** The accumulating loop of the source appends the fields in reading
    order. *)
Lemma argsLoop_tokens remain : forall args,
  argsLoop remain args = (args ++ tokens remain)%list.
Proof.
  remember (String.length remain) as n eqn:Hn. revert remain Hn.
  induction n as [n IH] using lt_wf_ind. intros remain -> args.
  rewrite argsLoop_eq, (tokens_eq remain).
  destruct (decide (remain = "")) as [|Hne]; [by rewrite app_nil_r|].
  rewrite (IH _ (nextField_remain_lt _ Hne) _ eq_refl).
  by rewrite <-app_assoc.
Qed.

(** The loop gives one result all along a descent. *)
Lemma lookupFrom_descend s cur cur' :
  descend s cur cur' -> lookupFrom s cur = lookupFrom s cur'.
Proof.
  intros [p field remain subtree Hfind Hne]. unfold lookupFrom; simpl.
  rewrite (lookupLoop_eq s p field remain), Hfind.
  by destruct (decide (remain = "")).
Qed.

Lemma lookupFrom_rtc s cur cur' :
  rtc (descend s) cur cur' -> lookupFrom s cur = lookupFrom s cur'.
Proof.
  induction 1 as [|x y z Hxy _ IH]; [done|].
  by rewrite (lookupFrom_descend _ _ _ Hxy).
Qed.

Lemma Lookup_start s t line :
  (nextField (stripLeadingWhitespace line)).1 <> "" ->
  Lookup s t line = lookupFrom s (start s t line).
Proof.
  intros Hne. unfold Lookup, lookupFrom, start; simpl.
  destruct (nextField (stripLeadingWhitespace line)) as [field remain].
  simpl in *. by destruct (decide (field = "")).
Qed.

End LookupFacts.

(** ** Properties of the tokenizer *)

Section Tokenizer.

Lemma sliceFrom_add_app a k r :
  sliceFrom (String.length a + k) (a +:+ r) = sliceFrom k r.
Proof. induction a; simpl; auto. Qed.

Lemma isWord_inv w :
  isWord w = true ->
  exists c w', w = String c w' /\ isQuote c = false /\ isBlank c = false
               /\ noBlank w = true.
Proof.
  destruct w as [|c w']; [done|]. unfold isWord.
  intros [Hq Hb]%andb_prop. exists c, w'. split; [done|].
  apply negb_true_iff in Hq. split; [done|]. split; [|done].
  simpl in Hb. apply andb_prop in Hb as [Hb _]. by apply negb_true_iff.
Qed.

(** A bare word followed by nothing is one field. *)
Lemma nextField_word w : isWord w = true -> nextField w = (w, "").
Proof.
  intros (c & w' & -> & Hq & Hb & Hnb)%isWord_inv.
  unfold nextField. rewrite Hq.
  by rewrite (indexFunc_none isBlank _ (noBlank_spec _ Hnb)).
Qed.

(** A bare word followed by a space or tab ends there. *)
Lemma nextField_word_blank w b rest :
  isWord w = true -> isBlank b = true ->
  nextField (w +:+ String b rest) = (w, stripLeadingWhitespace rest).
Proof.
  intros (c & w' & -> & Hq & Hb & Hnb)%isWord_inv Hbl.
  change (String c w' +:+ String b rest)
    with (String c (w' +:+ String b rest)).
  unfold nextField. rewrite Hq.
  change (String c (w' +:+ String b rest))
    with (String c w' +:+ String b rest).
  rewrite (indexFunc_app_stop isBlank _ b rest (noBlank_spec _ Hnb) Hbl).
  rewrite sliceTo_app_length, sliceFrom_app_length.
  by rewrite stripLeadingWhitespace_cons, Hbl.
Qed.

(** A field opened by a double quote runs to the next double quote. *)
Lemma nextField_quote_closed a b :
  noQuote a = true ->
  nextField (String dquote (a +:+ String dquote b))
  = (a, stripLeadingWhitespace b).
Proof.
  intros Ha. unfold nextField.
  replace (isQuote dquote) with true by done.
  rewrite (indexFunc_app_stop isQuote a dquote b (noQuote_spec _ Ha))
    by done.
  unfold slice. f_equal.
  - replace (String.length a + 1 - 1) with (String.length a) by lia.
    simpl. apply sliceTo_app_length.
  - f_equal. replace (String.length a + 2) with (S (String.length a + 1)) by lia.
    simpl. rewrite sliceFrom_add_app. done.
Qed.

Lemma nextField_quote_open a :
  noQuote a = true -> nextField (String dquote a) = (a, "").
Proof.
  intros Ha. unfold nextField.
  replace (isQuote dquote) with true by done.
  by rewrite (indexFunc_none isQuote a (noQuote_spec _ Ha)).
Qed.

(** Either no double quote occurs in [s], or [s] splits at its first one. *)
Lemma first_quote s :
  noQuote s = true
  \/ exists a b, s = a +:+ String dquote b /\ noQuote a = true.
Proof.
  induction s as [|c s IH]; [by left|].
  destruct (isQuote c) eqn:Hc.
  - right. exists "", s. split; [|done].
    apply bool_decide_eq_true in Hc. by subst.
  - destruct IH as [IH|(a & b & -> & Ha)].
    + left. simpl. by rewrite Hc, IH.
    + right. exists (String c a), b. split; [done|]. simpl. by rewrite Hc, Ha.
Qed.

(** Blank-prefixed input: [nextField] itself yields the empty field. *)
Lemma nextField_blank_head b s :
  isBlank b = true ->
  nextField (String b s) = ("", stripLeadingWhitespace (String b s)).
Proof.
  intros Hb. unfold nextField.
  assert (isQuote b = false) as ->.
  { apply bool_decide_eq_false. intros ->. done. }
  simpl. by rewrite Hb.
Qed.

End Tokenizer.

(** ** The argument list, field by field *)

Section TokensFacts.

Lemma tokens_empty : tokens "" = [].
Proof. by rewrite tokens_eq. Qed.

Lemma tokens_cons (remain : string) :
  remain <> "" ->
  tokens remain = (nextField remain).1 :: tokens (nextField remain).2.
Proof. intros H. rewrite tokens_eq. by destruct (decide (remain = "")). Qed.

(** A bare word ends at the first space or tab after it. *)
Lemma tokens_word_blank w b rest :
  isWord w = true -> isBlank b = true ->
  tokens (w +:+ String b rest) = w :: tokens (stripLeadingWhitespace rest).
Proof.
  intros Hw Hb. rewrite tokens_cons.
  - by rewrite nextField_word_blank.
  - destruct (isWord_inv _ Hw) as (c & w' & -> & _). done.
Qed.

Lemma tokens_word w : isWord w = true -> tokens w = [w].
Proof.
  intros Hw. rewrite tokens_cons.
  - rewrite nextField_word by done. cbn [fst snd]. by rewrite tokens_empty.
  - by destruct w.
Qed.

(** A quoted argument keeps its blanks and loses its quotes. *)
Lemma tokens_quoted a rest :
  noQuote a = true ->
  tokens (String dquote (a +:+ String dquote rest))
  = a :: tokens (stripLeadingWhitespace rest).
Proof.
  intros Ha. rewrite tokens_cons by done. by rewrite nextField_quote_closed.
Qed.

Lemma concat_word_head w ws :
  isWord w = true ->
  stripLeadingWhitespace (String.concat " " (w :: ws))
  = String.concat " " (w :: ws).
Proof.
  intros (c & w' & -> & _ & Hb & _)%isWord_inv.
  destruct ws; simpl; by apply stripLeadingWhitespace_nonblank.
Qed.

(** Bare words separated by single spaces are returned as they are, in
    their order. *)
Lemma tokens_concat (ws : list string) :
  Forall (fun w => isWord w = true) ws ->
  tokens (String.concat " " ws) = ws.
Proof.
  induction 1 as [|w ws Hw Hws IH]; [apply tokens_empty|].
  destruct ws as [|w' ws]; [by apply tokens_word|].
  change (String.concat " " (w :: w' :: ws))
    with (w +:+ String space (String.concat " " (w' :: ws))).
  rewrite tokens_word_blank by done.
  rewrite concat_word_head by (by inversion Hws).
  by rewrite IH.
Qed.

End TokensFacts.

(** ** Tokenizer claims *)

(** C6 (as stated, refuted): [nextField] would strip leading spaces and tabs
    itself, so that blanks followed by a word give that word as the field.
    On two spaces followed by [foo] the field returned is empty. *)
Lemma nextField_keeps_leading_blanks :
  ~ (forall ws w : string,
       ws <> "" -> allBlank ws = true -> isWord w = true ->
       (nextField (ws +:+ w)).1 = w).
Proof.
  intros H. specialize (H "  " "foo").
  assert (Hf : (nextField ("  " +:+ "foo")).1 = "") by reflexivity.
  rewrite Hf in H. by discriminate H.
Qed.

(** C6 (amended): [nextField] does not strip leading blanks; its callers
    pass it [stripLeadingWhitespace s].  For [s] made of spaces and tabs
    followed by a bare word [w], [nextField (stripLeadingWhitespace s)]
    returns the field [w] with an empty remainder, whereas [nextField s]
    with at least one leading blank returns the empty field and leaves [w]
    as the remainder. *)
Theorem nextField_after_strip (ws w : string) :
  allBlank ws = true -> isWord w = true ->
  nextField (stripLeadingWhitespace (ws +:+ w)) = (w, "")
  /\ (ws <> "" -> nextField (ws +:+ w) = ("", w)).
Proof.
  intros Hws Hw.
  assert (Hstrip : stripLeadingWhitespace (ws +:+ w) = w).
  { rewrite stripLeadingWhitespace_allBlank by done.
    destruct (isWord_inv _ Hw) as (c & w' & -> & _ & Hb & _).
    by apply stripLeadingWhitespace_nonblank. }
  split.
  - rewrite Hstrip. by apply nextField_word.
  - intros Hne. destruct ws as [|b ws]; [done|].
    simpl in Hws. apply andb_prop in Hws as [Hb Hws].
    change (String b ws +:+ w) with (String b (ws +:+ w)).
    rewrite nextField_blank_head by done.
    change (String b (ws +:+ w)) with (String b ws +:+ w).
    by rewrite Hstrip.
Qed.

Lemma nextField_after_strip_witness :
  allBlank (String tab "  ") = true /\ isWord "foo" = true
  /\ nextField (stripLeadingWhitespace (String tab "  foo")) = ("foo", "")
  /\ (String tab "  " <> "" -> nextField (String tab "  foo") = ("", "foo")).
Proof.
  split; [reflexivity|]. split; [reflexivity|].
  apply (nextField_after_strip (String tab "  ") "foo"); reflexivity.
Defined.

(** C7: for a string opening with a double quote, the field is the text up
    to the next double quote and the remainder is what follows that quote,
    leading blanks stripped; without a closing quote the field is the rest
    of the string and the remainder is empty.  [nextField] has no error
    result.  ([first_quote] shows the two cases cover every string.) *)
Theorem nextField_quoted_field (a b : string) :
  noQuote a = true ->
  nextField (String dquote (a +:+ String dquote b))
    = (a, stripLeadingWhitespace b)
  /\ nextField (String dquote a) = (a, "").
Proof.
  intros Ha. split.
  - by apply nextField_quote_closed.
  - by apply nextField_quote_open.
Qed.

Lemma nextField_quoted_field_witness :
  noQuote "a b" = true
  /\ nextField (String dquote ("a b" +:+ String dquote " c")) = ("a b", "c")
  /\ nextField (String dquote "a b") = ("a b", "").
Proof.
  split; [reflexivity|].
  apply (nextField_quoted_field "a b" " c"). reflexivity.
Defined.

(** ** Lookup claims *)

Section LookupClaims.
Context {A : Type}.
Implicit Types (s : Heap A) (t : TreeRef) (cur : Cursor).

(** C8: a line whose first field is empty (the empty line, a line of spaces
    and tabs only) makes [Lookup] fail with [ErrNotFound] and return no
    node. *)
Theorem Lookup_empty_field s t (line : string) :
  allBlank line = true \/ (nextField (stripLeadingWhitespace line)).1 = "" ->
  Lookup s t line = (None, [], Some ErrNotFound).
Proof.
  intros H.
  assert (Hf : (nextField (stripLeadingWhitespace line)).1 = "").
  { destruct H as [H|H]; [|done].
    by rewrite stripLeadingWhitespace_blank. }
  unfold Lookup.
  destruct (nextField (stripLeadingWhitespace line)) as [field remain].
  simpl in Hf. subst field. done.
Qed.

(** C2: when a field resolves to a subtree, at any depth: with no input
    left [Lookup] succeeds with that Tree and no arguments; with input left
    the next field is taken from it and resolved in the subtree's own prefix
    index, from where the lookup goes on in the same way. *)
Theorem Lookup_subtree_descends s t (line : string) cur (subtree : TreeRef) :
  (nextField (stripLeadingWhitespace line)).1 <> "" ->
  rtc (descend s) (start s t line) cur ->
  prefixtree.FindValue (cur_pt cur) (cur_field cur) = inl (NTree subtree) ->
  (cur_remain cur = "" -> Lookup s t line = (Some (NTree subtree), [], None))
  /\ (cur_remain cur <> "" ->
      let next := mkCursor (pt (trees s !!! subtree))
                    (nextField (cur_remain cur)).1
                    (nextField (cur_remain cur)).2 in
      rtc (descend s) (start s t line) next
      /\ Lookup s t line = lookupFrom s next).
Proof.
  intros Hne Hrtc Hfind. split.
  - intros Hr.
    rewrite (Lookup_start _ _ _ Hne), (lookupFrom_rtc _ _ _ Hrtc).
    unfold lookupFrom. rewrite lookupLoop_eq, Hfind, Hr. simpl.
    by rewrite argsLoop_eq.
  - intros Hr next.
    assert (Hstep : descend s cur next).
    { destruct cur as [p field remain]. by constructor. }
    split.
    + eapply rtc_r; eauto.
    + rewrite (Lookup_start _ _ _ Hne), (lookupFrom_rtc _ _ _ Hrtc).
      by apply lookupFrom_descend.
Qed.

End LookupClaims.

Lemma Lookup_empty_field_witness :
  (allBlank (String tab "  ") = true
   \/ (nextField (stripLeadingWhitespace (String tab "  "))).1 = "")
  /\ Lookup buildTree 0 (String tab "  ") = (None, [], Some ErrNotFound).
Proof.
  split; [left; reflexivity|].
  apply (Lookup_empty_field buildTree 0 (String tab "  ")).
  left; reflexivity.
Defined.

Lemma Lookup_subtree_descends_witness :
  let line := "file open foo 12" in
  let cur := start buildTree 0 line in
  (nextField (stripLeadingWhitespace line)).1 <> ""
  /\ rtc (descend buildTree) (start buildTree 0 line) cur
  /\ prefixtree.FindValue (cur_pt cur) (cur_field cur) = inl (NTree 1)
  /\ (cur_remain cur = "" ->
      Lookup buildTree 0 line = (Some (NTree 1), [], None))
  /\ (cur_remain cur <> "" ->
      let next := mkCursor (pt (trees buildTree !!! 1))
                    (nextField (cur_remain cur)).1
                    (nextField (cur_remain cur)).2 in
      rtc (descend buildTree) (start buildTree 0 line) next
      /\ Lookup buildTree 0 line = lookupFrom buildTree next).
Proof.
  intros line cur.
  assert (H1 : (nextField (stripLeadingWhitespace line)).1 <> "")
    by (vm_compute; discriminate).
  assert (H2 : rtc (descend buildTree) (start buildTree 0 line) cur)
    by apply rtc_refl.
  assert (H3 : prefixtree.FindValue (cur_pt cur) (cur_field cur)
               = inl (NTree 1)) by (vm_compute; reflexivity).
  split; [assumption|]. split; [assumption|]. split; [assumption|].
  exact (Lookup_subtree_descends buildTree 0 line cur 1 H1 H2 H3).
Defined.

(** ** Sorted insertion of a shortcut *)

Section SortedInsert.

Lemma searchLoop_eq f i j :
  searchLoop f i j =
  if decide (i < j)
  then if negb (f ((i + j) / 2)) then searchLoop f ((i + j) / 2 + 1) j
       else searchLoop f i ((i + j) / 2)
  else i.
Proof.
  etrans; [apply searchLoop_unfold_eq|]. unfold searchLoop_unfold.
  by destruct (decide (i < j)).
Qed.

(** [sort.Search] on a monotone predicate: everything below the result
    fails it, everything from the result on satisfies it. *)
Lemma searchLoop_spec (f : nat -> bool) (n : nat) :
  (forall a b, a <= b -> b < n -> f a = true -> f b = true) ->
  forall d i j, j - i = d -> i <= j -> j <= n ->
    (forall k, k < i -> f k = false) ->
    (forall k, j <= k -> k < n -> f k = true) ->
    searchLoop f i j <= n
    /\ (forall k, k < searchLoop f i j -> f k = false)
    /\ (forall k, searchLoop f i j <= k -> k < n -> f k = true).
Proof.
  intros Hmono d. induction d as [d IH] using lt_wf_ind.
  intros i j Hd Hij Hjn Hlo Hhi. rewrite searchLoop_eq.
  destruct (decide (i < j)) as [Hlt|Hge].
  - set (h := (i + j) / 2).
    assert (i <= h) by (subst h; apply Nat.div_le_lower_bound; lia).
    assert (h < j) by (subst h; apply Nat.Div0.div_lt_upper_bound; lia).
    destruct (f h) eqn:Hfh; simpl.
    + apply (IH (h - i)); try lia; [done|].
      intros k Hk Hkn. by apply (Hmono h k).
    + apply (IH (j - (h + 1))); try lia; [|done].
      intros k Hk. destruct (f k) eqn:Hfk; [|done].
      rewrite <-Hfh. symmetry. apply (Hmono k h); [lia|lia|done].
  - assert (i = j) by lia. subst j. repeat split; [lia|done|done].
Qed.

Lemma copyWithin_cons d i y (l : list string) :
  copyWithin (S d) (S i) (y :: l) = y :: copyWithin d i l.
Proof. reflexivity. Qed.

(** Appending a slot, shifting the tail one place up and storing [x] at [i]
    is insertion at position [i]. *)
Lemma insert_shift (a : list string) (x : string) : forall i,
  i <= length a ->
  <[i := x]> (copyWithin (i + 1) i (a ++ [""])%list)
  = (take i a ++ x :: drop i a)%list.
Proof.
  induction a as [|y a IH]; intros [|i] Hi; simpl in Hi; try lia.
  - reflexivity.
  - unfold copyWithin. simpl.
    rewrite length_app. simpl.
    replace (length a + 1 - 0) with (S (length a)) by lia.
    replace (length a + 1) with (S (length a)) by lia.
    rewrite Nat.min_l by lia. simpl.
    rewrite take_app_length, drop_ge by (rewrite length_app; simpl; lia).
    by rewrite app_nil_r.
  - change ((y :: a) ++ [""])%list with (y :: (a ++ [""]))%list.
    replace (S i + 1) with (S (i + 1)) by lia.
    rewrite copyWithin_cons. simpl. f_equal. apply IH. lia.
Qed.

Lemma SearchStrings_spec (a : list string) (x : string) :
  StronglySorted String.le a ->
  SearchStrings a x <= length a
  /\ (forall k y, k < SearchStrings a x -> a !! k = Some y -> String.le y x)
  /\ (forall k y, SearchStrings a x <= k -> a !! k = Some y -> String.le x y).
Proof.
  intros Hsorted. unfold SearchStrings, Search.
  destruct (searchLoop_spec (fun i => geString (a !!! i) x) (length a))
    with (d := length a - 0) (i := 0) (j := length a)
    as (Hle & Hlo & Hhi); try lia.
  - intros k1 k2 Hk Hk2. unfold geString.
    destruct (lookup_lt_is_Some_2 a k1 ltac:(lia)) as [y1 Hy1].
    destruct (lookup_lt_is_Some_2 a k2 ltac:(lia)) as [y2 Hy2].
    rewrite (list_lookup_total_correct _ _ _ Hy1).
    rewrite (list_lookup_total_correct _ _ _ Hy2).
    intros Hx. apply Is_true_true. trans y1; [by apply Is_true_true|].
    destruct (decide (k1 = k2)) as [->|Hne].
    { rewrite Hy1 in Hy2. by injection Hy2 as ->. }
    rewrite <-(take_drop k2 a) in Hsorted.
    apply (StronglySorted_app_1_elem_of _ _ _ _ _ Hsorted).
    + apply list_elem_of_lookup. exists k1. apply lookup_take_Some. split; [done|lia].
    + apply list_elem_of_lookup. exists 0. by rewrite lookup_drop, Nat.add_0_r.
  - split; [done|]. split.
    + intros k y Hk Hy. specialize (Hlo k Hk). unfold geString in Hlo.
      rewrite (list_lookup_total_correct _ _ _ Hy) in Hlo.
      destruct (total String.le y x) as [?|Hxy]; [done|].
      apply Is_true_true in Hxy. unfold String.le in *. congruence.
    + intros k y Hk Hy.
      specialize (Hhi k Hk (lookup_lt_Some _ _ _ Hy)). unfold geString in Hhi.
      rewrite (list_lookup_total_correct _ _ _ Hy) in Hhi.
      by apply Is_true_true.
Qed.

(** The insertion performed by [AddShortcut] keeps a sorted slice sorted
    and adds exactly the new shortcut. *)
Lemma insertShortcut_sorted (a : list string) (x : string) :
  StronglySorted String.le a ->
  StronglySorted String.le (insertShortcut a x)
  /\ insertShortcut a x ≡ₚ x :: a.
Proof.
  intros Hsorted.
  destruct (SearchStrings_spec a x Hsorted) as (Hle & Hlo & Hhi).
  unfold insertShortcut. rewrite insert_shift by done.
  set (i := SearchStrings a x) in *. split.
  - pose proof Hsorted as Hs. rewrite <-(take_drop i a) in Hs.
    apply StronglySorted_app in Hs as (Hcross & Htake & Hdrop).
    apply StronglySorted_app_2; [|done|].
    + intros y1 y2 Hy1 [->|Hy2]%elem_of_cons; [|by apply Hcross].
      apply list_elem_of_lookup in Hy1 as [k Hk].
      apply lookup_take_Some in Hk as [Hk Hki]. by apply (Hlo k).
    + apply StronglySorted_cons. split; [|done].
      apply Forall_forall. intros y [k Hk]%list_elem_of_lookup.
      rewrite lookup_drop in Hk. apply (Hhi (i + k)); [lia|done].
  - rewrite <-Permutation_middle. by rewrite take_drop.
Qed.

End SortedInsert.

(** ** Which shortcuts [strings.Fields] splits into one field *)

Section FieldsFacts.

Lemma isBlank_inv b : isBlank b = true -> b = space \/ b = tab.
Proof.
  unfold isBlank. intros [H|H]%orb_prop; apply bool_decide_eq_true in H; auto.
Qed.

Lemma fieldsLoop_blank_head b v cur :
  isBlank b = true ->
  fieldsLoop (String b v) 0 cur = (option_list cur ++ fieldsLoop v 0 None)%list.
Proof. intros [->| ->]%isBlank_inv; reflexivity. Qed.

(** A blank string has no field. *)
Lemma Fields_blank ws : allBlank ws = true -> Fields ws = [].
Proof.
  unfold Fields. induction ws as [|b ws IH]; [done|]. simpl allBlank.
  intros [Hb Hws]%andb_prop. rewrite fieldsLoop_blank_head by done.
  by rewrite IH.
Qed.

Lemma blank_not_cont b :
  isBlank b = true ->
  forall lo hi, (128 <= lo)%N -> inRange lo hi (N_of_ascii b) = false.
Proof.
  intros Hb lo hi Hlo. unfold inRange. apply andb_false_iff. left.
  apply N.leb_gt.
  destruct (isBlank_inv _ Hb) as [->| ->]; vm_compute N_of_ascii; lia.
Qed.

(** A rune never extends over a space or tab: decoding in front of one
    sees the same as decoding at the end of the string. *)
Lemma decodeRune_app_blank u b v :
  u <> "" -> isBlank b = true ->
  decodeRune (u +:+ String b v) = decodeRune u.
Proof.
  intros Hu Hb.
  assert (Hc : cont (N_of_ascii b) = false) by (by apply blank_not_cont).
  assert (H1 : forall hi, inRange 128 hi (N_of_ascii b) = false)
    by (intros; by apply blank_not_cont).
  assert (H2 : forall hi, inRange 160 hi (N_of_ascii b) = false)
    by (intros; by apply blank_not_cont).
  assert (H3 : forall hi, inRange 144 hi (N_of_ascii b) = false)
    by (intros; by apply blank_not_cont).
  destruct u as [|c0 u]; [done|].
  change (String c0 u +:+ String b v) with (String c0 (u +:+ String b v)).
  unfold decodeRune.
  destruct (N_of_ascii c0 <? 128)%N; [done|].
  destruct (inRange 194 223 (N_of_ascii c0)).
  { destruct u as [|c1 u]; [|done]. simpl. by rewrite Hc. }
  destruct (inRange 224 239 (N_of_ascii c0)).
  { destruct u as [|c1 [|c2 u]]; [| |done].
    - simpl. destruct v; [done|].
      destruct (N_of_ascii c0 =? 224)%N; by rewrite ?H1, ?H2.
    - simpl. by rewrite Hc, andb_false_r. }
  destruct (inRange 240 244 (N_of_ascii c0)); [|done].
  destruct u as [|c1 [|c2 [|c3 u]]]; [| | |done].
  - simpl. destruct v as [|? [|? ?]]; [done|done|].
    destruct (N_of_ascii c0 =? 240)%N; by rewrite ?H1, ?H3.
  - simpl. destruct v; [done|]. by rewrite Hc, andb_false_r.
  - simpl. by rewrite Hc, andb_false_r.
Qed.

Lemma decodeRune_width c s :
  (decodeRune (String c s)).2 - 1 <= String.length s.
Proof.
  unfold decodeRune.
  repeat match goal with
         | |- context [if ?b then _ else _] => destruct b
         | |- context [match ?x with "" => _ | String _ _ => _ end] =>
             destruct x
         end; simpl; lia.
Qed.

(** Splitting at a space or tab splits the list of fields. *)
Lemma fieldsLoop_app_blank b v : isBlank b = true ->
  forall u k cur, k <= String.length u ->
    fieldsLoop (u +:+ String b v) k cur
    = (fieldsLoop u k cur ++ fieldsLoop v 0 None)%list.
Proof.
  intros Hb. induction u as [|c u IH]; intros k cur Hk.
  - simpl in Hk. assert (k = 0) as -> by lia.
    change ("" +:+ String b v) with (String b v).
    by rewrite fieldsLoop_blank_head.
  - change (String c u +:+ String b v) with (String c (u +:+ String b v)).
    destruct k as [|k].
    + cbn [fieldsLoop].
      change (String c (u +:+ String b v)) with (String c u +:+ String b v).
      rewrite decodeRune_app_blank by done.
      pose proof (decodeRune_width c u) as Hw.
      destruct (decodeRune (String c u)) as [r w]. simpl in Hw.
      destruct (IsSpace r).
      * rewrite IH by done. by rewrite app_assoc.
      * by rewrite IH.
    + cbn [fieldsLoop]. apply IH. simpl in Hk. lia.
Qed.

Lemma Fields_app_blank u b v :
  isBlank b = true ->
  Fields (u +:+ String b v) = (Fields u ++ Fields v)%list.
Proof. intros Hb. apply fieldsLoop_app_blank; [done|lia]. Qed.

(** A space or tab with a field on either side gives several fields. *)
Lemma Fields_interior_blank u b v :
  isBlank b = true -> Fields u <> [] -> Fields v <> [] ->
  length (Fields (u +:+ String b v)) <> 1.
Proof.
  intros Hb Hu Hv. rewrite Fields_app_blank, length_app by done.
  destruct (Fields u), (Fields v); simpl; try done; lia.
Qed.

End FieldsFacts.

(** ** Registration *)

Section Registration.
Context {A : Type}.
Implicit Types (s : Heap A) (t : TreeRef).

(** [LookupCommand] returns a command or an error, never neither. *)
Lemma LookupCommand_cases s t line :
  (exists cmd args, LookupCommand s t line = (Some cmd, args, None)
                    /\ Lookup s t line = (Some (NCommand cmd), args, None))
  \/ (exists err, LookupCommand s t line = (None, [], Some err)).
Proof.
  unfold LookupCommand.
  destruct (Lookup s t line) as [[[[c|st]|] args] [err|]]; eauto.
Qed.

(** The two ways [AddShortcut] returns. *)
Lemma AddShortcut_cases s t shortcut target :
  (exists err, AddShortcut s t shortcut target = (s, Some err))
  \/ (exists cmd args,
        length (Fields shortcut) = 1
        /\ Lookup s t target = (Some (NCommand cmd), args, None)
        /\ AddShortcut s t shortcut target =
           (mkHeap
              (<[cmd := mkCommand (descriptor (cmds s !!! cmd))
                          (insertShortcut (shortcuts (cmds s !!! cmd)) shortcut)]>
                 (cmds s))
              (alter (fun T => mkTree (treeDescriptor T) (commands T) (subtrees T)
                                 (prefixtree.Add shortcut (NCommand cmd) (pt T)))
                 t (trees s)),
            None)).
Proof.
  unfold AddShortcut.
  destruct (decide (length (Fields shortcut) <> 1)) as [|Hf]; [eauto|].
  assert (length (Fields shortcut) = 1) by lia.
  destruct (LookupCommand_cases s t target)
    as [(cmd & args & -> & HL)|(err & ->)]; [right|left]; eauto.
Qed.

Lemma AddShortcut_sorted s t shortcut target :
  shortcutsSorted s -> shortcutsSorted (AddShortcut s t shortcut target).1.
Proof.
  intros Hs.
  destruct (AddShortcut_cases s t shortcut target)
    as [(err & ->)|(cmd & args & _ & _ & ->)]; [done|].
  unfold shortcutsSorted in *. simpl.
  destruct (decide (cmd < length (cmds s))) as [Hlt|Hge].
  - apply Forall_insert; [done|]. simpl.
    apply insertShortcut_sorted.
    destruct (lookup_lt_is_Some_2 _ _ Hlt) as [C HC].
    rewrite (list_lookup_total_correct _ _ _ HC).
    by apply (Forall_lookup_1 _ _ _ _ Hs HC).
  - rewrite list_insert_ge by lia. done.
Qed.

Lemma built_sorted s : built s -> shortcutsSorted s.
Proof.
  induction 1
    as [|s d _ IH|s t d _ IH _|s t d _ IH _|s t sc tg _ IH _|s c _ IH Hc].
  - constructor.
  - done.
  - unfold shortcutsSorted in *. simpl. apply Forall_app. split; [done|].
    repeat constructor.
  - done.
  - by apply AddShortcut_sorted.
  - unfold shortcutsSorted in *. simpl. apply Forall_insert; [done|].
    simpl. apply StronglySorted_merge_sort; apply _.
Qed.

(** C9: in every heap built through the API, whatever [AddShortcut] calls
    were made and in between any two of them, each command's shortcut
    slice is sorted in ascending lexicographic order: [AddShortcut] inserts
    at the position its binary search returns ([insertShortcut_sorted]). *)
Theorem shortcuts_always_sorted s (c : CommandRef) (C : Command A) :
  built s -> cmds s !! c = Some C -> Sorted String.le (shortcuts C).
Proof.
  intros Hb HC. apply StronglySorted_Sorted.
  exact (Forall_lookup_1 _ _ _ _ (built_sorted s Hb) HC).
Qed.

(** C10: a shortcut that is not exactly one white-space delimited field
    (the empty string, a string of spaces and tabs, a string with a space
    or tab between two fields, or any other string that [strings.Fields]
    does not split into one field) makes [AddShortcut] return its error and
    leave the whole heap, hence every prefix index and every shortcut
    slice, as it was. *)
Theorem AddShortcut_invalid s t (shortcut target : string) :
  shortcut = ""
  \/ allBlank shortcut = true
  \/ (exists u b v, shortcut = u +:+ String b v /\ isBlank b = true
                    /\ Fields u <> [] /\ Fields v <> [])
  \/ length (Fields shortcut) <> 1 ->
  AddShortcut s t shortcut target = (s, Some ErrInvalidShortcut).
Proof.
  intros H.
  assert (Hf : length (Fields shortcut) <> 1).
  { destruct H as [->|[H|[(u & b & v & -> & Hb & Hu & Hv)|H]]].
    - done.
    - by rewrite Fields_blank.
    - by apply Fields_interior_blank.
    - done. }
  unfold AddShortcut.
  by destruct (decide (length (Fields shortcut) <> 1)).
Qed.

End Registration.

Lemma built_buildTree : built buildTree.
Proof.
  unfold buildTree.
  assert (Hfile : built fileTree).
  { unfold fileTree. cbv zeta.
    repeat first
      [ exact built_empty
      | apply (built_AddCommand _ _ _); [|vm_compute; lia]
      | apply (built_AddSubtree _ _ _); [|vm_compute; lia]
      | apply (built_NewTree _ _) ]. }
  cbv zeta.
  apply (built_AddShortcut _ 0 "dd" "file open"); [|vm_compute; lia].
  apply (built_AddShortcut _ 0 "yy" "file open"); [|vm_compute; lia].
  apply (built_AddShortcut _ 0 "xx" "file open"); [|vm_compute; lia].
  apply (built_AddShortcut _ 0 "zz" "file open"); [|vm_compute; lia].
  exact Hfile.
Defined.

Lemma shortcuts_always_sorted_witness :
  built buildTree
  /\ cmds buildTree !! 2 = Some (mkCommand (command "open") ["dd"; "xx"; "yy"; "zz"])
  /\ Sorted String.le ["dd"; "xx"; "yy"; "zz"].
Proof.
  split; [exact built_buildTree|]. split; [reflexivity|].
  exact (shortcuts_always_sorted buildTree 2
           (mkCommand (command "open") ["dd"; "xx"; "yy"; "zz"])
           built_buildTree eq_refl).
Defined.

Lemma AddShortcut_invalid_witness :
  ("f o" = "" \/ allBlank "f o" = true
   \/ (exists u b v, "f o" = u +:+ String b v /\ isBlank b = true
                     /\ Fields u <> [] /\ Fields v <> [])
   \/ length (Fields "f o") <> 1)
  /\ AddShortcut buildTree 0 "f o" "file open"
     = (buildTree, Some ErrInvalidShortcut).
Proof.
  assert (H : "f o" = "" \/ allBlank "f o" = true
              \/ (exists u b v, "f o" = u +:+ String b v /\ isBlank b = true
                                /\ Fields u <> [] /\ Fields v <> [])
              \/ length (Fields "f o") <> 1).
  { right; right; left. exists "f", space, "o".
    repeat split; try reflexivity; vm_compute; discriminate. }
  split; [exact H|].
  exact (AddShortcut_invalid buildTree 0 "f o" "file open" H).
Defined.

(** ** Shortcuts and lookup *)

Section PrefixIndexFacts.
Context {V : Type}.
Implicit Types (p : prefixtree.Tree V) (k : string) (v : V).

Lemma exact_Add_fresh p k v :
  prefixtree.exact k p = None ->
  prefixtree.exact k (prefixtree.Add k v p) = Some v.
Proof.
  unfold prefixtree.Add. induction p as [|[k' v'] p IH]; simpl.
  - intros _. by destruct (decide (k = k)).
  - destruct (decide (k' = k)); [done|auto].
Qed.

Lemma exact_Add_keep p k v k' v' :
  prefixtree.exact k p = Some v ->
  prefixtree.exact k (prefixtree.Add k' v' p) = Some v.
Proof.
  unfold prefixtree.Add. induction p as [|[k0 v0] p IH]; simpl; [done|].
  destruct (decide (k0 = k)); auto.
Qed.

(** An exact match wins. *)
Lemma FindValue_exact p k v :
  k <> "" -> prefixtree.exact k p = Some v ->
  prefixtree.FindValue p k = inl v.
Proof.
  intros Hk He. unfold prefixtree.FindValue.
  destruct (decide (k = "")); [done|]. by rewrite He.
Qed.

End PrefixIndexFacts.

Section ShortcutFacts.
Context {A : Type}.
Implicit Types (s : Heap A) (t : TreeRef).

Lemma lookupFrom_command s p field remain (c : CommandRef) :
  prefixtree.FindValue p field = inl (NCommand c) ->
  lookupFrom s (mkCursor p field remain)
  = (Some (NCommand c), tokens remain, None).
Proof.
  intros Hf. unfold lookupFrom. simpl.
  by rewrite lookupLoop_eq, Hf, argsLoop_tokens.
Qed.

Lemma lookupFrom_subtree_end s p field (st : TreeRef) :
  prefixtree.FindValue p field = inl (NTree st) ->
  lookupFrom s (mkCursor p field "") = (Some (NTree st), [], None).
Proof.
  intros Hf. unfold lookupFrom. simpl.
  rewrite lookupLoop_eq, Hf.
  destruct (decide ("" = "")); [|done]. by rewrite argsLoop_eq.
Qed.

Lemma lookupFrom_subtree_more s p field remain (st : TreeRef) :
  prefixtree.FindValue p field = inl (NTree st) -> remain <> "" ->
  lookupFrom s (mkCursor p field remain)
  = lookupFrom s (mkCursor (pt (trees s !!! st))
                    (nextField remain).1 (nextField remain).2).
Proof.
  intros Hf Hne. apply lookupFrom_descend. by constructor.
Qed.

Lemma Fields_one_nonempty (shortcut : string) :
  length (Fields shortcut) = 1 -> shortcut <> "".
Proof. by intros H ->. Qed.

(** What a successful [AddShortcut] does to the heap: the shortcut becomes
    a key of the registering tree's index, bound to the target command;
    all other indexes are as before. *)
Lemma AddShortcut_success s t (shortcut target : string)
    (c : CommandRef) (args : list string) :
  length (Fields shortcut) = 1 ->
  Lookup s t target = (Some (NCommand c), args, None) ->
  t < length (trees s) ->
  (AddShortcut s t shortcut target).2 = None
  /\ forall t',
       pt (trees (AddShortcut s t shortcut target).1 !!! t')
       = if decide (t' = t)
         then prefixtree.Add shortcut (NCommand c) (pt (trees s !!! t'))
         else pt (trees s !!! t').
Proof.
  intros Hf HL Ht.
  destruct (AddShortcut_cases s t shortcut target)
    as [(err & He)|(c' & args' & _ & HL' & ->)].
  { exfalso. unfold AddShortcut, LookupCommand in He. rewrite HL in He.
    destruct (decide (length (Fields shortcut) <> 1)); [done|].
    by inversion He. }
  rewrite HL in HL'. injection HL' as <- <-.
  split; [done|]. intros t'. simpl.
  destruct (decide (t' = t)) as [->|Hne].
  - destruct (lookup_lt_is_Some_2 _ _ Ht) as [T HT].
    rewrite list_lookup_total_alter_eq by done.
    done.
  - by rewrite list_lookup_total_alter_ne.
Qed.

End ShortcutFacts.

Section ShortcutClaims.
Context {A : Type}.
Implicit Types (s : Heap A) (t : TreeRef).

(** C3: in a tree whose index holds the subtree [file], itself holding the
    command [open], and where [f] is not yet a key, [AddShortcut "f"
    "file open"] succeeds, and afterwards [Lookup "f a b"] and
    [Lookup "file open a b"] return the same command, each with the
    arguments [a] and [b]. *)
Theorem shortcut_same_command s t (file : TreeRef) (open : CommandRef) :
  t < length (trees s) ->
  prefixtree.exact "file" (pt (trees s !!! t)) = Some (NTree file) ->
  prefixtree.exact "open" (pt (trees s !!! file)) = Some (NCommand open) ->
  prefixtree.exact "f" (pt (trees s !!! t)) = None ->
  let s' := (AddShortcut s t "f" "file open").1 in
  (AddShortcut s t "f" "file open").2 = None
  /\ Lookup s' t "f a b" = (Some (NCommand open), ["a"; "b"], None)
  /\ Lookup s' t "file open a b" = (Some (NCommand open), ["a"; "b"], None).
Proof.
  intros Ht Hfile Hopen Hfresh s'.
  assert (HL : Lookup s t "file open" = (Some (NCommand open), [], None)).
  { rewrite Lookup_start by (vm_compute; discriminate).
    change (start s t "file open")
      with (mkCursor (pt (trees s !!! t)) "file" "open").
    rewrite (lookupFrom_subtree_more s _ _ _ file)
      by (first [by apply FindValue_exact | done]).
    change (nextField "open") with ("open", ""). cbn [fst snd].
    by rewrite (lookupFrom_command s _ _ _ open)
      by (by apply FindValue_exact). }
  destruct (AddShortcut_success s t "f" "file open" open [] eq_refl HL Ht)
    as [Hok Hpt].
  fold s' in Hpt. split; [done|].
  assert (Hf' : prefixtree.FindValue (pt (trees s' !!! t)) "f"
                = inl (NCommand open)).
  { rewrite Hpt. destruct (decide (t = t)); [|done].
    apply FindValue_exact; [done|]. by apply exact_Add_fresh. }
  assert (Hfile' : prefixtree.FindValue (pt (trees s' !!! t)) "file"
                   = inl (NTree file)).
  { rewrite Hpt. destruct (decide (t = t)); [|done].
    apply FindValue_exact; [done|]. by apply exact_Add_keep. }
  assert (Hopen' : prefixtree.FindValue (pt (trees s' !!! file)) "open"
                   = inl (NCommand open)).
  { rewrite Hpt. apply FindValue_exact; [done|].
    destruct (decide (file = t)); [by apply exact_Add_keep|done]. }
  split.
  - rewrite Lookup_start by (vm_compute; discriminate).
    change (start s' t "f a b")
      with (mkCursor (pt (trees s' !!! t)) "f" "a b").
    by rewrite (lookupFrom_command s' _ _ _ open).
  - rewrite Lookup_start by (vm_compute; discriminate).
    change (start s' t "file open a b")
      with (mkCursor (pt (trees s' !!! t)) "file" "open a b").
    rewrite (lookupFrom_subtree_more s' _ _ _ file) by done.
    change (nextField "open a b") with ("open", "a b"). cbn [fst snd].
    by rewrite (lookupFrom_command s' _ _ _ open).
Qed.

(** C4 (amended): [AddShortcut] resolves its target with [LookupCommand].
    For a one-field shortcut, a target that resolves to a subtree is
    refused with [ErrNotFound] and the heap is left as it was; a target
    that resolves to a command, at whatever depth, is accepted, and a
    shortcut that is a new key of the registering tree and reads back as
    one field then looks up, at that tree's level, to that same command. *)
Theorem AddShortcut_target s t (shortcut target : string)
    (n : Node) (args : list string) :
  length (Fields shortcut) = 1 ->
  Lookup s t target = (Some n, args, None) ->
  match n with
  | NTree _ => AddShortcut s t shortcut target = (s, Some ErrNotFound)
  | NCommand c =>
      t < length (trees s) ->
      (AddShortcut s t shortcut target).2 = None
      /\ (prefixtree.exact shortcut (pt (trees s !!! t)) = None ->
          nextField (stripLeadingWhitespace shortcut) = (shortcut, "") ->
          Lookup (AddShortcut s t shortcut target).1 t shortcut
          = (Some (NCommand c), [], None))
  end.
Proof.
  intros Hf HL. destruct n as [c|st].
  - intros Ht.
    destruct (AddShortcut_success s t shortcut target c args Hf HL Ht)
      as [Hok Hpt].
    split; [done|]. intros Hfresh Htok.
    pose proof (Fields_one_nonempty _ Hf) as Hne.
    rewrite Lookup_start by (by rewrite Htok).
    unfold start. rewrite Htok. cbn [fst snd].
    rewrite (lookupFrom_command _ _ _ _ c); [done|].
    rewrite Hpt. destruct (decide (t = t)); [|done].
    apply FindValue_exact; [done|]. by apply exact_Add_fresh.
  - unfold AddShortcut, LookupCommand. rewrite HL.
    destruct (decide (length (Fields shortcut) <> 1)); [done|]. done.
Qed.

End ShortcutClaims.

(** C4 (as stated, refuted): a target that resolves to a subtree would be
    accepted and the shortcut would then look up to that subtree.  In the
    test tree [file] resolves to the subtree, but [AddShortcut "x" "file"]
    fails. *)
Lemma AddShortcut_rejects_subtree :
  ~ (forall (s : Heap string) (t : TreeRef) (shortcut target : string)
            (st : TreeRef) (args : list string),
       Lookup s t target = (Some (NTree st), args, None) ->
       (AddShortcut s t shortcut target).2 = None
       /\ (Lookup (AddShortcut s t shortcut target).1 t shortcut).1.1
          = Some (NTree st)).
Proof.
  intros H.
  destruct (H fileTree 0 "x" "file" 1 [] eq_refl) as [Herr _].
  vm_compute in Herr. discriminate Herr.
Qed.

Lemma shortcut_same_command_witness :
  0 < length (trees fileTree)
  /\ prefixtree.exact "file" (pt (trees fileTree !!! 0)) = Some (NTree 1)
  /\ prefixtree.exact "open" (pt (trees fileTree !!! 1)) = Some (NCommand 2)
  /\ prefixtree.exact "f" (pt (trees fileTree !!! 0)) = None
  /\ (AddShortcut fileTree 0 "f" "file open").2 = None
  /\ Lookup (AddShortcut fileTree 0 "f" "file open").1 0 "f a b"
     = (Some (NCommand 2), ["a"; "b"], None)
  /\ Lookup (AddShortcut fileTree 0 "f" "file open").1 0 "file open a b"
     = (Some (NCommand 2), ["a"; "b"], None).
Proof.
  assert (H0 : 0 < length (trees fileTree)) by (vm_compute; lia).
  split; [exact H0|]. split; [reflexivity|]. split; [reflexivity|].
  split; [reflexivity|].
  exact (shortcut_same_command fileTree 0 1 2 H0 eq_refl eq_refl eq_refl).
Defined.

Lemma AddShortcut_target_witness :
  length (Fields "x") = 1
  /\ Lookup fileTree 0 "file" = (Some (NTree 1), [], None)
  /\ AddShortcut fileTree 0 "x" "file" = (fileTree, Some ErrNotFound)
  /\ Lookup fileTree 0 "file open" = (Some (NCommand 2), [], None)
  /\ (AddShortcut fileTree 0 "x" "file open").2 = None
  /\ Lookup (AddShortcut fileTree 0 "x" "file open").1 0 "x"
     = (Some (NCommand 2), [], None).
Proof.
  split; [reflexivity|]. split; [reflexivity|].
  split.
  { exact (AddShortcut_target fileTree 0 "x" "file" (NTree 1) []
             eq_refl eq_refl). }
  split; [reflexivity|].
  assert (H0 : 0 < length (trees fileTree)) by (vm_compute; lia).
  destruct (AddShortcut_target fileTree 0 "x" "file open" (NCommand 2) []
              eq_refl eq_refl H0) as [Hok Hlookup].
  split; [exact Hok|]. exact (Hlookup eq_refl eq_refl).
Defined.

(** ** Autocomplete *)

Section AutocompleteFacts.
Context {A : Type}.
Implicit Types (s : Heap A) (t : TreeRef) (cur : ACursor).

#[local] Instance keyLe_total {V} : Total (@prefixtree.keyLe V).
Proof. intros a b. unfold prefixtree.keyLe. apply (total String.le). Qed.

(** [findCandidates] returns its entries in key order. *)
Lemma FindKeyValues_sorted {V} (p : prefixtree.Tree V) (prefix : string) :
  Sorted prefixtree.keyLe (prefixtree.FindKeyValues p prefix).
Proof. unfold prefixtree.FindKeyValues. apply Sorted_merge_sort, _. Qed.

Lemma compare_app_l (p a b : string) :
  String.compare (p +:+ a) (p +:+ b) = String.compare a b.
Proof.
  induction p as [|c p IH]; [done|].
  change (String c p +:+ a) with (String c (p +:+ a)).
  change (String c p +:+ b) with (String c (p +:+ b)).
  simpl. unfold Ascii.compare. by rewrite N.compare_refl.
Qed.

(** Putting one path in front of two keys keeps their order. *)
Lemma le_app_l (p a b : string) : String.le a b -> String.le (p +:+ a) (p +:+ b).
Proof. unfold String.le, String.leb. by rewrite compare_app_l. Qed.

Lemma candidates_sorted cur : Sorted String.le (candidates cur).
Proof.
  unfold candidates.
  apply (Sorted_fmap _ prefixtree.keyLe); [|apply FindKeyValues_sorted].
  intros x y Hxy. by apply le_app_l.
Qed.

(** With several candidates the loop returns at once. *)
Lemma acLoop_ambiguous fuel s cur :
  1 < length (prefixtree.FindKeyValues (ac_pt cur) (ac_field cur)) ->
  acLoop (S fuel) s cur
  = Some (if decide (ac_remain cur = "") then candidates cur else []).
Proof.
  unfold acLoop, candidates. simpl.
  destruct (prefixtree.FindKeyValues (ac_pt cur) (ac_field cur))
    as [|m1 [|m2 l]]; simpl; try lia.
  intros _.
  destruct (decide (ac_remain cur <> "")), (decide (ac_remain cur = ""));
    done.
Qed.

Lemma acLoop_descend fuel s cur cur' :
  acDescend s cur cur' -> acLoop (S fuel) s cur = acLoop fuel s cur'.
Proof.
  intros [p prefix field remain key st Hfind Hgo].
  unfold acLoop. simpl. rewrite Hfind. simpl.
  by destruct (decide _).
Qed.

Lemma acLoop_nsteps n fuel s cur cur' :
  nsteps (acDescend s) n cur cur' ->
  acLoop (n + fuel) s cur = acLoop fuel s cur'.
Proof.
  induction 1 as [|n x y z Hxy _ IH]; [done|].
  simpl. by rewrite (acLoop_descend _ _ _ _ Hxy).
Qed.

Lemma Autocomplete_start fuel s t (line : string) :
  Autocomplete fuel s t line = acLoop fuel s (acStart s t line).
Proof.
  unfold Autocomplete, acLoop, acStart. simpl.
  by destruct (nextField (stripLeadingWhitespace line)).
Qed.

(** Whatever [Autocomplete] returns is in ascending order. *)
Lemma acLoop_sorted fuel : forall s cur r,
  acLoop fuel s cur = Some r -> Sorted String.le r.
Proof.
  induction fuel as [|fuel IH]; intros s cur r; [done|].
  pose proof (candidates_sorted cur) as Hs.
  unfold acLoop, candidates in *. simpl.
  destruct (prefixtree.FindKeyValues (ac_pt cur) (ac_field cur))
    as [|[k n] [|m2 l]]; simpl in *.
  - intros [= <-]. constructor.
  - destruct n as [c|st].
    + destruct (decide _); intros [= <-]; [constructor|done].
    + destruct (decide _); [by intros [= <-]|].
      apply (IH s (mkACursor _ _ _ _)).
  - destruct (decide _); intros [= <-]; [constructor|done].
Qed.

(** C5: when the loop of [Autocomplete], after any number of descents,
    finds more than one candidate key for the current field, it returns
    no suggestion if input remains after that field, and otherwise every
    candidate key behind the path accumulated so far; these suggestions
    are in ascending lexicographic order. *)
Theorem Autocomplete_ambiguous s t (line : string) (n fuel : nat) cur :
  nsteps (acDescend s) n (acStart s t line) cur ->
  1 < length (prefixtree.FindKeyValues (ac_pt cur) (ac_field cur)) ->
  Autocomplete (n + S fuel) s t line
  = Some (if decide (ac_remain cur = "") then candidates cur else [])
  /\ Sorted String.le (candidates cur).
Proof.
  intros Hsteps Hmany. split; [|apply candidates_sorted].
  rewrite Autocomplete_start, (acLoop_nsteps _ _ _ _ _ Hsteps).
  by apply acLoop_ambiguous.
Qed.

End AutocompleteFacts.

Lemma acDescend_child :
  acDescend acTree (acStart acTree 0 "chi s")
    (mkACursor (pt (trees acTree !!! 1)) "child " "s" "").
Proof.
  refine (acDescend_subtree acTree (pt (trees acTree !!! 0)) "" "chi" "s"
            "child" 1 _ _).
  - vm_compute. reflexivity.
  - intros [H _]. discriminate H.
Defined.

Lemma Autocomplete_ambiguous_witness :
  let cur := mkACursor (pt (trees acTree !!! 1)) "child " "s" "" in
  nsteps (acDescend acTree) 1 (acStart acTree 0 "chi s") cur
  /\ 1 < length (prefixtree.FindKeyValues (ac_pt cur) (ac_field cur))
  /\ Autocomplete 2 acTree 0 "chi s" = Some ["child sally"; "child steve"]
  /\ Sorted String.le ["child sally"; "child steve"].
Proof.
  intros cur.
  assert (H1 : nsteps (acDescend acTree) 1 (acStart acTree 0 "chi s") cur)
    by (apply nsteps_once, acDescend_child).
  assert (H2 : 1 < length (prefixtree.FindKeyValues (ac_pt cur) (ac_field cur)))
    by (vm_compute; lia).
  split; [exact H1|]. split; [exact H2|].
  exact (Autocomplete_ambiguous acTree 0 "chi s" 1 0 cur H1 H2).
Defined.

(** ** The loop of [Autocomplete] returns on every heap built by the API *)

Section AutocompleteTotal.
Context {A : Type}.
Implicit Types (s : Heap A) (t : TreeRef).

Lemma elem_of_Add {V} (p : prefixtree.Tree V) k v k' v' :
  (k', v') ∈ prefixtree.Add k v p <-> (k', v') ∈ p \/ (k', v') = (k, v).
Proof.
  unfold prefixtree.Add. rewrite elem_of_app, list_elem_of_singleton. done.
Qed.

Lemma elem_of_FindKeyValues {V} (p : prefixtree.Tree V) prefix kv :
  kv ∈ prefixtree.FindKeyValues p prefix -> kv ∈ p.
Proof.
  unfold prefixtree.FindKeyValues, prefixtree.matching.
  rewrite merge_sort_Permutation. rewrite !list_elem_of_In.
  intros H. by apply filter_In in H as [H _].
Qed.

Lemma lookup_total_snoc (l : list (Tree A)) (T : Tree A) t :
  (l ++ [T])%list !!! t
  = if decide (t = length l) then T else l !!! t.
Proof.
  destruct (decide (t = length l)) as [->|Hne].
  - rewrite lookup_total_app_r by lia. by rewrite Nat.sub_diag.
  - destruct (decide (t < length l)).
    + by rewrite lookup_total_app_l.
    + rewrite !list_lookup_total_alt.
      rewrite !lookup_ge_None_2; [done|lia|rewrite length_app; simpl; lia].
Qed.

Lemma pt_alter (f : Tree A -> Tree A) (l : list (Tree A)) t t' :
  t < length l ->
  pt (alter f t l !!! t') = if decide (t' = t) then pt (f (l !!! t)) else pt (l !!! t').
Proof.
  intros Ht. destruct (decide (t' = t)) as [->|Hne].
  - by rewrite list_lookup_total_alter_eq.
  - by rewrite list_lookup_total_alter_ne.
Qed.

Lemma NewTree_ordered s d : heapOrdered s -> heapOrdered (NewTree s d).1.
Proof.
  intros Hs t k st. simpl. rewrite lookup_total_snoc, length_app. simpl.
  destruct (decide (t = length (trees s))); simpl.
  - by intros ?%elem_of_nil.
  - intros H. destruct (Hs t k st H). lia.
Qed.

Lemma AddCommand_ordered s t d :
  t < length (trees s) -> heapOrdered s -> heapOrdered (AddCommand s t d).1.
Proof.
  intros Ht Hs t' k st. simpl. rewrite pt_alter, length_alter by done.
  destruct (decide (t' = t)) as [->|]; simpl; [|apply (Hs t' k st)].
  intros [H|H]%elem_of_Add; [exact (Hs t k st H)|done].
Qed.

Lemma AddSubtree_ordered s t d :
  t < length (trees s) -> heapOrdered s -> heapOrdered (AddSubtree s t d).1.
Proof.
  intros Ht Hs t' k st. simpl.
  rewrite pt_alter, length_alter by (rewrite length_app; simpl; lia).
  rewrite !lookup_total_snoc, length_app. simpl.
  destruct (decide (t' = t)) as [->|].
  - destruct (decide (t = length (trees s))); [lia|]. simpl.
    intros [H|H]%elem_of_Add.
    + destruct (Hs t k st H). lia.
    + injection H as _ ->. lia.
  - destruct (decide (t' = length (trees s))); simpl.
    + by intros ?%elem_of_nil.
    + intros H. destruct (Hs t' k st H). lia.
Qed.

Lemma AddShortcut_ordered s t shortcut target :
  t < length (trees s) -> heapOrdered s ->
  heapOrdered (AddShortcut s t shortcut target).1.
Proof.
  intros Ht Hs.
  destruct (AddShortcut_cases s t shortcut target)
    as [(err & ->)|(cmd & args & _ & _ & ->)]; [done|].
  intros t' k st. simpl. rewrite pt_alter, length_alter by done.
  destruct (decide (t' = t)) as [->|]; simpl; [|apply (Hs t' k st)].
  intros [H|H]%elem_of_Add; [exact (Hs t k st H)|done].
Qed.

Lemma built_ordered s : built s -> heapOrdered s.
Proof.
  induction 1.
  - intros t k st. destruct t; simpl; by intros ?%elem_of_nil.
  - by apply NewTree_ordered.
  - by apply AddCommand_ordered.
  - by apply AddSubtree_ordered.
  - by apply AddShortcut_ordered.
  - done.
Qed.

(** More fuel does not change a result. *)
Lemma autocompleteLoop_fuel fuel : forall s p prefix field remain r,
  autocompleteLoop fuel s p prefix field remain = Some r ->
  autocompleteLoop (S fuel) s p prefix field remain = Some r.
Proof.
  induction fuel as [|fuel IH]; intros s p prefix field remain r; [done|].
  intros H. cbn [autocompleteLoop] in *.
  destruct (prefixtree.FindKeyValues p field) as [|[k n] [|m2 l]]; try done.
  simpl in *. destruct n as [c|st]; [done|].
  destruct (decide _); [done|]. by apply IH.
Qed.

(** On an ordered heap the loop started in the index of tree [t] returns
    within as many turns as there are trees above [t]. *)
Lemma autocompleteLoop_total s : heapOrdered s ->
  forall fuel t prefix field remain,
    length (trees s) - t < fuel ->
    is_Some (autocompleteLoop fuel s (pt (trees s !!! t)) prefix field remain).
Proof.
  intros Hs. induction fuel as [|fuel IH]; intros t prefix field remain Hf;
    [lia|].
  cbn [autocompleteLoop].
  pose proof (elem_of_FindKeyValues (pt (trees s !!! t)) field) as Hin.
  destruct (prefixtree.FindKeyValues (pt (trees s !!! t)) field)
    as [|[k n] [|m2 l]]; [done| |by destruct (decide _)].
  simpl. destruct n as [c|st]; [by destruct (decide _)|].
  destruct (decide _); [done|].
  destruct (Hs t k st) as [Hlt Hlen]; [apply Hin; left|].
  apply IH. lia.
Qed.

(** [Autocomplete] returns on every heap built through the API. *)
Lemma Autocomplete_total s t (line : string) :
  built s -> is_Some (Autocomplete (S (length (trees s))) s t line).
Proof.
  intros Hb. unfold Autocomplete.
  destruct (nextField (stripLeadingWhitespace line)) as [field remain].
  apply autocompleteLoop_total; [by apply built_ordered|lia].
Qed.

End AutocompleteTotal.

(** * Further properties of the code *)

(** ** What the tokenizer keeps and what it drops *)

Section TokenizerSplit.

Lemma append_empty_r (s : string) : s +:+ "" = s.
Proof.
  induction s as [|c s IH]; [done|].
  change (String c (s +:+ "") = String c s). by rewrite IH.
Qed.

Lemma append_assoc (a b c : string) : (a +:+ b) +:+ c = a +:+ (b +:+ c).
Proof.
  induction a as [|x a IH]; [done|].
  change (String x ((a +:+ b) +:+ c) = String x (a +:+ (b +:+ c))).
  by rewrite IH.
Qed.

Lemma sliceTo_sliceFrom (i : nat) (s : string) :
  sliceTo i s +:+ sliceFrom i s = s.
Proof.
  revert s. induction i as [|i IH]; intros [|c s]; simpl; try done.
  change (String c (sliceTo i s) +:+ sliceFrom i s)
    with (String c (sliceTo i s +:+ sliceFrom i s)).
  by rewrite IH.
Qed.

Lemma sliceFrom_S (i : nat) (s : string) :
  sliceFrom (S i) s = sliceFrom 1 (sliceFrom i s).
Proof.
  revert s. induction i as [|i IH]; intros [|x s]; try done.
  change (sliceFrom (S (S i)) (String x s)) with (sliceFrom (S i) s).
  change (sliceFrom (S i) (String x s)) with (sliceFrom i s).
  apply IH.
Qed.

(** Where a scan stops: nothing before the index passes the test, the
    character at the index does. *)
Lemma indexFunc_Some p s i :
  indexFunc p s = Some i ->
  (forall x, In x (list_ascii_of_string (sliceTo i s)) -> p x = false)
  /\ exists c r, sliceFrom i s = String c r /\ p c = true.
Proof.
  revert i. induction s as [|c s IH]; intros i; simpl; [done|].
  destruct (p c) eqn:Hc.
  - intros [= <-]. simpl. split; [tauto|eauto].
  - destruct (indexFunc p s) as [j|] eqn:Hj; simpl; [|done].
    intros [= <-]. destruct (IH j eq_refl) as [Hpre Hat].
    split; [|done]. simpl. intros x [<-|Hx]; auto.
Qed.

Lemma indexFunc_None p s :
  indexFunc p s = None ->
  forall x, In x (list_ascii_of_string s) -> p x = false.
Proof.
  induction s as [|c s IH]; simpl; [tauto|].
  destruct (p c) eqn:Hc; [done|].
  destruct (indexFunc p s); simpl; [done|].
  intros _ x [<-|Hx]; auto.
Qed.

Lemma noBlank_intro w :
  (forall x, In x (list_ascii_of_string w) -> isBlank x = false) ->
  noBlank w = true.
Proof.
  induction w as [|c w IH]; simpl; [done|]. intros H.
  rewrite (H c) by auto. simpl. apply IH. auto.
Qed.

Lemma noQuote_intro w :
  (forall x, In x (list_ascii_of_string w) -> isQuote x = false) ->
  noQuote w = true.
Proof.
  induction w as [|c w IH]; simpl; [done|]. intros H.
  rewrite (H c) by auto. simpl. apply IH. auto.
Qed.

Lemma strip_split (s : string) :
  exists ws, allBlank ws = true /\ s = ws +:+ stripLeadingWhitespace s.
Proof.
  induction s as [|c s (ws & Hws & Hs)]; [by exists ""|].
  rewrite stripLeadingWhitespace_cons. destruct (isBlank c) eqn:Hc.
  - exists (String c ws). simpl. rewrite Hc, Hws. split; [done|].
    change (String c ws +:+ stripLeadingWhitespace s)
      with (String c (ws +:+ stripLeadingWhitespace s)).
    by rewrite <-Hs.
  - by exists "".
Qed.

Lemma strip_head (s : string) c r :
  stripLeadingWhitespace s = String c r -> isBlank c = false.
Proof.
  induction s as [|x s IH]; [done|].
  rewrite stripLeadingWhitespace_cons. destruct (isBlank x) eqn:Hx; [done|].
  by intros [= <- _].
Qed.

Lemma strip_idem (s : string) :
  stripLeadingWhitespace (stripLeadingWhitespace s) = stripLeadingWhitespace s.
Proof.
  destruct (stripLeadingWhitespace s) as [|c r] eqn:Hs; [done|].
  apply stripLeadingWhitespace_nonblank. by apply (strip_head s c r).
Qed.

(** X1: [stripLeadingWhitespace] removes a prefix of spaces and tabs and
    nothing else; what it returns does not begin with a space or tab, so
    stripping twice is stripping once. *)
Theorem stripLeadingWhitespace_split (s : string) :
  (exists ws, allBlank ws = true /\ s = ws +:+ stripLeadingWhitespace s)
  /\ (forall c r, stripLeadingWhitespace s = String c r -> isBlank c = false)
  /\ stripLeadingWhitespace (stripLeadingWhitespace s)
     = stripLeadingWhitespace s.
Proof.
  split; [apply strip_split|]. split; [apply strip_head|apply strip_idem].
Qed.

(** X2: the remainder [nextField] returns never begins with a space or
    tab: it is its own [stripLeadingWhitespace].  This is why the loops of
    [Lookup] and [Autocomplete] pass it back to [nextField] unstripped. *)
Theorem nextField_remain_stripped (s : string) :
  stripLeadingWhitespace (nextField s).2 = (nextField s).2.
Proof.
  unfold nextField. destruct s as [|c s]; [done|].
  destruct (isQuote c).
  - destruct (indexFunc isQuote s); cbn [snd]; [apply strip_idem|done].
  - destruct (indexFunc isBlank (String c s)); cbn [snd];
      [apply strip_idem|done].
Qed.

(** X3: [nextField] loses nothing but delimiters.  An unquoted input is the
    field, then spaces and tabs, then the remainder, and the field holds no
    space or tab.  After an opening double quote the input is the field
    alone (remainder empty), or the field, the closing quote, spaces and
    tabs, and the remainder; the field holds no double quote. *)
Theorem nextField_split (s : string) :
  match s with
  | "" => nextField s = ("", "")
  | String c s1 =>
      if isQuote c
      then noQuote (nextField s).1 = true
           /\ (s1 = (nextField s).1 /\ (nextField s).2 = ""
               \/ exists ws, allBlank ws = true
                    /\ s1 = (nextField s).1
                            +:+ String dquote (ws +:+ (nextField s).2))
      else noBlank (nextField s).1 = true
           /\ exists ws, allBlank ws = true
                /\ s = (nextField s).1 +:+ ws +:+ (nextField s).2
  end.
Proof.
  destruct s as [|c s1]; [done|]. unfold nextField.
  destruct (isQuote c) eqn:Hq.
  - destruct (indexFunc isQuote s1) as [i|] eqn:Hi; cbn [fst snd].
    + destruct (indexFunc_Some _ _ _ Hi) as (Hpre & q & r & Hat & Hqq).
      assert (Hf : slice 1 (i + 1) (String c s1) = sliceTo i s1).
      { unfold slice. replace (i + 1 - 1) with i by lia. done. }
      assert (Hr : sliceFrom (i + 2) (String c s1) = r).
      { replace (i + 2) with (S (S i)) by lia.
        change (sliceFrom (S (S i)) (String c s1)) with (sliceFrom (S i) s1).
        rewrite sliceFrom_S, Hat. done. }
      rewrite Hf, Hr. split; [by apply noQuote_intro|]. right.
      destruct (strip_split r) as (ws & Hws & Hrs). exists ws.
      split; [done|]. rewrite <-Hrs.
      apply bool_decide_eq_true in Hqq. subst q.
      rewrite <-Hat. by rewrite sliceTo_sliceFrom.
    + split; [apply noQuote_intro; by apply indexFunc_None|]. by left.
  - destruct (indexFunc isBlank (String c s1)) as [i|] eqn:Hi; cbn [fst snd].
    + destruct (indexFunc_Some _ _ _ Hi) as (Hpre & b & r & Hat & Hb).
      split; [by apply noBlank_intro|].
      destruct (strip_split (sliceFrom i (String c s1))) as (ws & Hws & Hrs).
      exists ws. split; [done|]. rewrite <-Hrs.
      by rewrite sliceTo_sliceFrom.
    + split; [apply noBlank_intro; by apply indexFunc_None|].
      exists "". split; [done|]. cbn. by rewrite append_empty_r.
Qed.

End TokenizerSplit.

(** ** What [Lookup] returns *)

Section LookupResults.
Context {A : Type}.
Implicit Types (s : Heap A) (t : TreeRef) (cur : Cursor).

(** How the loop of [Lookup] can end. *)
Lemma lookupLoop_ends s : forall (n : nat) remain p field,
  String.length remain = n ->
  match lookupLoop s p field remain with
  | inl err => err = ErrAmbiguous \/ err = ErrNotFound
  | inr (NCommand _, _) => True
  | inr (NTree _, r) => r = ""
  end.
Proof.
  induction n as [n IH] using lt_wf_ind. intros remain p field Hn.
  rewrite lookupLoop_eq.
  destruct (prefixtree.FindValue p field) as [[c|st]|[|]]; auto.
  destruct (decide (remain = "")) as [->|Hne]; [done|].
  apply (IH (String.length (nextField remain).2)); [|done].
  subst n. by apply nextField_remain_lt.
Qed.

(** The four ways [Lookup] can end. *)
Lemma Lookup_cases s t (line : string) :
  (exists c args, Lookup s t line = (Some (NCommand c), args, None))
  \/ (exists st, Lookup s t line = (Some (NTree st), [], None))
  \/ Lookup s t line = (None, [], Some ErrAmbiguous)
  \/ Lookup s t line = (None, [], Some ErrNotFound).
Proof.
  unfold Lookup.
  destruct (nextField (stripLeadingWhitespace line)) as [field remain].
  destruct (decide (field = "")); [auto|].
  pose proof (lookupLoop_ends s _ remain (pt (trees s !!! t)) field eq_refl)
    as H.
  destruct (lookupLoop s (pt (trees s !!! t)) field remain)
    as [err|[[c|st] r]].
  - destruct H as [-> | ->]; auto.
  - left. eauto.
  - subst r. right; left. exists st. by rewrite argsLoop_eq.
Qed.

(** X4: [Lookup] returns a Command with its arguments, or a Tree without
    any argument, or no node and no argument with [ErrAmbiguous] or
    [ErrNotFound]: never a Tree with arguments, never a node together with
    an error. *)
Theorem Lookup_result_shape s t (line : string) :
  (exists c args, Lookup s t line = (Some (NCommand c), args, None))
  \/ (exists st, Lookup s t line = (Some (NTree st), [], None))
  \/ Lookup s t line = (None, [], Some ErrAmbiguous)
  \/ Lookup s t line = (None, [], Some ErrNotFound).
Proof. apply Lookup_cases. Qed.

(** X5: an error of the prefix index, at whatever depth of the descent,
    ends the whole lookup: no node, no arguments, and [ErrAmbiguous] for an
    ambiguous prefix, [ErrNotFound] for an unknown one. *)
Theorem Lookup_error_propagates s t (line : string) cur
    (e : prefixtree.error) :
  (nextField (stripLeadingWhitespace line)).1 <> "" ->
  rtc (descend s) (start s t line) cur ->
  prefixtree.FindValue (cur_pt cur) (cur_field cur) = inr e ->
  Lookup s t line
  = (None, [], Some match e with
                    | prefixtree.ErrPrefixAmbiguous => ErrAmbiguous
                    | prefixtree.ErrPrefixNotFound => ErrNotFound
                    end).
Proof.
  intros Hne Hrtc Hfind.
  rewrite (Lookup_start _ _ _ Hne), (lookupFrom_rtc _ _ _ Hrtc).
  unfold lookupFrom. rewrite lookupLoop_eq, Hfind. by destruct e.
Qed.

(** X6: [LookupCommand] and [LookupSubtree] split the results of [Lookup]:
    on a Command the first returns it with the arguments and the second
    reports [ErrNotFound]; on a Tree it is the other way round; an error of
    [Lookup] is reported by both.  They never both succeed. *)
Theorem LookupCommand_LookupSubtree s t (line : string) :
  (exists c args,
      Lookup s t line = (Some (NCommand c), args, None)
      /\ LookupCommand s t line = (Some c, args, None)
      /\ LookupSubtree s t line = (None, [], Some ErrNotFound))
  \/ (exists st,
      Lookup s t line = (Some (NTree st), [], None)
      /\ LookupSubtree s t line = (Some st, [], None)
      /\ LookupCommand s t line = (None, [], Some ErrNotFound))
  \/ (exists err,
      Lookup s t line = (None, [], Some err)
      /\ LookupCommand s t line = (None, [], Some err)
      /\ LookupSubtree s t line = (None, [], Some err)).
Proof.
  unfold LookupCommand, LookupSubtree.
  destruct (Lookup_cases s t line)
    as [(c & args & ->)|[(st & ->)|[-> | ->]]].
  - left. eauto.
  - right; left. eauto.
  - right; right. eauto.
  - right; right. eauto.
Qed.

Lemma spaced_tokens (pairs : list (string * string)) (last : string) :
  Forall wordThenBlanks pairs ->
  last = "" \/ isWord last = true ->
  stripLeadingWhitespace (spaced pairs +:+ last) = spaced pairs +:+ last
  /\ tokens (spaced pairs +:+ last)
     = (pairs.*1 ++ if decide (last = "") then [] else [last])%list.
Proof.
  intros Hp Hlast. induction Hp as [|[w sep] pairs (Hw & Hsep & Hne) _ IH].
  - change (spaced [] +:+ last) with last. simpl.
    destruct Hlast as [->|Hl]; [by rewrite tokens_empty|].
    destruct (decide (last = "")) as [->|_]; [done|].
    split; [|by apply tokens_word].
    destruct (isWord_inv _ Hl) as (c & w' & -> & _ & Hb & _).
    by apply stripLeadingWhitespace_nonblank.
  - destruct IH as [IHs IHt]. simpl in Hw, Hsep, Hne.
    destruct sep as [|b sep]; [done|].
    simpl in Hsep. apply andb_prop in Hsep as [Hb Hsep].
    assert (Heq : spaced ((w, String b sep) :: pairs) +:+ last
                  = w +:+ String b (sep +:+ (spaced pairs +:+ last))).
    { cbn [spaced]. rewrite !append_assoc. done. }
    rewrite Heq. split.
    + destruct (isWord_inv _ Hw) as (c & w' & -> & _ & Hc & _).
      by apply stripLeadingWhitespace_nonblank.
    + rewrite tokens_word_blank by done.
      rewrite stripLeadingWhitespace_allBlank by done.
      rewrite IHs, IHt. done.
Qed.

(** X7: runs of spaces and tabs do not matter.  When the first word of a
    line resolves to a command, the following bare words are its
    arguments, in order, however many spaces and tabs precede the line,
    separate the words or follow the last one. *)
Theorem Lookup_args_spaced s t (lead key sep last : string)
    (pairs : list (string * string)) (c : CommandRef) :
  allBlank lead = true ->
  wordThenBlanks (key, sep) ->
  Forall wordThenBlanks pairs ->
  last = "" \/ isWord last = true ->
  prefixtree.FindValue (pt (trees s !!! t)) key = inl (NCommand c) ->
  Lookup s t (lead +:+ key +:+ sep +:+ spaced pairs +:+ last)
  = (Some (NCommand c),
     (pairs.*1 ++ if decide (last = "") then [] else [last])%list, None).
Proof.
  intros Hlead (Hkey & Hsep & Hne) Hpairs Hlast Hfind. simpl in *.
  destruct (spaced_tokens pairs last Hpairs Hlast) as [Hs Ht].
  destruct sep as [|b sep]; [done|].
  simpl in Hsep. apply andb_prop in Hsep as [Hb Hsep].
  assert (Hstrip :
    stripLeadingWhitespace
      (lead +:+ key +:+ String b sep +:+ spaced pairs +:+ last)
    = key +:+ String b (sep +:+ (spaced pairs +:+ last))).
  { rewrite stripLeadingWhitespace_allBlank by done.
    destruct (isWord_inv _ Hkey) as (x & w' & -> & _ & Hx & _).
    by apply stripLeadingWhitespace_nonblank. }
  assert (Hnf :
    nextField (stripLeadingWhitespace
                 (lead +:+ key +:+ String b sep +:+ spaced pairs +:+ last))
    = (key, spaced pairs +:+ last)).
  { rewrite Hstrip, nextField_word_blank by done.
    by rewrite stripLeadingWhitespace_allBlank, Hs. }
  rewrite Lookup_start.
  - unfold start. rewrite Hnf. cbn [fst snd].
    by rewrite (lookupFrom_command s _ _ _ c), Ht.
  - rewrite Hnf. by destruct key.
Qed.

End LookupResults.

Lemma Lookup_error_propagates_witness :
  let line := "file r" in
  let cur := mkCursor (pt (trees buildTree !!! 1)) "r" "" in
  (nextField (stripLeadingWhitespace line)).1 <> ""
  /\ rtc (descend buildTree) (start buildTree 0 line) cur
  /\ prefixtree.FindValue (cur_pt cur) (cur_field cur)
     = inr prefixtree.ErrPrefixAmbiguous
  /\ Lookup buildTree 0 line = (None, [], Some ErrAmbiguous).
Proof.
  intros line cur.
  assert (H1 : (nextField (stripLeadingWhitespace line)).1 <> "")
    by (vm_compute; discriminate).
  assert (H2 : rtc (descend buildTree) (start buildTree 0 line) cur).
  { apply rtc_once.
    exact (descend_subtree buildTree (pt (trees buildTree !!! 0))
             "file" "r" 1 eq_refl ltac:(discriminate)). }
  assert (H3 : prefixtree.FindValue (cur_pt cur) (cur_field cur)
               = inr prefixtree.ErrPrefixAmbiguous) by (vm_compute; reflexivity).
  split; [exact H1|]. split; [exact H2|]. split; [exact H3|].
  exact (Lookup_error_propagates buildTree 0 line cur
           prefixtree.ErrPrefixAmbiguous H1 H2 H3).
Defined.

Lemma Lookup_args_spaced_witness :
  let lead := String tab " " in
  let pairs := [("foo", "   ")] in
  allBlank lead = true
  /\ wordThenBlanks ("open", "  ")
  /\ Forall wordThenBlanks pairs
  /\ ("12" = "" \/ isWord "12" = true)
  /\ prefixtree.FindValue (pt (trees buildTree !!! 1)) "open"
     = inl (NCommand 2)
  /\ Lookup buildTree 1 (lead +:+ "open" +:+ "  " +:+ spaced pairs +:+ "12")
     = (Some (NCommand 2), ["foo"; "12"], None).
Proof.
  intros lead pairs.
  assert (H1 : allBlank lead = true) by reflexivity.
  assert (H2 : wordThenBlanks ("open", "  ")).
  { split; [reflexivity|]. split; [reflexivity|discriminate]. }
  assert (H3 : Forall wordThenBlanks pairs).
  { constructor; [|constructor].
    split; [reflexivity|]. split; [reflexivity|discriminate]. }
  assert (H4 : "12" = "" \/ isWord "12" = true) by (right; reflexivity).
  assert (H5 : prefixtree.FindValue (pt (trees buildTree !!! 1)) "open"
               = inl (NCommand 2)) by (vm_compute; reflexivity).
  split; [exact H1|]. split; [exact H2|]. split; [exact H3|].
  split; [exact H4|]. split; [exact H5|].
  exact (Lookup_args_spaced buildTree 1 lead "open" "  " "12" pairs 2
           H1 H2 H3 H4 H5).
Defined.

(** ** The shape of a built heap *)

Section HeapShapeFacts.
Context {A : Type}.
Implicit Types (s : Heap A) (t : TreeRef).

Lemma lookup_total_snoc_any {B} `{!Inhabited B} (l : list B) (x : B) i :
  (l ++ [x])%list !!! i = if decide (i = length l) then x else l !!! i.
Proof.
  destruct (decide (i = length l)) as [->|Hne].
  - rewrite lookup_total_app_r by lia. by rewrite Nat.sub_diag.
  - destruct (decide (i < length l)).
    + by rewrite lookup_total_app_l.
    + rewrite !list_lookup_total_alt.
      rewrite !lookup_ge_None_2; [done|lia|rewrite length_app; simpl; lia].
Qed.

Lemma lookup_total_alter_any {B} `{!Inhabited B} (f : B -> B) (l : list B) i j :
  i < length l ->
  alter f i l !!! j = if decide (j = i) then f (l !!! i) else l !!! j.
Proof.
  intros Hi. destruct (decide (j = i)) as [->|Hne].
  - by rewrite list_lookup_total_alter_eq.
  - by rewrite list_lookup_total_alter_ne.
Qed.

Lemma lookup_total_insert_any {B} `{!Inhabited B} (l : list B) (x : B) i j :
  i < length l ->
  <[i := x]> l !!! j = if decide (j = i) then x else l !!! j.
Proof.
  intros Hi. destruct (decide (j = i)) as [->|Hne].
  - by rewrite list_lookup_total_insert_eq.
  - by rewrite list_lookup_total_insert_ne.
Qed.

(** An index that holds an entry belongs to an allocated tree. *)
Lemma pt_elem_lt s t (k : string) (n : Node) :
  (k, n) ∈ pt (trees s !!! t) -> t < length (trees s).
Proof.
  intros H. destruct (decide (t < length (trees s))); [done|].
  rewrite list_lookup_total_alt, lookup_ge_None_2 in H by lia.
  by apply elem_of_nil in H.
Qed.

Lemma commands_elem_lt s t (c : CommandRef) :
  c ∈ commands (trees s !!! t) -> t < length (trees s).
Proof.
  intros H. destruct (decide (t < length (trees s))); [done|].
  rewrite list_lookup_total_alt, lookup_ge_None_2 in H by lia.
  by apply elem_of_nil in H.
Qed.

Lemma shortcuts_elem_lt s (c : CommandRef) (k : string) :
  k ∈ shortcuts (cmds s !!! c) -> c < length (cmds s).
Proof.
  intros H. destruct (decide (c < length (cmds s))); [done|].
  rewrite list_lookup_total_alt, lookup_ge_None_2 in H by lia.
  by apply elem_of_nil in H.
Qed.

Lemma exact_Some_elem {V} (p : prefixtree.Tree V) k v :
  prefixtree.exact k p = Some v -> (k, v) ∈ p.
Proof.
  induction p as [|[k' v'] p IH]; simpl; [done|].
  destruct (decide (k' = k)) as [->|].
  - intros [= ->]. by left.
  - intros H. right. auto.
Qed.

(** Whatever the index returns is one of its entries. *)
Lemma FindValue_inl_elem {V} (p : prefixtree.Tree V) q v :
  prefixtree.FindValue p q = inl v -> exists k, (k, v) ∈ p.
Proof.
  unfold prefixtree.FindValue. destruct (decide (q = "")); [done|].
  destruct (prefixtree.exact q p) as [v'|] eqn:He.
  - intros [= ->]. exists q. by apply exact_Some_elem.
  - destruct (prefixtree.matching q p) as [|[k v'] [|]] eqn:Hm; try done.
    intros [= ->]. exists k.
    assert (Hin : In (k, v) (prefixtree.matching q p)) by (rewrite Hm; by left).
    apply filter_In in Hin as [Hin _]. by apply list_elem_of_In.
Qed.

Lemma lookupLoop_node s : forall (n : nat) remain p field node r,
  String.length remain = n ->
  lookupLoop s p field remain = inr (node, r) ->
  (exists k, (k, node) ∈ p)
  \/ (exists t k, (k, node) ∈ pt (trees s !!! t)).
Proof.
  induction n as [n IH] using lt_wf_ind. intros remain p field node r Hn.
  rewrite lookupLoop_eq.
  destruct (prefixtree.FindValue p field) as [[c|st]|[|]] eqn:Hf; try done.
  - intros [= <- <-]. left. by apply (FindValue_inl_elem p field).
  - destruct (decide (remain = "")) as [->|Hne].
    + intros [= <- <-]. left. by apply (FindValue_inl_elem p field).
    + intros H. right.
      destruct (IH (String.length (nextField remain).2)
                  ltac:(subst n; by apply nextField_remain_lt)
                  _ _ _ _ _ eq_refl H) as [(k & Hk)|Hk]; eauto.
Qed.

(** The node [Lookup] returns is an entry of some tree's index. *)
Lemma Lookup_node_indexed s t (line : string) (n : Node) args :
  Lookup s t line = (Some n, args, None) ->
  exists t' k, (k, n) ∈ pt (trees s !!! t').
Proof.
  unfold Lookup.
  destruct (nextField (stripLeadingWhitespace line)) as [field remain].
  destruct (decide (field = "")); [done|].
  destruct (lookupLoop s (pt (trees s !!! t)) field remain)
    as [err|[node r]] eqn:Hl; [done|].
  intros [= <- _].
  destruct (lookupLoop_node s _ _ _ _ _ _ eq_refl Hl) as [(k & Hk)|Hk]; eauto.
Qed.

Lemma searchLoop_bounds f : forall d i j,
  j - i = d -> i <= j -> i <= searchLoop f i j /\ searchLoop f i j <= j.
Proof.
  induction d as [d IH] using lt_wf_ind. intros i j Hd Hij.
  rewrite searchLoop_eq. destruct (decide (i < j)) as [Hlt|]; [|lia].
  set (h := (i + j) / 2).
  assert (i <= h) by (subst h; apply Nat.div_le_lower_bound; lia).
  assert (h < j) by (subst h; apply Nat.Div0.div_lt_upper_bound; lia).
  destruct (f h); simpl.
  - destruct (IH (h - i) ltac:(lia) i h eq_refl ltac:(lia)). lia.
  - destruct (IH (j - (h + 1)) ltac:(lia) (h + 1) j eq_refl ltac:(lia)). lia.
Qed.

(** Whatever the slice holds, the insertion of [AddShortcut] adds the new
    shortcut and keeps the others. *)
Lemma insertShortcut_Permutation (a : list string) (x : string) :
  insertShortcut a x ≡ₚ x :: a.
Proof.
  unfold insertShortcut.
  assert (Hi : SearchStrings a x <= length a).
  { unfold SearchStrings, Search.
    apply (searchLoop_bounds _ (length a - 0) 0 (length a)); lia. }
  rewrite insert_shift by done.
  rewrite <-Permutation_middle. by rewrite take_drop.
Qed.

Lemma elem_of_insertShortcut (a : list string) (x k : string) :
  k ∈ insertShortcut a x <-> k = x \/ k ∈ a.
Proof. rewrite insertShortcut_Permutation. apply elem_of_cons. Qed.

End HeapShapeFacts.

Section HeapShapeSteps.
Context {A : Type}.
Implicit Types (s : Heap A) (t : TreeRef).

Lemma NewTree_trees s d t' :
  trees (NewTree s d).1 !!! t'
  = if decide (t' = length (trees s)) then mkTree d [] [] prefixtree.New
    else trees s !!! t'.
Proof. simpl. apply lookup_total_snoc_any. Qed.

Lemma AddCommand_trees s t d t' :
  t < length (trees s) ->
  trees (AddCommand s t d).1 !!! t'
  = if decide (t' = t)
    then mkTree (treeDescriptor (trees s !!! t))
           (commands (trees s !!! t) ++ [length (cmds s)])%list
           (subtrees (trees s !!! t))
           (prefixtree.Add (CommandDescriptor.Name d)
              (NCommand (length (cmds s))) (pt (trees s !!! t)))
    else trees s !!! t'.
Proof. intros Ht. simpl. by rewrite lookup_total_alter_any. Qed.

Lemma AddCommand_cmds s t d c :
  cmds (AddCommand s t d).1 !!! c
  = if decide (c = length (cmds s)) then mkCommand d [] else cmds s !!! c.
Proof. simpl. apply lookup_total_snoc_any. Qed.

Lemma AddSubtree_trees s t d t' :
  t < length (trees s) ->
  trees (AddSubtree s t d).1 !!! t'
  = if decide (t' = t)
    then mkTree (treeDescriptor (trees s !!! t)) (commands (trees s !!! t))
           (subtrees (trees s !!! t) ++ [length (trees s)])%list
           (prefixtree.Add (TreeDescriptor.Name d)
              (NTree (length (trees s))) (pt (trees s !!! t)))
    else if decide (t' = length (trees s)) then mkTree d [] [] prefixtree.New
    else trees s !!! t'.
Proof.
  intros Ht. simpl.
  rewrite lookup_total_alter_any by (rewrite length_app; simpl; lia).
  rewrite !lookup_total_snoc_any.
  destruct (decide (t = length (trees s))); [lia|].
  repeat case_decide; done.
Qed.

Lemma elem_of_Add_iff {V} (p : prefixtree.Tree V) k v kv :
  kv ∈ prefixtree.Add k v p <-> kv ∈ p \/ kv = (k, v).
Proof.
  unfold prefixtree.Add. by rewrite elem_of_app, list_elem_of_singleton.
Qed.

Lemma NewTree_shape s d : heapShape s -> heapShape (NewTree s d).1.
Proof.
  intros [Hr Hl Hk Hs].
  assert (Hold : forall t k n, (k, n) ∈ pt (trees s !!! t) ->
                   t <> length (trees s)).
  { intros t k n H%pt_elem_lt. lia. }
  split.
  - intros t k n. rewrite NewTree_trees.
    destruct (decide (t = length (trees s))); [by intros ?%elem_of_nil|].
    intros H. specialize (Hr t k n H). simpl.
    destruct n; rewrite ?length_app; simpl; lia.
  - intros t. rewrite NewTree_trees.
    destruct (decide (t = length (trees s)));
      [split; intros ? ?%elem_of_nil; done|].
    destruct (Hl t) as [Hc Hst]. split; [exact Hc|].
    intros st Hin. pose proof (Hst st Hin) as Hp.
    rewrite NewTree_trees.
    destruct (decide (st = length (trees s))); [|done].
    destruct (Hr t _ _ Hp). lia.
  - intros t k n. rewrite NewTree_trees.
    destruct (decide (t = length (trees s))); [by intros ?%elem_of_nil|].
    intros H. pose proof (Hk t k n H) as Hkn. destruct n as [c|st]; [done|].
    rewrite NewTree_trees.
    destruct (decide (st = length (trees s))); [|done].
    destruct (Hr t _ _ H). lia.
  - intros c k H. destruct (Hs c k H) as [t Ht]. exists t.
    rewrite NewTree_trees.
    destruct (decide (t = length (trees s))); [|done].
    by destruct (Hold t _ _ Ht).
Qed.

Lemma AddCommand_shape s t d :
  t < length (trees s) -> heapShape s -> heapShape (AddCommand s t d).1.
Proof.
  intros Ht [Hr Hl Hk Hs].
  assert (Hlen : length (cmds (AddCommand s t d).1) = S (length (cmds s))).
  { simpl. rewrite length_app. simpl. lia. }
  assert (Hlent : length (trees (AddCommand s t d).1) = length (trees s)).
  { simpl. by rewrite length_alter. }
  assert (Holdc : forall c, c < length (cmds s) ->
            cmds (AddCommand s t d).1 !!! c = cmds s !!! c).
  { intros c Hc. rewrite AddCommand_cmds.
    case_decide; [lia|done]. }
  assert (Hdesc : forall t', treeDescriptor (trees (AddCommand s t d).1 !!! t')
                             = treeDescriptor (trees s !!! t')).
  { intros t'. rewrite AddCommand_trees by done.
    by destruct (decide (t' = t)) as [->|]. }
  assert (Hpt : forall t' kv, kv ∈ pt (trees s !!! t') ->
                  kv ∈ pt (trees (AddCommand s t d).1 !!! t')).
  { intros t' kv H. rewrite AddCommand_trees by done.
    destruct (decide (t' = t)) as [->|]; [|done].
    apply elem_of_Add_iff. by left. }
  split.
  - intros t' k n. rewrite Hlen, Hlent. rewrite AddCommand_trees by done.
    destruct (decide (t' = t)) as [->|]; cbn [commands subtrees pt treeDescriptor].
    + intros [H | [= -> ->] ]%elem_of_Add_iff; [|lia].
      specialize (Hr t k n H). destruct n; lia.
    + intros H. specialize (Hr t' k n H). destruct n; lia.
  - intros t'. split.
    + intros c. rewrite Hlen. rewrite (AddCommand_trees s t d t') by done.
      destruct (decide (t' = t)) as [->|]; cbn [commands subtrees pt treeDescriptor].
      * intros [H | ->%list_elem_of_singleton]%elem_of_app.
        -- destruct (proj1 (Hl t) c H) as [Hc Hin].
           rewrite Holdc by done. split; [lia|].
           apply elem_of_Add_iff. by left.
        -- rewrite AddCommand_cmds.
           case_decide; [|done].
           split; [lia|]. apply elem_of_Add_iff. by right.
      * intros H. destruct (proj1 (Hl t') c H) as [Hc Hin].
        rewrite Holdc by done. split; [lia|done].
    + intros st Hin. rewrite Hdesc. apply Hpt.
      apply (proj2 (Hl t')).
      revert Hin. rewrite AddCommand_trees by done.
      by destruct (decide (t' = t)) as [->|].
  - intros t' k n. rewrite (AddCommand_trees s t d t') by done.
    destruct (decide (t' = t)) as [->|]; cbn [commands subtrees pt treeDescriptor].
    + intros [H | [= -> ->] ]%elem_of_Add_iff.
      * pose proof (Hk t k n H) as Hkn. pose proof (Hr t k n H) as Hrn.
        destruct n as [c|st].
        -- rewrite Holdc by done. destruct Hkn as [[Hc ->]|Hsc]; [left|by right].
           split; [|done]. apply elem_of_app. by left.
        -- by rewrite Hdesc.
      * left. split; [apply elem_of_app; right; by apply list_elem_of_singleton|].
        rewrite AddCommand_cmds.
        by case_decide.
    + intros H. pose proof (Hk t' k n H) as Hkn. pose proof (Hr t' k n H) as Hrn.
      destruct n as [c|st]; [by rewrite Holdc|by rewrite Hdesc].
  - intros c k. rewrite AddCommand_cmds.
    case_decide; [by intros ?%elem_of_nil|].
    intros Hsc. destruct (Hs c k Hsc) as [t' Ht']. exists t'. by apply Hpt.
Qed.

Lemma AddSubtree_shape s t d :
  t < length (trees s) -> heapShape s -> heapShape (AddSubtree s t d).1.
Proof.
  intros Ht [Hr Hl Hk Hs].
  assert (Hlent : length (trees (AddSubtree s t d).1) = S (length (trees s))).
  { simpl. rewrite length_alter, length_app. simpl. lia. }
  assert (Hdesc : forall t', t' < length (trees s) ->
            treeDescriptor (trees (AddSubtree s t d).1 !!! t')
            = treeDescriptor (trees s !!! t')).
  { intros t' Hlt. rewrite AddSubtree_trees by done.
    destruct (decide (t' = t)) as [->|]; [done|].
    destruct (decide (t' = length (trees s))); [lia|done]. }
  assert (Hpt : forall t' kv, kv ∈ pt (trees s !!! t') ->
                  kv ∈ pt (trees (AddSubtree s t d).1 !!! t')).
  { intros t' [k n] H. pose proof (pt_elem_lt _ _ _ _ H).
    rewrite AddSubtree_trees by done.
    destruct (decide (t' = t)) as [->|]; [apply elem_of_Add_iff; by left|].
    destruct (decide (t' = length (trees s))); [lia|done]. }
  split.
  - intros t' k n. rewrite Hlent. rewrite AddSubtree_trees by done.
    destruct (decide (t' = t)) as [->|]; cbn [commands subtrees pt treeDescriptor].
    + intros [H | [= -> ->] ]%elem_of_Add_iff; [|lia].
      specialize (Hr t k n H). destruct n; [done|lia].
    + destruct (decide (t' = length (trees s))); [by intros ?%elem_of_nil|].
      intros H. specialize (Hr t' k n H). destruct n; [done|lia].
  - intros t'. split.
    + intros c Hin.
      assert (Hc : c ∈ commands (trees s !!! t')).
      { revert Hin. rewrite AddSubtree_trees by done.
        destruct (decide (t' = t)) as [->|]; [done|].
        destruct (decide (t' = length (trees s))); [by intros ?%elem_of_nil|done]. }
      destruct (proj1 (Hl t') c Hc) as [Hlt Hin']. split; [done|].
      by apply (Hpt t' (_, _)).
    + intros st. rewrite (AddSubtree_trees s t d t') by done.
      destruct (decide (t' = t)) as [->|]; cbn [commands subtrees pt treeDescriptor].
      * intros [H | ->%list_elem_of_singleton]%elem_of_app.
        -- pose proof (proj2 (Hl t) st H) as Hp.
           destruct (Hr t _ _ Hp) as [_ Hst].
           rewrite Hdesc by done. apply elem_of_Add_iff. by left.
        -- rewrite AddSubtree_trees by done.
           case_decide; [lia|].
           case_decide; [|done].
           apply elem_of_Add_iff. by right.
      * destruct (decide (t' = length (trees s))); [by intros ?%elem_of_nil|].
        intros H. pose proof (proj2 (Hl t') st H) as Hp.
        destruct (Hr t' _ _ Hp) as [_ Hst]. by rewrite Hdesc.
  - intros t' k n. rewrite (AddSubtree_trees s t d t') by done.
    destruct (decide (t' = t)) as [->|]; cbn [commands subtrees pt treeDescriptor].
    + intros [H | [= -> ->] ]%elem_of_Add_iff.
      * pose proof (Hk t k n H) as Hkn. pose proof (Hr t k n H) as Hrn.
        destruct n as [c|st]; [done|].
        destruct Hkn as [Hin ->]. split; [apply elem_of_app; by left|].
        by rewrite Hdesc by lia.
      * split; [apply elem_of_app; right; by apply list_elem_of_singleton|].
        rewrite AddSubtree_trees by done.
        case_decide; [lia|].
        by case_decide.
    + destruct (decide (t' = length (trees s))); [by intros ?%elem_of_nil|].
      intros H. pose proof (Hk t' k n H) as Hkn. pose proof (Hr t' k n H) as Hrn.
      destruct n as [c|st]; [done|]. by rewrite Hdesc by lia.
  - intros c k H. destruct (Hs c k H) as [t' Ht']. exists t'.
    by apply (Hpt t' (_, _)).
Qed.

End HeapShapeSteps.

Section HeapShapeBuilt.
Context {A : Type}.
Implicit Types (s : Heap A) (t : TreeRef).

Lemma AddShortcut_shape s t (shortcut target : string) :
  t < length (trees s) -> heapShape s ->
  heapShape (AddShortcut s t shortcut target).1.
Proof.
  intros Ht Hshape.
  destruct (AddShortcut_cases s t shortcut target)
    as [(err & ->)|(cmd & args & _ & HL & ->)]; [done|].
  destruct Hshape as [Hr Hl Hk Hs]. cbn [fst].
  assert (Hcmd : cmd < length (cmds s)).
  { destruct (Lookup_node_indexed _ _ _ _ _ HL) as (t' & k & Hin).
    exact (Hr t' k _ Hin). }
  set (C' := mkCommand (descriptor (cmds s !!! cmd))
               (insertShortcut (shortcuts (cmds s !!! cmd)) shortcut)).
  set (g := fun T : Tree A =>
              mkTree (treeDescriptor T) (commands T) (subtrees T)
                (prefixtree.Add shortcut (NCommand cmd) (pt T))).
  set (s' := mkHeap (<[cmd := C']> (cmds s)) (alter g t (trees s))).
  assert (Hc : forall c : CommandRef,
            cmds s' !!! c = if decide (c = cmd) then C' else cmds s !!! c).
  { intros c. subst s'. cbn [cmds]. by rewrite lookup_total_insert_any. }
  assert (Hlen : length (cmds s') = length (cmds s)).
  { subst s'. cbn [cmds]. by rewrite length_insert. }
  assert (Hlent : length (trees s') = length (trees s)).
  { subst s'. cbn [trees]. by rewrite length_alter. }
  assert (Ht' : forall t' : TreeRef,
            trees s' !!! t' = if decide (t' = t) then g (trees s !!! t)
                              else trees s !!! t').
  { intros t'. subst s'. cbn [trees]. by rewrite lookup_total_alter_any. }
  assert (Hname : forall c : CommandRef,
            descriptor (cmds s' !!! c) = descriptor (cmds s !!! c)).
  { intros c. rewrite Hc. by destruct (decide (c = cmd)) as [->|]. }
  assert (Hsc : forall (c : CommandRef) k, k ∈ shortcuts (cmds s !!! c) ->
                  k ∈ shortcuts (cmds s' !!! c)).
  { intros c k Hin. rewrite Hc. destruct (decide (c = cmd)) as [->|]; [|done].
    subst C'. cbn [shortcuts]. apply elem_of_insertShortcut. by right. }
  assert (Hdesc : forall t' : TreeRef,
            treeDescriptor (trees s' !!! t') = treeDescriptor (trees s !!! t')).
  { intros t'. rewrite Ht'. by destruct (decide (t' = t)) as [->|]. }
  assert (Hcs : forall t' : TreeRef,
            commands (trees s' !!! t') = commands (trees s !!! t')
            /\ subtrees (trees s' !!! t') = subtrees (trees s !!! t')).
  { intros t'. rewrite Ht'. by destruct (decide (t' = t)) as [->|]. }
  assert (Hpt : forall (t' : TreeRef) kv, kv ∈ pt (trees s !!! t') ->
                  kv ∈ pt (trees s' !!! t')).
  { intros t' kv Hin. rewrite Ht'. destruct (decide (t' = t)) as [->|]; [|done].
    subst g. cbn [pt]. apply elem_of_Add_iff. by left. }
  assert (Hpt' : forall (t' : TreeRef) kv, kv ∈ pt (trees s' !!! t') ->
                   kv ∈ pt (trees s !!! t')
                   \/ (t' = t /\ kv = (shortcut, NCommand cmd))).
  { intros t' kv. rewrite Ht'. destruct (decide (t' = t)) as [->|]; [|auto].
    subst g. cbn [pt]. intros [?|?]%elem_of_Add_iff; auto. }
  split.
  - intros t' k n [Hin|[-> [= -> ->]]]%Hpt'.
    + specialize (Hr t' k n Hin). rewrite Hlen, Hlent. done.
    + by rewrite Hlen.
  - intros t'. destruct (Hcs t') as [-> ->]. split.
    + intros c Hin. destruct (proj1 (Hl t') c Hin) as [Hlt Hin'].
      rewrite Hlen, Hname. split; [done|]. by apply Hpt.
    + intros st Hin. rewrite Hdesc. apply Hpt. by apply (proj2 (Hl t')).
  - intros t' k n [Hin|[-> [= -> ->]]]%Hpt'.
    + pose proof (Hk t' k n Hin) as Hkn. destruct (Hcs t') as [-> ->].
      destruct n as [c|st]; [|by rewrite Hdesc].
      rewrite Hname. destruct Hkn as [?|?]; [by left|right; by apply Hsc].
    + right. rewrite Hc. destruct (decide (cmd = cmd)); [|done].
      subst C'. cbn [shortcuts]. apply elem_of_insertShortcut. by left.
  - intros c k. rewrite Hc. destruct (decide (c = cmd)) as [->|].
    + subst C'. cbn [shortcuts]. intros [->|Hin]%elem_of_insertShortcut.
      * exists t. rewrite Ht'. destruct (decide (t = t)); [|done].
        subst g. cbn [pt]. apply elem_of_Add_iff. by right.
      * destruct (Hs cmd k Hin) as [t0 Ht0]. exists t0. by apply Hpt.
    + intros Hin. destruct (Hs c k Hin) as [t0 Ht0]. exists t0. by apply Hpt.
Qed.

Lemma Shortcuts_shape s (c : CommandRef) :
  c < length (cmds s) -> heapShape s -> heapShape (Shortcuts s c).1.
Proof.
  intros Hlt [Hr Hl Hk Hs]. unfold Shortcuts. cbn [fst].
  set (C' := mkCommand (descriptor (cmds s !!! c))
               (merge_sort String.le (shortcuts (cmds s !!! c)))).
  set (s' := mkHeap (<[c := C']> (cmds s)) (trees s)).
  assert (Hc : forall c' : CommandRef,
            cmds s' !!! c' = if decide (c' = c) then C' else cmds s !!! c').
  { intros c'. subst s'. cbn [cmds]. by rewrite lookup_total_insert_any. }
  assert (Hlen : length (cmds s') = length (cmds s)).
  { subst s'. cbn [cmds]. by rewrite length_insert. }
  assert (Hname : forall c' : CommandRef,
            descriptor (cmds s' !!! c') = descriptor (cmds s !!! c')).
  { intros c'. rewrite Hc. by destruct (decide (c' = c)) as [->|]. }
  assert (Hsc : forall (c' : CommandRef) k,
            k ∈ shortcuts (cmds s' !!! c') <-> k ∈ shortcuts (cmds s !!! c')).
  { intros c' k. rewrite Hc. destruct (decide (c' = c)) as [->|]; [|done].
    subst C'. cbn [shortcuts]. by rewrite merge_sort_Permutation. }
  split.
  - intros t k n Hin. specialize (Hr t k n Hin). by rewrite Hlen.
  - intros t. split.
    + intros c' Hin. rewrite Hlen, Hname. by apply (proj1 (Hl t)).
    + apply (proj2 (Hl t)).
  - intros t k n Hin. pose proof (Hk t k n Hin) as Hkn.
    destruct n as [c'|st]; [|done].
    rewrite Hname, Hsc. done.
  - intros c' k Hin%Hsc. by apply Hs.
Qed.

Lemma emptyHeap_shape : heapShape (@emptyHeap A).
Proof.
  split.
  - intros [|t] k n; simpl; by intros ?%elem_of_nil.
  - intros [|t]; simpl; split; intros ? ?%elem_of_nil; done.
  - intros [|t] k n; simpl; by intros ?%elem_of_nil.
  - intros [|c] k; simpl; by intros ?%elem_of_nil.
Qed.

Lemma built_shape s : built s -> heapShape s.
Proof.
  induction 1.
  - apply emptyHeap_shape.
  - by apply NewTree_shape.
  - by apply AddCommand_shape.
  - by apply AddSubtree_shape.
  - by apply AddShortcut_shape.
  - by apply Shortcuts_shape.
Qed.

End HeapShapeBuilt.

Section HeapShapeResults.
Context {A : Type}.
Implicit Types (s : Heap A) (t : TreeRef).

(** X8: in a heap built through the API no reference dangles and the
    trees form no cycle: a command found in an index is allocated; a
    subtree found in an index is allocated and was created after the tree
    that owns the index. *)
Theorem built_refs_valid s t (k : string) (n : Node) :
  built s ->
  (k, n) ∈ pt (trees s !!! t) ->
  match n with
  | NCommand c => c < length (cmds s)
  | NTree st => t < st /\ st < length (trees s)
  end.
Proof. intros Hb. apply (shape_refs s (built_shape s Hb)). Qed.

(** X9: in a heap built through the API, whatever [Lookup] returns is
    allocated: the command or the tree it names exists in the heap. *)
Theorem Lookup_returns_allocated s t (line : string) (n : Node)
    (args : list string) :
  built s ->
  Lookup s t line = (Some n, args, None) ->
  match n with
  | NCommand c => is_Some (cmds s !! c)
  | NTree st => is_Some (trees s !! st)
  end.
Proof.
  intros Hb HL.
  destruct (Lookup_node_indexed _ _ _ _ _ HL) as (t' & k & Hin).
  pose proof (shape_refs s (built_shape s Hb) t' k n Hin) as Hn.
  destruct n; apply lookup_lt_is_Some; [done|lia].
Qed.

(** X10: in a heap built through the API every key of a tree's index is
    accounted for: a key bound to a subtree is that subtree's name and the
    subtree is listed in [Subtrees()]; a key bound to a command is the name
    of a command listed in [Commands()], or one of the shortcuts the
    command stores. *)
Theorem built_keys_accounted s t (k : string) (n : Node) :
  built s ->
  (k, n) ∈ pt (trees s !!! t) ->
  match n with
  | NTree st =>
      st ∈ subtrees (trees s !!! t)
      /\ k = TreeDescriptor.Name (treeDescriptor (trees s !!! st))
  | NCommand c =>
      (c ∈ commands (trees s !!! t)
       /\ k = CommandDescriptor.Name (descriptor (cmds s !!! c)))
      \/ k ∈ shortcuts (cmds s !!! c)
  end.
Proof. intros Hb. apply (shape_keys s (built_shape s Hb)). Qed.

End HeapShapeResults.

(** Membership in a concrete list, by evaluation. *)
Ltac solve_elem :=
  apply list_elem_of_In; vm_compute;
  repeat (first [left; reflexivity | right]).

Lemma elem_of_buildTree_file :
  ("file", NTree 1) ∈ pt (trees buildTree !!! 0).
Proof. solve_elem. Defined.

Lemma built_refs_valid_witness :
  built buildTree
  /\ ("file", NTree 1) ∈ pt (trees buildTree !!! 0)
  /\ (0 < 1 /\ 1 < length (trees buildTree)).
Proof.
  split; [exact built_buildTree|]. split; [exact elem_of_buildTree_file|].
  exact (built_refs_valid buildTree 0 "file" (NTree 1)
           built_buildTree elem_of_buildTree_file).
Defined.

Lemma Lookup_returns_allocated_witness :
  built buildTree
  /\ Lookup buildTree 0 "dd 1 2" = (Some (NCommand 2), ["1"; "2"], None)
  /\ is_Some (cmds buildTree !! 2).
Proof.
  split; [exact built_buildTree|]. split; [reflexivity|].
  exact (Lookup_returns_allocated buildTree 0 "dd 1 2" (NCommand 2)
           ["1"; "2"] built_buildTree eq_refl).
Defined.

Lemma elem_of_buildTree_dd :
  ("dd", NCommand 2) ∈ pt (trees buildTree !!! 0).
Proof. solve_elem. Defined.

Lemma built_keys_accounted_witness :
  built buildTree
  /\ ("dd", NCommand 2) ∈ pt (trees buildTree !!! 0)
  /\ ((2 ∈ commands (trees buildTree !!! 0)
       /\ "dd" = CommandDescriptor.Name (descriptor (cmds buildTree !!! 2)))
      \/ "dd" ∈ shortcuts (cmds buildTree !!! 2)).
Proof.
  split; [exact built_buildTree|]. split; [exact elem_of_buildTree_dd|].
  exact (built_keys_accounted buildTree 0 "dd" (NCommand 2)
           built_buildTree elem_of_buildTree_dd).
Defined.

(** ** What a registration call changes and what it keeps *)

Section RegistrationEffects.
Context {A : Type}.
Implicit Types (s : Heap A) (t : TreeRef).

(** X13: nothing is ever removed or renamed.  After any call of the
    registration API every command and tree allocated before is still
    there with the descriptor it was created with; a command has all the
    shortcuts it had; a tree's [Commands()] and [Subtrees()] begin with
    what they held before. *)
Theorem apiCall_keeps s s' :
  apiCall s s' ->
  (forall c : CommandRef, c < length (cmds s) ->
     c < length (cmds s')
     /\ descriptor (cmds s' !!! c) = descriptor (cmds s !!! c)
     /\ shortcuts (cmds s !!! c) ⊆+ shortcuts (cmds s' !!! c))
  /\ (forall t, t < length (trees s) ->
        t < length (trees s')
        /\ treeDescriptor (trees s' !!! t) = treeDescriptor (trees s !!! t)
        /\ commands (trees s !!! t) `prefix_of` commands (trees s' !!! t)
        /\ subtrees (trees s !!! t) `prefix_of` subtrees (trees s' !!! t)).
Proof.
  intros [d|t0 d Ht0|t0 d Ht0|t0 shortcut target Ht0|c0 Hc0].
  - split; [done|]. intros t Ht. rewrite NewTree_trees.
    case_decide; [lia|]. simpl. rewrite length_app. simpl.
    split; [lia|done].
  - split.
    + intros c Hc. rewrite AddCommand_cmds. case_decide; [lia|].
      simpl. rewrite length_app. simpl. split; [lia|done].
    + intros t Ht. rewrite AddCommand_trees by done.
      split; [simpl; by rewrite length_alter|].
      destruct (decide (t = t0)) as [->|]; [|done].
      cbn [treeDescriptor commands subtrees pt]. unfold prefixtree.Add.
      repeat split; try done; by apply prefix_app_r.
  - split; [done|].
    intros t Ht. rewrite AddSubtree_trees by done.
    split; [simpl; rewrite length_alter, length_app; simpl; lia|].
    destruct (decide (t = t0)) as [->|].
    + cbn [treeDescriptor commands subtrees pt]. unfold prefixtree.Add.
      repeat split; try done; by apply prefix_app_r.
    + case_decide; [lia|done].
  - destruct (AddShortcut_cases s t0 shortcut target)
      as [(err & ->)|(cmd & args & _ & _ & ->)]; [done|]. cbn [fst cmds trees].
    split.
    + intros c Hc. rewrite length_insert. split; [done|].
      destruct (decide (cmd < length (cmds s))) as [Hlt|Hge].
      * rewrite lookup_total_insert_any by done.
        case_decide as Hcc; [subst c|done].
        cbn [descriptor shortcuts]. split; [done|].
        rewrite insertShortcut_Permutation. by apply submseteq_cons.
      * rewrite list_insert_ge by lia. done.
    + intros t Ht. rewrite length_alter. split; [done|].
      rewrite lookup_total_alter_any by done.
      case_decide as Htt; [subst t|done].
      cbn [treeDescriptor commands subtrees pt]. unfold prefixtree.Add.
      repeat split; try done; by apply prefix_app_r.
  - unfold Shortcuts. cbn [fst cmds trees]. split; [|done].
    intros c Hc. rewrite length_insert. split; [done|].
    rewrite lookup_total_insert_any by done.
    case_decide as Hcc; [subst c|done].
    cbn [descriptor shortcuts]. split; [done|].
    by rewrite merge_sort_Permutation.
Qed.


(** X15: a failing [AddShortcut] changes nothing, and its error tells why:
    the shortcut is not one field, or [LookupCommand] refused the target
    with that very error (the target is ambiguous, unknown, empty or a
    tree). *)
Theorem AddShortcut_fails_clean s t (shortcut target : string) (err : error) :
  (AddShortcut s t shortcut target).2 = Some err ->
  (AddShortcut s t shortcut target).1 = s
  /\ (err = ErrInvalidShortcut /\ length (Fields shortcut) <> 1
      \/ length (Fields shortcut) = 1
         /\ LookupCommand s t target = (None, [], Some err)).
Proof.
  unfold AddShortcut.
  destruct (decide (length (Fields shortcut) <> 1)) as [Hf|Hf].
  - intros [= <-]. split; [done|]. by left.
  - assert (length (Fields shortcut) = 1) by lia.
    destruct (LookupCommand_cases s t target)
      as [(cmd & args & -> & _)|(e & ->)]; [done|].
    intros [= <-]. split; [done|]. by right.
Qed.

End RegistrationEffects.

Lemma apiCall_keeps_witness :
  let s' := (AddShortcut fileTree 0 "zz" "file open").1 in
  apiCall fileTree s'
  /\ (forall c : CommandRef, c < length (cmds fileTree) ->
        c < length (cmds s')
        /\ descriptor (cmds s' !!! c) = descriptor (cmds fileTree !!! c)
        /\ shortcuts (cmds fileTree !!! c) ⊆+ shortcuts (cmds s' !!! c))
  /\ (forall t, t < length (trees fileTree) ->
        t < length (trees s')
        /\ treeDescriptor (trees s' !!! t) = treeDescriptor (trees fileTree !!! t)
        /\ commands (trees fileTree !!! t) `prefix_of` commands (trees s' !!! t)
        /\ subtrees (trees fileTree !!! t) `prefix_of` subtrees (trees s' !!! t)).
Proof.
  intros s'.
  assert (H : apiCall fileTree s').
  { apply (call_AddShortcut fileTree 0 "zz" "file open"). vm_compute; lia. }
  split; [exact H|]. exact (apiCall_keeps fileTree s' H).
Defined.



Lemma AddShortcut_fails_clean_witness :
  (AddShortcut fileTree 0 "r" "file r").2 = Some ErrAmbiguous
  /\ (AddShortcut fileTree 0 "r" "file r").1 = fileTree
  /\ (ErrAmbiguous = ErrInvalidShortcut /\ length (Fields "r") <> 1
      \/ length (Fields "r") = 1
         /\ LookupCommand fileTree 0 "file r" = (None, [], Some ErrAmbiguous)).
Proof.
  split; [reflexivity|].
  exact (AddShortcut_fails_clean fileTree 0 "r" "file r" ErrAmbiguous eq_refl).
Defined.

(** ** Registering, then looking up *)

Section RegisterThenLookup.
Context {A : Type}.
Implicit Types (s : Heap A) (t : TreeRef).

Lemma strip_word (w : string) :
  isWord w = true -> stripLeadingWhitespace w = w.
Proof.
  intros (c & w' & -> & _ & Hb & _)%isWord_inv.
  by apply stripLeadingWhitespace_nonblank.
Qed.

Lemma isWord_nonempty (w : string) : isWord w = true -> w <> "".
Proof. by destruct w. Qed.

(** A line made of one bare word is that field and nothing else. *)
Lemma Lookup_word s t (w : string) :
  isWord w = true ->
  Lookup s t w = lookupFrom s (mkCursor (pt (trees s !!! t)) w "").
Proof.
  intros Hw.
  assert (Hnf : nextField (stripLeadingWhitespace w) = (w, "")).
  { rewrite strip_word by done. by apply nextField_word. }
  rewrite Lookup_start by (rewrite Hnf; by apply isWord_nonempty).
  unfold start. by rewrite Hnf.
Qed.

(** A line made of two bare words and one space between them. *)
Lemma Lookup_two_words s t (w1 w2 : string) :
  isWord w1 = true -> isWord w2 = true ->
  Lookup s t (w1 +:+ " " +:+ w2)
  = lookupFrom s (mkCursor (pt (trees s !!! t)) w1 w2).
Proof.
  intros Hw1 Hw2.
  assert (Hnf : nextField (stripLeadingWhitespace (w1 +:+ " " +:+ w2))
                = (w1, w2)).
  { assert (Hs : stripLeadingWhitespace (w1 +:+ " " +:+ w2)
                 = w1 +:+ String space w2).
    { destruct (isWord_inv _ Hw1) as (c & w' & -> & _ & Hb & _).
      change (String c w' +:+ " " +:+ w2)
        with (String c (w' +:+ String space w2)).
      by apply stripLeadingWhitespace_nonblank. }
    rewrite Hs, nextField_word_blank by done. by rewrite strip_word. }
  rewrite Lookup_start by (rewrite Hnf; by apply isWord_nonempty).
  unfold start. by rewrite Hnf.
Qed.

Lemma FindValue_New {V} (q : string) :
  prefixtree.FindValue (@prefixtree.New V) q = inr prefixtree.ErrPrefixNotFound.
Proof. unfold prefixtree.FindValue. by destruct (decide (q = "")). Qed.

(** X16: a command registered under a new name is found by that name:
    after [AddCommand] on an allocated tree, with a name that is a bare
    word and not yet a key of the tree, [Lookup] and [LookupCommand] of the
    name return the command just created, with no arguments, and the
    command carries the descriptor given and no shortcut. *)
Theorem AddCommand_then_Lookup s t (d : CommandDescriptor.t A) :
  t < length (trees s) ->
  isWord (CommandDescriptor.Name d) = true ->
  prefixtree.exact (CommandDescriptor.Name d) (pt (trees s !!! t)) = None ->
  cmds (AddCommand s t d).1 !! (AddCommand s t d).2 = Some (mkCommand d [])
  /\ Lookup (AddCommand s t d).1 t (CommandDescriptor.Name d)
     = (Some (NCommand (AddCommand s t d).2), [], None)
  /\ LookupCommand (AddCommand s t d).1 t (CommandDescriptor.Name d)
     = (Some (AddCommand s t d).2, [], None).
Proof.
  intros Ht Hw Hfresh.
  assert (HL : Lookup (AddCommand s t d).1 t (CommandDescriptor.Name d)
               = (Some (NCommand (AddCommand s t d).2), [], None)).
  { rewrite Lookup_word by done.
    rewrite (lookupFrom_command _ _ _ _ (length (cmds s))).
    - by rewrite tokens_empty.
    - rewrite AddCommand_trees by done.
      case_decide; [|done]. cbn [pt].
      apply FindValue_exact; [by apply isWord_nonempty|].
      by apply exact_Add_fresh. }
  split; [|split; [done|]].
  - cbn [fst snd AddCommand cmds].
    rewrite lookup_app_r by done. by rewrite Nat.sub_diag.
  - unfold LookupCommand. by rewrite HL.
Qed.

(** X17: a subtree registered under a new name is found by that name and
    starts empty: after [AddSubtree], [Lookup] of the name returns the new
    tree with no arguments, and [Lookup] of the name followed by any word
    fails with [ErrNotFound]. *)
Theorem AddSubtree_then_Lookup s t (d : TreeDescriptor.t A) (w : string) :
  t < length (trees s) ->
  isWord (TreeDescriptor.Name d) = true ->
  prefixtree.exact (TreeDescriptor.Name d) (pt (trees s !!! t)) = None ->
  isWord w = true ->
  trees (AddSubtree s t d).1 !! (AddSubtree s t d).2
  = Some (mkTree d [] [] prefixtree.New)
  /\ Lookup (AddSubtree s t d).1 t (TreeDescriptor.Name d)
     = (Some (NTree (AddSubtree s t d).2), [], None)
  /\ Lookup (AddSubtree s t d).1 t (TreeDescriptor.Name d +:+ " " +:+ w)
     = (None, [], Some ErrNotFound).
Proof.
  intros Ht Hname Hfresh Hw.
  assert (Hfind : prefixtree.FindValue (pt (trees (AddSubtree s t d).1 !!! t))
                    (TreeDescriptor.Name d) = inl (NTree (length (trees s)))).
  { rewrite AddSubtree_trees by done.
    case_decide; [|done]. cbn [pt].
    apply FindValue_exact; [by apply isWord_nonempty|].
    by apply exact_Add_fresh. }
  assert (Hnew : trees (AddSubtree s t d).1 !!! length (trees s)
                 = mkTree d [] [] prefixtree.New).
  { rewrite AddSubtree_trees by done.
    case_decide; [lia|]. by case_decide. }
  split; [|split].
  - change (AddSubtree s t d).2 with (length (trees s)).
    rewrite <- Hnew. apply list_lookup_lookup_total_lt.
    cbn [fst snd AddSubtree trees]. rewrite length_alter, length_app.
    simpl. lia.
  - rewrite Lookup_word by done.
    by rewrite (lookupFrom_subtree_end _ _ _ (length (trees s))).
  - rewrite Lookup_two_words by done.
    rewrite (lookupFrom_subtree_more _ _ _ _ (length (trees s)))
      by (first [done | by apply isWord_nonempty]).
    rewrite nextField_word by done.
    change (pt (trees (AddSubtree s t d).1 !!! length (trees s)))
      with (pt (trees (AddSubtree s t d).1 !!! length (trees s))).
    rewrite Hnew.
    unfold lookupFrom. cbn [fst snd pt cur_pt cur_field cur_remain].
    by rewrite lookupLoop_eq, FindValue_New.
Qed.

(** X18: a subtree is shared, not copied: a command added to a subtree
    after the subtree was registered is reachable through the parent.  If
    [k] is a key of tree [t] bound to the subtree [st], then after
    [AddCommand] on [st] with a new name, [Lookup] of [k] followed by that
    name, from [t], returns the new command. *)
Theorem AddCommand_reachable_from_parent s t (st : TreeRef) (k : string)
    (d : CommandDescriptor.t A) :
  st < length (trees s) ->
  isWord k = true ->
  prefixtree.exact k (pt (trees s !!! t)) = Some (NTree st) ->
  isWord (CommandDescriptor.Name d) = true ->
  prefixtree.exact (CommandDescriptor.Name d) (pt (trees s !!! st)) = None ->
  Lookup (AddCommand s st d).1 t (k +:+ " " +:+ CommandDescriptor.Name d)
  = (Some (NCommand (AddCommand s st d).2), [], None).
Proof.
  intros Hst Hk Hbound Hname Hfresh.
  rewrite Lookup_two_words by done.
  rewrite (lookupFrom_subtree_more _ _ _ _ st).
  - rewrite nextField_word by done. cbn [fst snd].
    rewrite (lookupFrom_command _ _ _ _ (length (cmds s))).
    + by rewrite tokens_empty.
    + rewrite AddCommand_trees by done.
      case_decide; [|done]. cbn [pt].
      apply FindValue_exact; [by apply isWord_nonempty|].
      by apply exact_Add_fresh.
  - apply FindValue_exact; [by apply isWord_nonempty|].
    rewrite AddCommand_trees by done.
    destruct (decide (t = st)) as [->|]; [|done]. cbn [pt].
    by apply exact_Add_keep.
  - by apply isWord_nonempty.
Qed.

End RegisterThenLookup.

Lemma AddCommand_then_Lookup_witness :
  let d := command "status" in
  0 < length (trees buildTree)
  /\ isWord (CommandDescriptor.Name d) = true
  /\ prefixtree.exact (CommandDescriptor.Name d) (pt (trees buildTree !!! 0))
     = None
  /\ cmds (AddCommand buildTree 0 d).1 !! (AddCommand buildTree 0 d).2
     = Some (mkCommand d [])
  /\ Lookup (AddCommand buildTree 0 d).1 0 (CommandDescriptor.Name d)
     = (Some (NCommand (AddCommand buildTree 0 d).2), [], None)
  /\ LookupCommand (AddCommand buildTree 0 d).1 0 (CommandDescriptor.Name d)
     = (Some (AddCommand buildTree 0 d).2, [], None).
Proof.
  intros d.
  assert (H0 : 0 < length (trees buildTree)) by (vm_compute; lia).
  split; [exact H0|]. split; [reflexivity|]. split; [reflexivity|].
  exact (AddCommand_then_Lookup buildTree 0 d H0 eq_refl eq_refl).
Defined.

Lemma AddSubtree_then_Lookup_witness :
  let d := tree "edit" in
  0 < length (trees buildTree)
  /\ isWord (TreeDescriptor.Name d) = true
  /\ prefixtree.exact (TreeDescriptor.Name d) (pt (trees buildTree !!! 0))
     = None
  /\ isWord "undo" = true
  /\ trees (AddSubtree buildTree 0 d).1 !! (AddSubtree buildTree 0 d).2
     = Some (mkTree d [] [] prefixtree.New)
  /\ Lookup (AddSubtree buildTree 0 d).1 0 (TreeDescriptor.Name d)
     = (Some (NTree (AddSubtree buildTree 0 d).2), [], None)
  /\ Lookup (AddSubtree buildTree 0 d).1 0
       (TreeDescriptor.Name d +:+ " " +:+ "undo")
     = (None, [], Some ErrNotFound).
Proof.
  intros d.
  assert (H0 : 0 < length (trees buildTree)) by (vm_compute; lia).
  split; [exact H0|]. split; [reflexivity|]. split; [reflexivity|].
  split; [reflexivity|].
  exact (AddSubtree_then_Lookup buildTree 0 d "undo" H0 eq_refl eq_refl eq_refl).
Defined.

Lemma AddCommand_reachable_from_parent_witness :
  let d := command "append" in
  1 < length (trees buildTree)
  /\ isWord "file" = true
  /\ prefixtree.exact "file" (pt (trees buildTree !!! 0)) = Some (NTree 1)
  /\ isWord (CommandDescriptor.Name d) = true
  /\ prefixtree.exact (CommandDescriptor.Name d) (pt (trees buildTree !!! 1))
     = None
  /\ Lookup (AddCommand buildTree 1 d).1 0
       ("file" +:+ " " +:+ CommandDescriptor.Name d)
     = (Some (NCommand (AddCommand buildTree 1 d).2), [], None).
Proof.
  intros d.
  assert (H1 : 1 < length (trees buildTree)) by (vm_compute; lia).
  split; [exact H1|]. split; [reflexivity|]. split; [reflexivity|].
  split; [reflexivity|]. split; [reflexivity|].
  exact (AddCommand_reachable_from_parent buildTree 0 1 "file" d
           H1 eq_refl eq_refl eq_refl eq_refl).
Defined.

(** ** What Autocomplete suggests *)

Section AutocompleteSuggestions.
Context {A : Type}.
Implicit Types (s : Heap A) (t : TreeRef).

Lemma keysWords_elem s t (k : string) (n : Node) :
  keysWords s = true -> (k, n) ∈ pt (trees s !!! t) -> isWord k = true.
Proof.
  unfold keysWords. rewrite forallb_forall. intros Hall Hin.
  destruct (decide (t < length (trees s))) as [Hlt|Hge].
  - apply list_lookup_lookup_total_lt in Hlt.
    apply list_elem_of_lookup_2, list_elem_of_In, Hall in Hlt.
    rewrite forallb_forall in Hlt.
    by apply list_elem_of_In, Hlt in Hin.
  - rewrite list_lookup_total_alt, lookup_ge_None_2 in Hin by lia.
    by apply elem_of_nil in Hin.
Qed.

Lemma wordLine_stripped (line : string) :
  wordLine line -> stripLeadingWhitespace line = line.
Proof.
  intros [w Hw|w rest Hw _]; [by apply strip_word|].
  destruct (isWord_inv _ Hw) as (c & w' & -> & _ & Hb & _).
  change (String c w' +:+ " " +:+ rest) with (String c (w' +:+ " " +:+ rest)).
  by apply stripLeadingWhitespace_nonblank.
Qed.

Lemma wordLine_nonempty (line : string) : wordLine line -> line <> "".
Proof.
  intros [w Hw|w rest Hw _]; [by apply isWord_nonempty|].
  destruct (isWord_inv _ Hw) as (c & w' & -> & _). done.
Qed.

Lemma wordLine_first (line : string) :
  wordLine line -> (nextField line).1 <> "".
Proof.
  intros [w Hw|w rest Hw Hrest].
  - rewrite nextField_word by done. by apply isWord_nonempty.
  - change (" " +:+ rest) with (String space rest).
    rewrite nextField_word_blank by done. by apply isWord_nonempty.
Qed.

Lemma nextField_wordLine_more (w line : string) :
  isWord w = true -> wordLine line ->
  nextField (w +:+ " " +:+ line) = (w, line).
Proof.
  intros Hw Hline. change (" " +:+ line) with (String space line).
  rewrite nextField_word_blank by done. by rewrite wordLine_stripped.
Qed.

Lemma reachedBy_start s t : reachedBy s t (pt (trees s !!! t)) "".
Proof.
  intros line Hline. change ("" +:+ line) with line.
  rewrite Lookup_start
    by (rewrite wordLine_stripped by done; by apply wordLine_first).
  unfold start. by rewrite wordLine_stripped.
Qed.

Lemma reachedBy_step s t p prefix (key : string) (st : TreeRef) :
  reachedBy s t p prefix -> isWord key = true ->
  prefixtree.FindValue p key = inl (NTree st) ->
  reachedBy s t (pt (trees s !!! st)) (prefix +:+ key +:+ " ").
Proof.
  intros Hr Hkey Hfind line Hline.
  rewrite !append_assoc.
  rewrite (Hr (key +:+ " " +:+ line)) by (by constructor).
  rewrite nextField_wordLine_more by done. cbn [fst snd].
  apply lookupFrom_subtree_more; [done|by apply wordLine_nonempty].
Qed.

Lemma exact_elem {V} (p : prefixtree.Tree V) k v :
  (k, v) ∈ p -> is_Some (prefixtree.exact k p).
Proof.
  induction p as [|[k0 v0] p IH]; [by intros ?%elem_of_nil|].
  intros Hin. simpl. destruct (decide (k0 = k)); [done|].
  apply elem_of_cons in Hin as [[= -> ->]|Hin]; [done|by apply IH].
Qed.

Lemma matching_singleton_exact {V} (p : prefixtree.Tree V) field k v :
  prefixtree.matching field p = [(k, v)] -> prefixtree.exact k p = Some v.
Proof.
  unfold prefixtree.matching.
  induction p as [|[k0 v0] p IH]; [done|]. simpl.
  destruct (hasPrefix field k0) eqn:Hpre.
  - intros [= -> -> _]. by destruct (decide (k = k)).
  - intros Hf. destruct (decide (k0 = k)) as [->|_]; [|by apply IH].
    assert (Hin : In (k, v) (List.filter (fun kv => hasPrefix field kv.1) p))
      by (rewrite Hf; by left).
    apply filter_In in Hin as [_ Hk]. simpl in Hk. congruence.
Qed.

Lemma FindKeyValues_singleton_exact {V} (p : prefixtree.Tree V) field k v :
  prefixtree.FindKeyValues p field = [(k, v)] ->
  prefixtree.exact k p = Some v.
Proof.
  unfold prefixtree.FindKeyValues. intros Hs.
  apply (matching_singleton_exact p field).
  apply Permutation_singleton_r. by rewrite <- Hs, merge_sort_Permutation.
Qed.

(** A key of the index reached, behind the words read, names a node. *)
Lemma reachedBy_key s t p prefix (k : string) (v : Node) :
  reachedBy s t p prefix -> (k, v) ∈ p -> isWord k = true ->
  exists n, Lookup s t (prefix +:+ k) = (Some n, [], None).
Proof.
  intros Hr Hin Hk.
  rewrite (Hr k) by (by constructor).
  rewrite nextField_word by done. cbn [fst snd].
  destruct (exact_elem _ _ _ Hin) as [v' Hv'].
  assert (Hfind : prefixtree.FindValue p k = inl v')
    by (apply FindValue_exact; [by apply isWord_nonempty|done]).
  destruct v' as [c|st].
  - exists (NCommand c).
    rewrite (lookupFrom_command _ _ _ _ c) by done. by rewrite tokens_empty.
  - exists (NTree st). by apply lookupFrom_subtree_end.
Qed.

Lemma autocompleteLoop_resolve s t0 : keysWords s = true ->
  forall fuel t prefix field remain r x,
    reachedBy s t0 (pt (trees s !!! t)) prefix ->
    autocompleteLoop fuel s (pt (trees s !!! t)) prefix field remain = Some r ->
    x ∈ r ->
    exists n, Lookup s t0 x = (Some n, [], None).
Proof.
  intros Hkw. induction fuel as [|fuel IH];
    intros t prefix field remain r x Hr; [done|].
  cbn [autocompleteLoop].
  pose proof (elem_of_FindKeyValues (pt (trees s !!! t)) field) as Hin.
  pose proof (FindKeyValues_singleton_exact (pt (trees s !!! t)) field) as Hone.
  destruct (prefixtree.FindKeyValues (pt (trees s !!! t)) field)
    as [|[k n] [|m2 l]].
  - intros [= <-] Hx. by apply elem_of_nil in Hx.
  - assert (Hk : (k, n) ∈ pt (trees s !!! t)) by (apply Hin; left).
    assert (Hw : isWord k = true) by (by apply (keysWords_elem s t k n)).
    cbn [fst snd]. destruct n as [c|st].
    + destruct (decide _); intros [= <-] Hx; [by apply elem_of_nil in Hx|].
      apply list_elem_of_singleton in Hx as ->.
      by apply (reachedBy_key s t0 (pt (trees s !!! t)) prefix k (NCommand c)).
    + destruct (decide _).
      * intros [= <-] Hx. apply list_elem_of_singleton in Hx as ->.
        by apply (reachedBy_key s t0 (pt (trees s !!! t)) prefix k (NTree st)).
      * apply IH.
        apply (reachedBy_step s t0 (pt (trees s !!! t))); [done|done|].
        apply FindValue_exact; [by apply isWord_nonempty|by apply Hone].
  - destruct (decide _); intros Heq Hx; apply (inj Some) in Heq; subst r;
      [by apply elem_of_nil in Hx|].
    apply list_elem_of_fmap in Hx as ([k' v] & -> & Hm).
    apply (reachedBy_key s t0 (pt (trees s !!! t)) prefix k' v);
      [done|by apply Hin|].
    apply (keysWords_elem s t k' v); [done|by apply Hin].
Qed.

(** X19: what [Autocomplete] suggests, [Lookup] accepts: when every key
    of every index is a bare word (no space, tab or quote), each string
    [Autocomplete] returns for a line resolves with [Lookup] from the same
    tree to a node, with no argument left over and no error. *)
Theorem Autocomplete_suggestions_resolve s t (line : string) (fuel : nat)
    (r : list string) (x : string) :
  keysWords s = true ->
  Autocomplete fuel s t line = Some r ->
  x ∈ r ->
  exists n, Lookup s t x = (Some n, [], None).
Proof.
  intros Hkw Hac Hx. unfold Autocomplete in Hac.
  destruct (nextField (stripLeadingWhitespace line)) as [field remain].
  by apply (autocompleteLoop_resolve s t Hkw fuel t "" field remain r x
              (reachedBy_start s t)).
Qed.

Lemma autocompleteLoop_fuel_le s p prefix field remain r fuel fuel' :
  fuel <= fuel' ->
  autocompleteLoop fuel s p prefix field remain = Some r ->
  autocompleteLoop fuel' s p prefix field remain = Some r.
Proof.
  induction 1 as [|fuel' _ IH]; [done|].
  intros H. by apply autocompleteLoop_fuel, IH.
Qed.

(** X20: on a heap built through the API [Autocomplete] returns: one
    turn of its loop per tree, plus one, is fuel enough, more fuel gives
    the same list, and the list is in ascending byte order. *)
Theorem Autocomplete_returns s t (line : string) :
  built s ->
  exists r, Sorted String.le r
    /\ forall fuel, length (trees s) < fuel ->
         Autocomplete fuel s t line = Some r.
Proof.
  intros Hb.
  destruct (Autocomplete_total s t line Hb) as [r Hr]. exists r. split.
  - rewrite Autocomplete_start in Hr. by apply acLoop_sorted in Hr.
  - intros fuel Hf. unfold Autocomplete in *.
    destruct (nextField (stripLeadingWhitespace line)) as [field remain].
    apply (autocompleteLoop_fuel_le _ _ _ _ _ _ (S (length (trees s))));
      [lia|done].
Qed.

End AutocompleteSuggestions.

Lemma Autocomplete_suggestions_resolve_witness :
  keysWords acTree = true
  /\ Autocomplete 2 acTree 0 "chi s" = Some ["child sally"; "child steve"]
  /\ "child steve" ∈ ["child sally"; "child steve"]
  /\ exists n, Lookup acTree 0 "child steve" = (Some n, [], None).
Proof.
  assert (H1 : keysWords acTree = true) by (vm_compute; reflexivity).
  assert (H2 : Autocomplete 2 acTree 0 "chi s"
               = Some ["child sally"; "child steve"])
    by (vm_compute; reflexivity).
  assert (H3 : "child steve" ∈ ["child sally"; "child steve"])
    by (apply list_elem_of_In; right; left; reflexivity).
  split; [exact H1|]. split; [exact H2|]. split; [exact H3|].
  exact (Autocomplete_suggestions_resolve acTree 0 "chi s" 2 _ _ H1 H2 H3).
Defined.

Lemma Autocomplete_returns_witness :
  built buildTree
  /\ exists r, Sorted String.le r
       /\ forall fuel, length (trees buildTree) < fuel ->
            Autocomplete fuel buildTree 0 "file r" = Some r.
Proof.
  split; [exact built_buildTree|].
  exact (Autocomplete_returns buildTree 0 "file r" built_buildTree).
Defined.

(** ** Wrapping help text *)

Section IndentWrap.
Local Open Scope list_scope.

Lemma length_append (a b : string) :
  String.length (a +:+ b) = String.length a + String.length b.
Proof.
  induction a as [|c a IH]; [done|].
  change (String c a +:+ b) with (String c (a +:+ b)). simpl. by rewrite IH.
Qed.

Lemma Join_snoc (g : list string) (w sep : string) :
  g <> [] -> Join (g ++ [w])%list sep = Join g sep +:+ sep +:+ w.
Proof.
  induction g as [|e g IH]; [done|]. intros _.
  destruct g as [|e' g]; [done|].
  change (Join ((e :: e' :: g) ++ [w]) sep)
    with (e +:+ sep +:+ Join ((e' :: g) ++ [w]) sep).
  rewrite IH by done.
  change (Join (e :: e' :: g) sep) with (e +:+ sep +:+ Join (e' :: g) sep).
  by rewrite !append_assoc.
Qed.

(** An [int] operation whose exact result is an [int] does not wrap. *)
Lemma wrapInt_small (z : Z) :
  (minInt <= z <= maxInt)%Z -> wrapInt z = z.
Proof.
  unfold wrapInt, minInt, maxInt. intros H.
  rewrite Z.mod_small by lia. lia.
Qed.

Lemma len_nonneg (s : string) : (0 <= len s)%Z.
Proof. unfold len. lia. Qed.

Lemma len_append (a b : string) : len (a +:+ b) = (len a + len b)%Z.
Proof. unfold len. rewrite length_append. lia. Qed.

Lemma weight_nonneg (ws : list string) : (0 <= weight ws)%Z.
Proof.
  induction ws as [|w ws IH]; simpl; [lia|].
  pose proof (len_nonneg w). lia.
Qed.

Lemma weight_app (a b : list string) :
  weight (a ++ b) = (weight a + weight b)%Z.
Proof. induction a as [|w a IH]; simpl; [done|]. rewrite IH. lia. Qed.

Lemma weight_Join (g : list string) :
  g <> [] -> len (Join g " ") = (weight g - 1)%Z.
Proof.
  induction g as [|e g IH]; [done|]. intros _.
  destruct g as [|e' g]; [simpl; lia|].
  change (Join (e :: e' :: g) " ") with (e +:+ " " +:+ Join (e' :: g) " ").
  change (weight (e :: e' :: g)) with (len e + 1 + weight (e' :: g))%Z.
  specialize (IH ltac:(done)).
  rewrite !len_append, IH. change (len " ") with 1%Z. lia.
Qed.

(** The fields of a text, each with the white space that ends it, fit in
    the text: [strings.Fields] makes nothing up. *)
Lemma fieldsLoop_weight (s : string) : forall skip cur,
  (weight (fieldsLoop s skip cur) <= len s + len (default "" cur) + 1)%Z.
Proof.
  induction s as [|c s IH]; intros skip cur.
  - destruct cur as [f|]; simpl; unfold len; simpl; lia.
  - assert (Hs : len (String c s) = (len s + 1)%Z)
      by (unfold len; simpl String.length; lia).
    assert (Hsnoc : forall f, len (f +:+ String c "") = (len f + 1)%Z).
    { intros f. unfold len. rewrite length_append. simpl. lia. }
    cbn [fieldsLoop]. destruct skip as [|k].
    + destruct (decodeRune (String c s)) as [r w].
      destruct (IsSpace r).
      * rewrite weight_app. specialize (IH (w - 1) None).
        destruct cur as [f|]; simpl in *; unfold len in *; simpl in *; lia.
      * specialize (IH (w - 1) (Some (default "" cur +:+ String c ""))).
        simpl in IH. rewrite Hsnoc in IH. lia.
    + specialize (IH k ((fun f => f +:+ String c "") <$> cur)).
      destruct cur as [f|]; simpl in IH.
      * rewrite Hsnoc in IH. simpl. lia.
      * simpl. unfold len in *. simpl in *. lia.
Qed.

Lemma Fields_weight (s : string) : (weight (Fields s) <= len s + 1)%Z.
Proof.
  pose proof (fieldsLoop_weight s 0 None) as H. unfold Fields.
  simpl in H. unfold len in *. simpl in *. lia.
Qed.

Lemma countsLoop_wrapFrom indent rest : forall counts cur l,
  countsLoop indent rest counts (length cur) l
  = counts ++ (length <$> wrapFrom indent rest cur l).
Proof.
  induction rest as [|w rest IH]; intros counts cur l; [done|].
  cbn [countsLoop wrapFrom]. destruct (decide _).
  - rewrite <- IH. f_equal. rewrite length_app. simpl. lia.
  - rewrite (IH _ [w]). by rewrite <- app_assoc.
Qed.

Lemma wrapFrom_concat indent rest : forall cur l,
  List.concat (wrapFrom indent rest cur l) = cur ++ rest.
Proof.
  induction rest as [|w rest IH]; intros cur l; simpl.
  - by rewrite app_nil_r.
  - destruct (decide _); simpl; rewrite IH; [by rewrite <- app_assoc|done].
Qed.

Lemma wrapFrom_nonempty indent rest : forall cur l,
  cur <> [] -> Forall (fun g => g <> []) (wrapFrom indent rest cur l).
Proof.
  induction rest as [|w rest IH]; intros cur l Hcur; simpl.
  - by constructor.
  - destruct (decide _).
    + apply IH. by destruct cur.
    + constructor; [done|]. by apply IH.
Qed.

(** While the line being filled and the fields to come fit in an [int],
    the sums of the first loop are exact. *)
Lemma wrap_sums_exact indent (cur rest : list string) (w : string) (l : Z) :
  (0 <= indent)%Z ->
  l = (indent + weight cur - 1)%Z -> cur <> [] ->
  (indent + weight cur + weight (w :: rest) <= maxInt + 1)%Z ->
  addInt (addInt l 1) (len w) = (l + 1 + len w)%Z
  /\ addInt l (addInt 1 (len w)) = (l + 1 + len w)%Z
  /\ addInt indent (len w) = (indent + len w)%Z
  /\ (l + 1 + len w)%Z = (indent + weight (cur ++ [w]) - 1)%Z.
Proof.
  intros Hind Hl Hcur Hfit.
  pose proof (len_nonneg w). pose proof (weight_nonneg rest).
  assert (1 <= weight cur)%Z.
  { destruct cur as [|e cur]; [done|]. simpl.
    pose proof (len_nonneg e). pose proof (weight_nonneg cur). lia. }
  simpl in Hfit. unfold addInt.
  rewrite (wrapInt_small (l + 1)), (wrapInt_small (1 + len w)),
    (wrapInt_small (l + 1 + len w)), (wrapInt_small (l + (1 + len w))),
    (wrapInt_small (indent + len w))
    by (unfold minInt, maxInt in *; lia).
  rewrite weight_app. simpl. lia.
Qed.

(** Every line of more than one field was found to fit. *)
Lemma wrapFrom_width indent rest : forall cur l,
  (0 <= indent)%Z ->
  cur <> [] ->
  l = (indent + weight cur - 1)%Z ->
  (indent + weight cur + weight rest <= maxInt + 1)%Z ->
  length cur = 1 \/ (l < 80)%Z ->
  Forall (fun g => length g = 1 \/ (indent + len (Join g " ") < 80)%Z)
    (wrapFrom indent rest cur l).
Proof.
  induction rest as [|w rest IH]; intros cur l Hind Hcur Hl Hin Hfit; simpl.
  - constructor; [|done]. destruct Hfit; [by left|right].
    rewrite weight_Join by done. lia.
  - destruct (wrap_sums_exact indent cur rest w l Hind Hl Hcur Hin)
      as (E1 & E2 & E3 & E4).
    rewrite E1, E2, E3. simpl in Hin.
    pose proof (weight_nonneg cur). pose proof (len_nonneg w).
    destruct (decide _) as [Hlt|Hge].
    + apply IH; [done|by destruct cur|done| |by right].
      rewrite weight_app. simpl. lia.
    + constructor.
      * destruct Hfit; [by left|right]. rewrite weight_Join by done. lia.
      * apply IH; [done|done|simpl; lia|simpl; lia|by left].
Qed.

Lemma wrapFrom_head indent rest : forall cur l,
  exists more tl, wrapFrom indent rest cur l = (cur ++ more) :: tl.
Proof.
  induction rest as [|w rest IH]; intros cur l; simpl.
  - exists [], []. by rewrite app_nil_r.
  - destruct (decide _).
    + destruct (IH (cur ++ [w]) (addInt l (addInt 1 (len w))))
        as (more & tl & ->).
      exists (w :: more), tl. by rewrite <- app_assoc.
    + exists [], (wrapFrom indent rest [w] (addInt indent (len w))).
      by rewrite app_nil_r.
Qed.

(** A line ends only where the next field did not fit. *)
Lemma wrapFrom_greedy indent rest : forall cur l i g w g',
  (0 <= indent)%Z ->
  cur <> [] ->
  l = (indent + weight cur - 1)%Z ->
  (indent + weight cur + weight rest <= maxInt + 1)%Z ->
  wrapFrom indent rest cur l !! i = Some g ->
  wrapFrom indent rest cur l !! S i = Some (w :: g') ->
  (80 <= indent + len (Join g " ") + 1 + len w)%Z.
Proof.
  induction rest as [|w0 rest IH]; intros cur l i g w g' Hind Hcur Hl Hin;
    simpl.
  - by destruct i.
  - destruct (wrap_sums_exact indent cur rest w0 l Hind Hl Hcur Hin)
      as (E1 & E2 & E3 & E4).
    rewrite E1, E2, E3. simpl in Hin.
    pose proof (weight_nonneg cur). pose proof (len_nonneg w0).
    destruct (decide _) as [Hlt|Hge].
    + apply IH; [done|by destruct cur|done|].
      rewrite weight_app. simpl. lia.
    + destruct i as [|i]; simpl.
      * intros [= <-].
        destruct (wrapFrom_head indent rest [w0] (indent + len w0)%Z)
          as (more & tl & ->).
        simpl. intros [= <- _]. rewrite weight_Join by done. lia.
      * apply IH; [done|done|simpl; lia|simpl; lia].
Qed.

Lemma sliceList_group {T} (ss g rest : list T) (i : nat) :
  drop i ss = g ++ rest -> i <= length ss ->
  sliceList ss i (i + length g) = Some g.
Proof.
  intros Hd Hi. unfold sliceList.
  assert (Hlen : length (drop i ss) = length g + length rest)
    by (by rewrite Hd, length_app).
  rewrite length_drop in Hlen.
  destruct (decide _) as [_|Hn]; [|lia].
  replace (i + length g - i) with (length g) by lia.
  by rewrite Hd, take_app_length.
Qed.

Lemma linesLoop_groups indent pad ss : forall groups lines i,
  Repeat " " indent = Some pad ->
  drop i ss = List.concat groups -> i <= length ss ->
  linesLoop indent ss (length <$> groups) lines i
  = Some (lines ++ ((fun g => pad +:+ Join g " ") <$> groups)).
Proof.
  intros groups lines i Hpad. revert lines i.
  induction groups as [|g groups IH]; intros lines i Hd Hi; simpl.
  - by rewrite app_nil_r.
  - rewrite Hpad. simpl in Hd.
    rewrite (sliceList_group ss g (List.concat groups) i) by done.
    assert (Hlen : length (drop i ss) = length g + length (List.concat groups))
      by (by rewrite Hd, length_app).
    rewrite length_drop in Hlen.
    rewrite IH.
    + by rewrite <- app_assoc.
    + by rewrite <- drop_drop, Hd, drop_app_length.
    + lia.
Qed.

Lemma repeatLoop_length (n : nat) : String.length (repeatLoop " " n) = n.
Proof.
  induction n as [|n IH]; [done|].
  change (S (String.length (repeatLoop " " n)) = S n). by rewrite IH.
Qed.

(** A padding narrower than the line is neither negative, nor an overflow,
    nor too large to allocate. *)
Lemma Repeat_indent (indent : Z) :
  (0 <= indent < 80)%Z ->
  Repeat " " indent = Some (repeatLoop " " (Z.to_nat indent)).
Proof.
  intros H. unfold Repeat, len, maxInt, maxAlloc. simpl String.length.
  repeat (destruct (decide _) as [?|_]; [lia|]). done.
Qed.

(** X21: for an indent from 0 to 79 and a text that with the indent stays
    within an [int], [indentWrap] does not panic, and it only re-arranges
    white space: its result is lines joined by newlines, each line the
    indent followed by a group of fields joined by single spaces; the
    groups are not empty and, put end to end, are the fields of the text in
    their order; every line holding more than one field is shorter than 80
    bytes, and a line ends only where the next field would have brought it
    to 80 bytes or more. *)
Theorem indentWrap_lines (indent : Z) (s : string) :
  (0 <= indent < 80)%Z ->
  (indent + len s <= maxInt)%Z ->
  exists (groups : list (list string)) (pad : string),
    indentWrap indent s
    = Some (Join ((fun g => pad +:+ Join g " ") <$> groups)
              (String newline ""))
    /\ pad = repeatLoop " " (Z.to_nat indent)
    /\ List.concat groups = Fields s
    /\ Forall (fun g => g <> []) groups
    /\ Forall (fun g => length g = 1
                        \/ String.length (pad +:+ Join g " ") < 80) groups
    /\ (forall i g w g',
          groups !! i = Some g -> groups !! S i = Some (w :: g') ->
          80 <= String.length (pad +:+ Join g " ") + 1 + String.length w).
Proof.
  intros Hind Hfit. unfold indentWrap.
  pose proof (Repeat_indent indent Hind) as Hpad.
  pose proof (Fields_weight s) as Hw.
  destruct (Fields s) as [|w0 rest].
  { exists [], (repeatLoop " " (Z.to_nat indent)).
    repeat split; done. }
  assert (Hl0 : addInt indent (len w0) = (indent + weight [w0] - 1)%Z).
  { pose proof (len_nonneg w0). pose proof (weight_nonneg rest).
    simpl in Hw |- *. unfold addInt.
    rewrite wrapInt_small; unfold minInt, maxInt in *; lia. }
  assert (Hin : (indent + weight [w0] + weight rest <= maxInt + 1)%Z)
    by (simpl in Hw |- *; lia).
  exists (wrapFrom indent rest [w0] (addInt indent (len w0))),
    (repeatLoop " " (Z.to_nat indent)).
  cbv zeta.
  rewrite (countsLoop_wrapFrom indent rest [] [w0]). simpl app.
  rewrite (linesLoop_groups indent _ _ _ _ _ Hpad);
    [|simpl; by rewrite wrapFrom_concat|simpl; lia].
  split; [done|]. split; [done|].
  split; [by rewrite wrapFrom_concat|].
  split; [by apply wrapFrom_nonempty|].
  split.
  - eapply Forall_impl;
      [apply (wrapFrom_width indent rest [w0]);
         [lia|done|done|done|by left]|].
    intros g [Hg|Hg]; [by left|right].
    rewrite length_append, repeatLoop_length. unfold len in Hg. lia.
  - intros i g w g' Hg Hg'.
    pose proof (wrapFrom_greedy indent rest [w0] _ i g w g'
                  ltac:(lia) ltac:(done) Hl0 Hin Hg Hg') as Hge.
    rewrite length_append, repeatLoop_length. unfold len in Hge. lia.
Qed.

End IndentWrap.

Lemma indentWrap_lines_witness :
  (0 <= 3 < 80)%Z
  /\ (3 + len "  list   the files " <= maxInt)%Z
  /\ exists (groups : list (list string)) (pad : string),
       indentWrap 3 "  list   the files "
       = Some (Join ((fun g => pad +:+ Join g " ") <$> groups)
                 (String newline ""))
       /\ pad = repeatLoop " " (Z.to_nat 3)
       /\ List.concat groups = Fields "  list   the files "
       /\ Forall (fun g => g <> []) groups
       /\ Forall (fun g => length g = 1
                           \/ String.length (pad +:+ Join g " ") < 80) groups
       /\ (forall i g w g',
             groups !! i = Some g -> groups !! S i = Some (w :: g') ->
             80 <= String.length (pad +:+ Join g " ") + 1 + String.length w).
Proof.
  assert (H : (0 <= 3 < 80)%Z) by lia.
  assert (H' : (3 + len "  list   the files " <= maxInt)%Z)
    by (vm_compute; discriminate).
  split; [exact H|]. split; [exact H'|].
  exact (indentWrap_lines 3 "  list   the files " H H').
Defined.

(** ** The arguments of a command *)

Section Arguments.
Context {A : Type}.
Implicit Types (s : Heap A) (t : TreeRef).

Lemma first_blank (s : string) :
  noBlank s = true
  \/ exists a b rest,
       s = a +:+ String b rest /\ noBlank a = true /\ isBlank b = true.
Proof.
  induction s as [|c s IH]; [by left|].
  destruct (isBlank c) eqn:Hc.
  - right. by exists "", c, s.
  - destruct IH as [IH|(a & b & rest & -> & Ha & Hb)].
    + left. simpl. by rewrite Hc, IH.
    + right. exists (String c a), b, rest. simpl. by rewrite Hc, Ha.
Qed.

(** A bare field ends at the first space or tab, or with the line. *)
Lemma specArgsFrom_bare_end (w acc : string) :
  noBlank w = true -> specArgsFrom (InBare acc) w = [acc +:+ w].
Proof.
  revert acc. induction w as [|c w IH]; intros acc; simpl.
  - intros _. by rewrite append_empty_r.
  - intros [Hc Hw]%andb_prop. apply negb_true_iff in Hc. rewrite Hc.
    rewrite IH by done. by rewrite append_assoc.
Qed.

Lemma specArgsFrom_bare_blank (w acc : string) b rest :
  noBlank w = true -> isBlank b = true ->
  specArgsFrom (InBare acc) (w +:+ String b rest)
  = (acc +:+ w) :: specArgsFrom Between rest.
Proof.
  revert acc. induction w as [|c w IH]; intros acc Hw Hb.
  - change ("" +:+ String b rest) with (String b rest). simpl.
    by rewrite Hb, append_empty_r.
  - change (String c w +:+ String b rest)
      with (String c (w +:+ String b rest)).
    simpl in Hw. apply andb_prop in Hw as [Hc Hw].
    apply negb_true_iff in Hc. simpl. rewrite Hc.
    rewrite IH by done. by rewrite append_assoc.
Qed.

(** A quoted field ends at the next double quote, or with the line. *)
Lemma specArgsFrom_quoted_end (a acc : string) :
  noQuote a = true -> specArgsFrom (InQuoted acc) a = [acc +:+ a].
Proof.
  revert acc. induction a as [|c a IH]; intros acc; simpl.
  - intros _. by rewrite append_empty_r.
  - intros [Hc Ha]%andb_prop. apply negb_true_iff in Hc. rewrite Hc.
    rewrite IH by done. by rewrite append_assoc.
Qed.

Lemma specArgsFrom_quoted_closed (a acc rest : string) :
  noQuote a = true ->
  specArgsFrom (InQuoted acc) (a +:+ String dquote rest)
  = (acc +:+ a) :: specArgsFrom Between rest.
Proof.
  revert acc. induction a as [|c a IH]; intros acc Ha.
  - change ("" +:+ String dquote rest) with (String dquote rest). simpl.
    by rewrite append_empty_r.
  - change (String c a +:+ String dquote rest)
      with (String c (a +:+ String dquote rest)).
    simpl in Ha. apply andb_prop in Ha as [Hc Ha].
    apply negb_true_iff in Hc. simpl. rewrite Hc.
    rewrite IH by done. by rewrite append_assoc.
Qed.

(** The loop [for remain != "" { field, remain = nextField(remain) ... }]
    computes the argument list of the specification. *)
Lemma tokens_specArgs_bounded (n : nat) : forall line : string,
  String.length line <= n ->
  tokens (stripLeadingWhitespace line) = specArgs line.
Proof.
  induction n as [|n IH]; intros line Hn.
  { destruct line; [|simpl in Hn; lia]. by rewrite tokens_eq. }
  destruct line as [|c line]; [by rewrite tokens_eq|].
  simpl in Hn. rewrite stripLeadingWhitespace_cons. unfold specArgs.
  destruct (isBlank c) eqn:Hblank.
  { cbn [specArgsFrom]. rewrite Hblank. apply IH. lia. }
  destruct (isQuote c) eqn:Hquote.
  - cbn [specArgsFrom]. rewrite Hblank, Hquote.
    assert (c = dquote) as -> by (by apply bool_decide_eq_true in Hquote).
    destruct (first_quote line) as [Hnq|(a & b & -> & Ha)].
    + rewrite tokens_cons by done.
      rewrite nextField_quote_open by done. cbn [fst snd].
      rewrite tokens_empty. by rewrite specArgsFrom_quoted_end.
    + rewrite tokens_quoted by done.
      rewrite specArgsFrom_quoted_closed by done.
      change ("" +:+ a) with a. f_equal. apply IH.
      rewrite length_append in Hn. simpl in Hn. lia.
  - cbn [specArgsFrom]. rewrite Hblank, Hquote.
    destruct (first_blank line) as [Hnb|(a & b & rest & -> & Ha & Hb)].
    + rewrite tokens_word by (simpl; by rewrite Hquote, Hblank, Hnb).
      by rewrite specArgsFrom_bare_end.
    + change (String c (a +:+ String b rest))
        with (String c a +:+ String b rest).
      rewrite tokens_word_blank
        by (first [done | simpl; by rewrite Hquote, Hblank, Ha]).
      rewrite specArgsFrom_bare_blank by done.
      f_equal. apply IH.
      rewrite length_append in Hn. simpl in Hn. lia.
Qed.

Lemma tokens_specArgs (line : string) :
  stripLeadingWhitespace line = line -> tokens line = specArgs line.
Proof.
  intros H. rewrite <- H at 1.
  by apply (tokens_specArgs_bounded (String.length line) line).
Qed.

(** What [nextField] leaves begins with no space or tab. *)
Lemma nextField_remain_strip (line : string) :
  stripLeadingWhitespace (nextField line).2 = (nextField line).2.
Proof.
  unfold nextField. destruct line as [|c line]; [done|].
  destruct (isQuote c).
  - destruct (indexFunc isQuote line); cbn [snd]; [apply strip_idem|done].
  - destruct (indexFunc isBlank (String c line)); cbn [snd];
      [apply strip_idem|done].
Qed.

(** Throughout the descent the input still to be read begins with no
    space or tab. *)
Lemma descend_remain_strip s t (line : string) cur :
  rtc (descend s) (start s t line) cur ->
  stripLeadingWhitespace (cur_remain cur) = cur_remain cur.
Proof.
  revert cur. apply rtc_ind_r.
  - apply nextField_remain_strip.
  - intros cur cur' _ Hstep _. destruct Hstep. apply nextField_remain_strip.
Qed.

(** C1: when a field resolves to a Command, at any depth of the descent and
    whatever input remains, [Lookup] succeeds with that Command, and its
    arguments are the fields of the remaining input as the specification
    defines them: in reading order, separated by runs of spaces and tabs, a
    double-quoted field kept whole, blanks included, without its quotes. *)
Theorem Lookup_command_stops s t (line : string) cur (c : CommandRef) :
  (nextField (stripLeadingWhitespace line)).1 <> "" ->
  rtc (descend s) (start s t line) cur ->
  prefixtree.FindValue (cur_pt cur) (cur_field cur) = inl (NCommand c) ->
  Lookup s t line = (Some (NCommand c), specArgs (cur_remain cur), None).
Proof.
  intros Hne Hrtc Hfind.
  rewrite (Lookup_start _ _ _ Hne), (lookupFrom_rtc _ _ _ Hrtc).
  unfold lookupFrom. rewrite lookupLoop_eq, Hfind.
  rewrite argsLoop_tokens. do 2 f_equal.
  apply tokens_specArgs. by apply (descend_remain_strip s t line).
Qed.

End Arguments.

(** The line [file open] followed by the quoted argument [a b] and the
    bare argument [c]. *)
Lemma descend_file_quoted :
  descend buildTree
    (start buildTree 0
       ("file open " +:+ String dquote ("a b" +:+ String dquote " c")))
    (mkCursor (pt (trees buildTree !!! 1)) "open"
       (String dquote ("a b" +:+ String dquote " c"))).
Proof.
  exact (descend_subtree buildTree (pt (trees buildTree !!! 0))
           "file" ("open " +:+ String dquote ("a b" +:+ String dquote " c"))
           1 eq_refl ltac:(discriminate)).
Defined.

Lemma Lookup_command_stops_witness :
  let line := "file open " +:+ String dquote ("a b" +:+ String dquote " c") in
  let cur := mkCursor (pt (trees buildTree !!! 1)) "open"
               (String dquote ("a b" +:+ String dquote " c")) in
  (nextField (stripLeadingWhitespace line)).1 <> ""
  /\ rtc (descend buildTree) (start buildTree 0 line) cur
  /\ prefixtree.FindValue (cur_pt cur) (cur_field cur) = inl (NCommand 2)
  /\ Lookup buildTree 0 line = (Some (NCommand 2), ["a b"; "c"], None).
Proof.
  intros line cur.
  assert (H1 : (nextField (stripLeadingWhitespace line)).1 <> "")
    by (vm_compute; discriminate).
  assert (H2 : rtc (descend buildTree) (start buildTree 0 line) cur)
    by (apply rtc_once, descend_file_quoted).
  assert (H3 : prefixtree.FindValue (cur_pt cur) (cur_field cur)
               = inl (NCommand 2)) by (vm_compute; reflexivity).
  split; [assumption|]. split; [assumption|]. split; [assumption|].
  exact (Lookup_command_stops buildTree 0 line cur 2 H1 H2 H3).
Defined.

(** ** What is registered is found *)

Section RegisteredFound.
Context {A : Type}.
Implicit Types (s : Heap A) (t : TreeRef).

Lemma keysUnique_NoDup s t :
  keysUnique s = true -> NoDup (pt (trees s !!! t)).*1.
Proof.
  unfold keysUnique. rewrite forallb_forall. intros Hall.
  destruct (decide (t < length (trees s))) as [Hlt|Hge].
  - apply list_lookup_lookup_total_lt in Hlt.
    apply list_elem_of_lookup_2, list_elem_of_In, Hall in Hlt.
    by apply bool_decide_eq_true in Hlt.
  - rewrite list_lookup_total_alt, lookup_ge_None_2 by lia. constructor.
Qed.

(** In an index without a repeated key, an entry is what its key finds. *)
Lemma exact_NoDup {V} (p : prefixtree.Tree V) (k : string) (v : V) :
  NoDup p.*1 -> (k, v) ∈ p -> prefixtree.exact k p = Some v.
Proof.
  induction p as [|[k0 v0] p IH]; [by intros _ ?%elem_of_nil|].
  rewrite fmap_cons, NoDup_cons. intros [Hk0 Hnd] Hin. simpl.
  apply elem_of_cons in Hin as [[= -> ->]|Hin].
  - by destruct (decide (k0 = k0)).
  - destruct (decide (k0 = k)) as [->|_]; [|by apply IH].
    exfalso. apply Hk0. apply list_elem_of_fmap. by exists (k, v).
Qed.

Lemma entry_allocated s t (k : string) (n : Node) :
  (k, n) ∈ pt (trees s !!! t) -> t < length (trees s).
Proof.
  intros Hin. destruct (decide (t < length (trees s))) as [|Hge]; [done|].
  rewrite list_lookup_total_alt, lookup_ge_None_2 in Hin by lia.
  by apply elem_of_nil in Hin.
Qed.

(** An entry under a bare word, in an index without a repeated key, is
    what [Lookup] of that word returns. *)
Lemma Lookup_entry s t (k : string) (n : Node) :
  keysUnique s = true -> isWord k = true ->
  (k, n) ∈ pt (trees s !!! t) ->
  Lookup s t k = (Some n, [], None).
Proof.
  intros Hu Hk Hin. rewrite Lookup_word by done.
  assert (Hfind : prefixtree.FindValue (pt (trees s !!! t)) k = inl n).
  { apply FindValue_exact; [by apply isWord_nonempty|].
    apply exact_NoDup; [by apply keysUnique_NoDup|done]. }
  destruct n as [c|st].
  - rewrite (lookupFrom_command _ _ _ _ c) by done. by rewrite tokens_empty.
  - by apply lookupFrom_subtree_end.
Qed.

(** X11: what [Commands()] and [Subtrees()] list can be looked up.  In a
    heap built through the API in which no index holds a key twice, every
    command a tree lists, if its name is a bare word, is what [Lookup] of
    that name returns from the tree, with no argument and no error; and so
    is every subtree the tree lists. *)
Theorem built_lists_found s t :
  built s -> keysUnique s = true ->
  (forall c : CommandRef, c ∈ commands (trees s !!! t) ->
     isWord (CommandDescriptor.Name (descriptor (cmds s !!! c))) = true ->
     Lookup s t (CommandDescriptor.Name (descriptor (cmds s !!! c)))
     = (Some (NCommand c), [], None))
  /\ (forall st : TreeRef, st ∈ subtrees (trees s !!! t) ->
        isWord (TreeDescriptor.Name (treeDescriptor (trees s !!! st))) = true ->
        Lookup s t (TreeDescriptor.Name (treeDescriptor (trees s !!! st)))
        = (Some (NTree st), [], None)).
Proof.
  intros Hb Hu. destruct (shape_lists s (built_shape s Hb) t) as [Hc Hst].
  split.
  - intros c Hin Hw. apply Lookup_entry; [done|done|].
    by destruct (Hc c Hin).
  - intros st Hin Hw. apply Lookup_entry; [done|done|]. by apply Hst.
Qed.

(** X12: a stored shortcut works.  In a heap built through the API in
    which no index holds a key twice, every shortcut a command stores, if
    it is a bare word, resolves to that very command: there is an
    allocated tree from which [Lookup] of the shortcut returns the command
    with no argument and no error. *)
Theorem built_shortcuts_found s (c : CommandRef) (k : string) :
  built s -> keysUnique s = true ->
  k ∈ shortcuts (cmds s !!! c) ->
  isWord k = true ->
  exists t, t < length (trees s)
            /\ Lookup s t k = (Some (NCommand c), [], None).
Proof.
  intros Hb Hu Hin Hw.
  destruct (shape_shortcuts s (built_shape s Hb) c k Hin) as [t Ht].
  exists t. split; [by apply (entry_allocated s t k (NCommand c))|].
  by apply Lookup_entry.
Qed.

End RegisteredFound.

Lemma built_lists_found_witness :
  built buildTree
  /\ keysUnique buildTree = true
  /\ (forall c : CommandRef, c ∈ commands (trees buildTree !!! 1) ->
        isWord (CommandDescriptor.Name (descriptor (cmds buildTree !!! c)))
        = true ->
        Lookup buildTree 1
          (CommandDescriptor.Name (descriptor (cmds buildTree !!! c)))
        = (Some (NCommand c), [], None))
  /\ (forall st : TreeRef, st ∈ subtrees (trees buildTree !!! 0) ->
        isWord (TreeDescriptor.Name (treeDescriptor (trees buildTree !!! st)))
        = true ->
        Lookup buildTree 0
          (TreeDescriptor.Name (treeDescriptor (trees buildTree !!! st)))
        = (Some (NTree st), [], None)).
Proof.
  assert (Hu : keysUnique buildTree = true) by (vm_compute; reflexivity).
  split; [exact built_buildTree|]. split; [exact Hu|].
  split.
  - exact (proj1 (built_lists_found buildTree 1 built_buildTree Hu)).
  - exact (proj2 (built_lists_found buildTree 0 built_buildTree Hu)).
Defined.

Lemma elem_of_buildTree_shortcut : "xx" ∈ shortcuts (cmds buildTree !!! 2).
Proof. solve_elem. Defined.

Lemma built_shortcuts_found_witness :
  built buildTree
  /\ keysUnique buildTree = true
  /\ "xx" ∈ shortcuts (cmds buildTree !!! 2)
  /\ isWord "xx" = true
  /\ exists t, t < length (trees buildTree)
               /\ Lookup buildTree t "xx" = (Some (NCommand 2), [], None).
Proof.
  assert (Hu : keysUnique buildTree = true) by (vm_compute; reflexivity).
  split; [exact built_buildTree|]. split; [exact Hu|].
  split; [exact elem_of_buildTree_shortcut|]. split; [reflexivity|].
  exact (built_shortcuts_found buildTree 2 "xx"
           built_buildTree Hu elem_of_buildTree_shortcut eq_refl).
Defined.
